(** * Genji: range iteration over trees and DML statement preparation

    A shallow embedding of
    - [internal/tree]: [Tree], its key builders and [IterateOnRange];
    - [internal/query/statement]: [UpdateStmt.Prepare], [DropTableStmt.Run],
      [DropSequenceStmt.Run];
    together with the properties the specification states about them. *)

From Stdlib Require Import ZArith NArith List Bool Lia.
From Stdlib Require Import Sorting.Sorted.
From Stdlib Require Import Strings.String Strings.Byte.
From stdpp Require Import gmap strings.
Import ListNotations.

Local Open Scope Z_scope.

(** ** Errors and abnormal termination *)

(** Go [error] values.  [NotFoundError] is the catalog error recognised by
    [errs.IsNotFoundError]; [ErrKeyNotFound] is [kv.ErrKeyNotFound];
    [ParseError] is an error of the SQL parser; every other error carries
    its message. *)
Inductive error : Type :=
| NotFoundError (name : string)
| ErrKeyNotFound
| ParseError (context : string)
| ErrMsg (msg : string).

Definition IsNotFoundError (e : error) : bool :=
  match e with
  | NotFoundError _ => true
  | _ => false
  end.

(** A Go call either returns or panics with a message. *)
Inductive Outcome (A : Type) : Type :=
| Returns (a : A)
| Panics (msg : string).
Arguments Returns {A} a.
Arguments Panics {A} msg.

(** ** Byte strings and their order ([bytes.Compare]) *)

Definition bytes : Type := list byte.

Definition byte_compare (a b : byte) : comparison :=
  N.compare (Byte.to_N a) (Byte.to_N b).

Fixpoint bytes_compare (x y : bytes) : comparison :=
  match x, y with
  | [], [] => Eq
  | [], _ :: _ => Lt
  | _ :: _, [] => Gt
  | a :: x', b :: y' =>
      match byte_compare a b with
      | Eq => bytes_compare x' y'
      | c => c
      end
  end.

Definition bytes_leb (x y : bytes) : bool :=
  match bytes_compare x y with Gt => false | _ => true end.

Definition bytes_ltb (x y : bytes) : bool :=
  match bytes_compare x y with Lt => true | _ => false end.

(** [bytes.HasPrefix] and [bytes.TrimPrefix]. *)
Fixpoint HasPrefix (s prefix : bytes) {struct prefix} : bool :=
  match prefix, s with
  | [], _ => true
  | _ :: _, [] => false
  | p :: prefix', a :: s' => Byte.eqb a p && HasPrefix s' prefix'
  end.

Definition TrimPrefix (s prefix : bytes) : bytes :=
  if HasPrefix s prefix then skipn (length prefix) s else s.

(** ** The ordered byte store (external key-value engine)

    The engine keeps its entries in ascending key order without duplicate
    keys.  An iterator created with [IterOptions{LowerBound, UpperBound}]
    only exposes the entries whose key lies in [LowerBound, UpperBound); a
    nil lower bound is the empty key.  The engine is in memory: its writes
    and its iterators have no error of their own. *)

Definition Store : Type := list (bytes * bytes).

Fixpoint store_put (k v : bytes) (s : Store) : Store :=
  match s with
  | [] => [(k, v)]
  | (k', v') :: s' =>
      match bytes_compare k k' with
      | Lt => (k, v) :: s
      | Eq => (k, v) :: s'
      | Gt => (k', v') :: store_put k v s'
      end
  end.

Fixpoint store_get (k : bytes) (s : Store) : option bytes :=
  match s with
  | [] => None
  | (k', v') :: s' =>
      match bytes_compare k k' with
      | Eq => Some v'
      | _ => store_get k s'
      end
  end.


Definition in_bounds (LowerBound UpperBound k : bytes) : bool :=
  bytes_leb LowerBound k && bytes_ltb k UpperBound.

Record Iterator : Type := mkIterator {
  it_entries : list (bytes * bytes);
  it_pos : Z
}.

Definition NewIter (s : Store) (LowerBound UpperBound : bytes) : Iterator :=
  {| it_entries := List.filter (fun kv => in_bounds LowerBound UpperBound (fst kv)) s;
     it_pos := -1 |}.

Definition it_First (it : Iterator) : Iterator :=
  {| it_entries := it_entries it; it_pos := 0 |}.

Definition it_Last (it : Iterator) : Iterator :=
  {| it_entries := it_entries it; it_pos := Z.of_nat (length (it_entries it)) - 1 |}.

Definition it_Next (it : Iterator) : Iterator :=
  {| it_entries := it_entries it; it_pos := it_pos it + 1 |}.

Definition it_Prev (it : Iterator) : Iterator :=
  {| it_entries := it_entries it; it_pos := it_pos it - 1 |}.

Definition it_Valid (it : Iterator) : bool :=
  (0 <=? it_pos it) && (it_pos it <? Z.of_nat (length (it_entries it))).

Definition it_Key (it : Iterator) : bytes :=
  fst (nth (Z.to_nat (it_pos it)) (it_entries it) ([], [])).

Definition it_Value (it : Iterator) : bytes :=
  snd (nth (Z.to_nat (it_pos it)) (it_entries it) ([], [])).

(** ** Namespaces and transient stores (package [kv]) *)

Module kv.

(** Modelled from the spec: [kv.NamespaceID] is not among the sources.  A
    namespace owns a unique id prefix, and knows the first key after its
    own keys. *)
Record NamespaceID : Type := mkNamespaceID {
  id_prefix : bytes;
  id_upper : bytes
}.

(** Modelled from the spec: [kv.BuildKey] is not among the sources.  The
    namespace prefix is prepended to every persisted key. *)
Definition BuildKey (ns : NamespaceID) (key : bytes) : bytes := id_prefix ns ++ key.

(** Modelled from the spec: [NamespaceID.UpperBound] is not among the
    sources.  It is the first key that is not in the namespace any more. *)
Definition UpperBound (ns : NamespaceID) : bytes := id_upper ns.

(** The contract of [UpperBound()]: among the keys that are not below the
    namespace prefix, exactly the keys of the namespace are below it. *)
Definition NamespaceID_wf (ns : NamespaceID) : Prop :=
  forall y, bytes_leb (id_prefix ns) y = true ->
            (bytes_ltb y (UpperBound ns) = true <-> HasPrefix y (id_prefix ns) = true).

Record Namespace : Type := mkNamespace { ID : NamespaceID }.

(** Modelled from the spec: the methods of [kv.Namespace] are not among the
    sources.  Every method addresses the store at [BuildKey(ID, key)];
    [Get] and [Delete] fail with [ErrKeyNotFound] on an absent key and
    [Truncate] removes every key of the namespace. *)
Definition Namespace_Put (ns : Namespace) (key value : bytes) (s : Store) : Store :=
  store_put (BuildKey (ID ns) key) value s.

Definition Namespace_Get (ns : Namespace) (key : bytes) (s : Store) : bytes + error :=
  match store_get (BuildKey (ID ns) key) s with
  | Some v => inl v
  | None => inr ErrKeyNotFound
  end.

Definition Namespace_Exists (ns : Namespace) (key : bytes) (s : Store) : bool + error :=
  match store_get (BuildKey (ID ns) key) s with
  | Some _ => inl true
  | None => inl false
  end.



(** Modelled from the spec: [kv.TransientStore] is not among the sources.
    A transient store keeps raw keys, without a namespace prefix. *)
Record TransientStore : Type := mkTransientStore { }.

Definition TransientStore_Put (ts : TransientStore) (key value : bytes) (s : Store) : Store :=
  store_put key value s.

End kv.

(** ** Trees (package [tree]) *)

Module tree.

Definition Key : Type := bytes.

Definition nil_dereference : string := "invalid memory address or nil pointer dereference".

Section Tree.

(** [types.Document] is opaque to the tree. *)
Context {Doc : Type}.

(** [encoding.ArrayValueDelim]; the constant is not among the sources. *)
Variable ArrayValueDelim : byte.

Record Codec : Type := mkCodec {
  Encode : Doc -> bytes + error;
  Decode : bytes -> Doc + error
}.

(** The struct [Tree]; its field [Codec] is [Codec_] here, the name being
    taken by the interface. *)
Record Tree : Type := mkTree {
  Namespace : option kv.Namespace;
  TransientStore : option kv.TransientStore;
  Codec_ : Codec
}.

Definition New (ns : kv.Namespace) (codec : Codec) : Tree :=
  {| Namespace := Some ns; TransientStore := None; Codec_ := codec |}.

Definition NewTransient (store : kv.TransientStore) (codec : Codec) : Tree :=
  {| Namespace := None; TransientStore := Some store; Codec_ := codec |}.

(** The lazily decoding document handed out by the tree. *)
Record Document : Type := mkDocument {
  codec : Codec;
  encoded : bytes;
  d : option Doc
}.

(** A [Range]; [None] is a nil key. *)
Record Range : Type := mkRange {
  Min : option Key;
  Max : option Key;
  Exclusive : bool
}.

Definition Put (t : Tree) (key : Key) (doc : option Doc) (s : Store)
  : Outcome ((Doc + error) * Store) :=
  let enc :=
    match doc with
    | Some d' => Encode (Codec_ t) d'
    | None => inl [Byte.x00]
    end in
  match enc with
  | inr err => Returns (inr err, s)
  | inl enc =>
      match TransientStore t with
      | Some ts => let s' := kv.TransientStore_Put ts key enc s in
                   Returns (Decode (Codec_ t) enc, s')
      | None =>
          match Namespace t with
          | Some ns => let s' := kv.Namespace_Put ns key enc s in
                       Returns (Decode (Codec_ t) enc, s')
          | None => Panics nil_dereference
          end
      end
  end.

Definition Get (t : Tree) (key : Key) (s : Store) : Outcome (Document + error) :=
  match TransientStore t with
  | Some _ => Panics "Get not implemented on transient tree"
  | None =>
      match Namespace t with
      | None => Panics nil_dereference
      | Some ns =>
          match kv.Namespace_Get ns key s with
          | inr err => Returns (inr err)
          | inl vv => Returns (inl {| codec := Codec_ t; encoded := vv; d := None |})
          end
      end
  end.

Definition Exists (t : Tree) (key : Key) (s : Store) : Outcome (bool + error) :=
  match TransientStore t with
  | Some _ => Panics "Exists not implemented on transient tree"
  | None =>
      match Namespace t with
      | None => Panics nil_dereference
      | Some ns => Returns (kv.Namespace_Exists ns key s)
      end
  end.



(** *** Key builders *)

Definition buildKey (t : Tree) (key : bytes) : bytes :=
  match Namespace t with
  | Some ns => kv.BuildKey (kv.ID ns) key
  | None => key
  end.

Definition buildFirstKey (t : Tree) : bytes := buildKey t [].

Definition buildLastKey (t : Tree) : bytes :=
  match Namespace t with
  | Some ns => kv.UpperBound (kv.ID ns)
  | None => [Byte.xff]
  end.

Definition buildStartKeyInclusive (t : Tree) (key : bytes) : bytes := buildKey t key.

Definition buildStartKeyExclusive (t : Tree) (key : bytes) : bytes :=
  buildKey t key ++ [ArrayValueDelim; Byte.xff].

Definition buildEndKeyInclusive (t : Tree) (key : bytes) : bytes :=
  buildKey t key ++ [ArrayValueDelim; Byte.xff].

Definition buildEndKeyExclusive (t : Tree) (key : bytes) : bytes := buildKey t key.

(** *** IterateOnRange *)

(** The byte bounds computed from the range: [start] and [end]. *)
Definition range_start (t : Tree) (rng : Range) : bytes :=
  if negb (Exclusive rng) then
    match Min rng with
    | None => buildFirstKey t
    | Some k => buildStartKeyInclusive t k
    end
  else
    match Min rng with
    | None => buildFirstKey t
    | Some k => buildStartKeyExclusive t k
    end.

Definition range_end (t : Tree) (rng : Range) : bytes :=
  if negb (Exclusive rng) then
    match Max rng with
    | None => buildLastKey t
    | Some k => buildEndKeyInclusive t k
    end
  else
    match Max rng with
    | None => buildLastKey t
    | Some k => buildEndKeyExclusive t k
    end.

(** The callback [fn]: it threads the state [A] of its closure and returns
    an error or nil. *)
Definition Callback (A : Type) : Type := Key -> Document -> A -> A * option error.

(** The loop [for it.Valid() { ... }].  The in-memory engine has no
    iterator error, so [it.Error()] is nil.  [None] means the fuel ran out. *)
Fixpoint iterate_loop {A : Type} (fuel : nat) (reverse : bool) (cdc : Codec)
    (prefix : bytes) (fn : Callback A) (it : Iterator) (a : A)
  : option (A * option error) :=
  match fuel with
  | O => None
  | S fuel' =>
      if it_Valid it then
        let doc := {| codec := cdc; encoded := it_Value it; d := None |} in
        match fn (TrimPrefix (it_Key it) prefix) doc a with
        | (a', Some err) => Some (a', Some err)
        | (a', None) =>
            iterate_loop fuel' reverse cdc prefix fn
              (if negb reverse then it_Next it else it_Prev it) a'
        end
      else Some (a, None)
  end.

Definition IterateOnRange {A : Type} (fuel : nat) (t : Tree) (rng : option Range)
    (reverse : bool) (fn : Callback A) (s : Store) (a : A)
  : option (Outcome (A * option error)) :=
  let rng := match rng with
             | None => {| Min := None; Max := None; Exclusive := false |}
             | Some r => r
             end in
  let start := range_start t rng in
  let end_ := range_end t rng in
  match TransientStore t, Namespace t with
  | None, None => Some (Panics nil_dereference)
  | _, _ =>
      let it := NewIter s start end_ in
      let it := if negb reverse then it_First it else it_Last it in
      let prefix := buildKey t [] in
      option_map Returns (iterate_loop fuel reverse (Codec_ t) prefix fn it a)
  end.

(** The callback that records the keys it is given. *)
Definition record_key : Callback (list Key) :=
  fun k _ acc => (acc ++ [k], None).

End Tree.
End tree.

(** ** Statements *)

Module statement.

(** *** Paths *)

(** Modelled from the spec: [object.Path] is not among the sources.  A path
    is a sequence of steps, each either a field name or an array index;
    [IsEqual] compares two paths step by step and [NewPath] builds the path
    of one field name. *)
Inductive PathFragment : Type :=
| FieldName (name : string)
| ArrayIndex (i : Z).

Definition Path : Type := list PathFragment.

Definition PathFragment_eqb (a b : PathFragment) : bool :=
  match a, b with
  | FieldName x, FieldName y => String.eqb x y
  | ArrayIndex i, ArrayIndex j => Z.eqb i j
  | _, _ => false
  end.

Fixpoint IsEqual (p other : Path) : bool :=
  match p, other with
  | [], [] => true
  | a :: p', b :: other' => PathFragment_eqb a b && IsEqual p' other'
  | _, _ => false
  end.

Definition NewPath (name : string) : Path := [FieldName name].

(** *** Catalog objects *)

Record PrimaryKey : Type := mkPrimaryKey { Paths : list Path }.

Record TableInfo : Type := mkTableInfo {
  TableInfo_TableName : string;
  TableInfo_PrimaryKey : option PrimaryKey;
  RowidSequenceName : string
}.

Definition GetPrimaryKey (ti : TableInfo) : option PrimaryKey := TableInfo_PrimaryKey ti.

Record Table : Type := mkTable { Table_Info : TableInfo }.

Record IndexInfo : Type := mkIndexInfo {
  IndexInfo_IndexName : string;
  Unique : bool
}.

Record Owner : Type := mkOwner { Owner_TableName : string }.

Record SequenceInfo : Type := mkSequenceInfo {
  SequenceInfo_Name : string;
  SequenceInfo_Owner : Owner
}.

Record Sequence : Type := mkSequence { Sequence_Info : SequenceInfo }.

(** The catalog as the statements use it: the lookups of [Tx.Catalog] and
    the mutations of [Tx.CatalogWriter()].  A mutation returns its error (or
    nil) and the transaction state it leaves behind. *)
Class Catalog (Tx : Type) : Type := {
  GetTableInfo : Tx -> string -> TableInfo + error;
  GetTable : Tx -> string -> Table + error;
  ListIndexes : Tx -> string -> list string;
  GetIndexInfo : Tx -> string -> IndexInfo + error;
  GetSequence : Tx -> string -> Sequence + error;
  DropTable : string -> Tx -> option error * Tx;
  DropIndex : string -> Tx -> option error * Tx;
  DropSequence : string -> Tx -> option error * Tx
}.

(** *** Streams *)

Section Streams.

Context {Expr : Type}.

(** The operators of a stream.  [table_Scan] is the sequential scan,
    [rows_*], [path_*], [table_*] and [index_*] are the operators of the
    packages of the same name. *)
#[warnings="-register-all"] Inductive Operator : Type :=
| table_Scan (tableName : string)
| rows_Filter (e : Expr)
| rows_TempTreeSort (e : Expr) (reverse : bool)
| rows_Skip (n : Z)
| rows_Take (n : Z)
| rows_Emit (exprs : list Expr)
| rows_Project (exprs : list Expr)
| path_Set (p : Path) (e : Expr)
| path_Unset (name : string)
| path_PathsRename (names : list string)
| table_Validate (tableName : string)
| table_Insert (tableName : string)
| table_Replace (tableName : string)
| table_Delete (tableName : string)
| index_Insert (indexName : string)
| index_Delete (indexName : string)
| index_Validate (indexName : string)
| stream_OnConflict (onConflict : option (list Operator))
| stream_Discard.

(** A stream is the list of its operators, source first. *)
Definition Stream : Type := list Operator.

Definition stream_New (op : Operator) : Stream := [op].

Definition Pipe (s : Stream) (op : Operator) : Stream := s ++ [op].

Record StreamStmt : Type := mkStreamStmt {
  StreamStmt_Stream : Stream;
  ReadOnly : bool
}.

(** *** UPDATE *)

Record UpdateSetPair : Type := mkUpdateSetPair {
  UpdateSetPair_Path : Path;
  E : Expr
}.

(** [None] is a nil slice or a nil expression. *)
Record UpdateStmt : Type := mkUpdateStmt {
  UpdateStmt_TableName : string;
  SetPairs : option (list UpdateSetPair);
  UnsetFields : option (list string);
  UpdateStmt_WhereExpr : option Expr
}.

(** The inner loop over [pk.Paths]. *)
Definition pk_has_path (pk : option PrimaryKey) (path : Path) : bool :=
  match pk with
  | Some pk' => existsb (fun p => IsEqual p path) (Paths pk')
  | None => false
  end.

(** The loop over [stmt.SetPairs]. *)
Fixpoint set_loop (pk : option PrimaryKey) (pairs : list UpdateSetPair)
    (s : Stream) (pkModified : bool) : Stream * bool :=
  match pairs with
  | [] => (s, pkModified)
  | sp :: pairs' =>
      let pkModified' :=
        if negb pkModified then pk_has_path pk (UpdateSetPair_Path sp)
        else pkModified in
      set_loop pk pairs' (Pipe s (path_Set (UpdateSetPair_Path sp) (E sp))) pkModified'
  end.

(** The loop over [stmt.UnsetFields]. *)
Fixpoint unset_loop (pk : option PrimaryKey) (names : list string) (s : Stream)
  : Stream + error :=
  match names with
  | [] => inl s
  | name :: names' =>
      if pk_has_path pk (NewPath name)
      then inr (ErrMsg "cannot unset primary key path")
      else unset_loop pk names' (Pipe s (path_Unset name))
  end.

(** The first loop over [indexNames]. *)
Fixpoint index_delete_loop (indexNames : list string) (s : Stream) : Stream :=
  match indexNames with
  | [] => s
  | indexName :: rest => index_delete_loop rest (Pipe s (index_Delete indexName))
  end.

Section WithCatalog.

Context {Tx : Type} {catalog : Catalog Tx}.

(** The second loop over [indexNames]. *)
Fixpoint index_insert_loop (tx : Tx) (indexNames : list string) (s : Stream)
  : Stream + error :=
  match indexNames with
  | [] => inl s
  | indexName :: rest =>
      match GetIndexInfo tx indexName with
      | inr err => inr err
      | inl info =>
          let s := if Unique info then Pipe s (index_Validate indexName) else s in
          index_insert_loop tx rest (Pipe s (index_Insert indexName))
      end
  end.

(** [StreamStmt.Prepare] is not among the sources; [UpdateStmt.Prepare]
    hands it the stream it built. *)
Context {Statement : Type}.
Variable StreamStmt_Prepare : StreamStmt -> Tx -> Statement + error.

(** The stream [UpdateStmt.Prepare] builds, or the error it returns before
    the stream is complete. *)
Definition UpdateStmt_build (stmt : UpdateStmt) (c : Tx) : Stream + error :=
  match GetTableInfo c (UpdateStmt_TableName stmt) with
  | inr err => inr err
  | inl ti =>
      let pk := GetPrimaryKey ti in
      let s := stream_New (table_Scan (UpdateStmt_TableName stmt)) in
      let s := match UpdateStmt_WhereExpr stmt with
               | Some e => Pipe s (rows_Filter e)
               | None => s
               end in
      let after_paths : (Stream * bool) + error :=
        match SetPairs stmt with
        | Some pairs => inl (set_loop pk pairs s false)
        | None =>
            match UnsetFields stmt with
            | Some names =>
                match unset_loop pk names s with
                | inr err => inr err
                | inl s' => inl (s', false)
                end
            | None => inl (s, false)
            end
        end in
      match after_paths with
      | inr err => inr err
      | inl (s, pkModified) =>
          let s := Pipe s (table_Validate (UpdateStmt_TableName stmt)) in
          let indexNames := ListIndexes c (UpdateStmt_TableName stmt) in
          let s := index_delete_loop indexNames s in
          let s := if pkModified
                   then Pipe (Pipe s (table_Delete (UpdateStmt_TableName stmt)))
                             (table_Insert (UpdateStmt_TableName stmt))
                   else Pipe s (table_Replace (UpdateStmt_TableName stmt)) in
          match index_insert_loop c indexNames s with
          | inr err => inr err
          | inl s => inl (Pipe s stream_Discard)
          end
      end
  end.

Definition UpdateStmt_Prepare (stmt : UpdateStmt) (c : Tx) : Statement + error :=
  match UpdateStmt_build stmt c with
  | inr err => inr err
  | inl s => StreamStmt_Prepare {| StreamStmt_Stream := s; ReadOnly := false |} c
  end.

(** *** INSERT *)

Inductive OnConflictAction : Type :=
| OnConflictDoNothing
| OnConflictDoReplace.

Inductive InsertSource : Type :=
| InsertValues (values : list Expr)
| InsertSelect (selectStream : Stream).

Record InsertStmt : Type := mkInsertStmt {
  InsertStmt_TableName : string;
  Fields : list string;
  Source : InsertSource;
  OnConflict : option OnConflictAction;
  Returning : option (list Expr)
}.

(** Modelled from the spec: the operator that an ON CONFLICT action
    compiles to is not among the sources.  DO NOTHING and IGNORE give
    [OnConflict(nil)], DO REPLACE and REPLACE give
    [OnConflict(Stream(TableReplace(T)))]. *)
Definition onConflictOperator (tableName : string) (action : OnConflictAction) : Operator :=
  match action with
  | OnConflictDoNothing => stream_OnConflict None
  | OnConflictDoReplace => stream_OnConflict (Some (stream_New (table_Replace tableName)))
  end.

Section Insert.

(** Modelled from the spec: the expressions are not among the sources.
    [IsWildcard] tells the expression [*], the [expr.Wildcard] of the
    tests. *)
Variable IsWildcard : Expr -> bool.

(** Modelled from the spec: a projection on the wildcard alone, as in
    [RETURNING *]. *)
Definition wildcard_only (exprs : list Expr) : bool :=
  match exprs with
  | [e] => IsWildcard e
  | _ => false
  end.

(** Modelled from the spec: [InsertStmt.Prepare] is not among the sources.
    The row source is [Emit(values...)] or the stream of the SELECT; then
    [PathsRename] when target columns were named and the source is a
    SELECT; [TableValidate]; the [OnConflict] operator when the clause is
    present; [TableInsert]; for every index [IndexValidate] if it is unique
    and [IndexInsert]; and [Project] when RETURNING is present, [Discard]
    otherwise.  The prepared streams of [TestParserInsert] have no
    [Project] for [RETURNING *]: they end at [TableInsert], while
    [RETURNING *, a, b as B, c] and [RETURNING a] are projected; so a
    projection on the wildcard alone adds no operator. *)
Definition InsertStmt_build (stmt : InsertStmt) (c : Tx) : Stream + error :=
  let tableName := InsertStmt_TableName stmt in
  let s := match Source stmt with
           | InsertValues values => stream_New (rows_Emit values)
           | InsertSelect selectStream => selectStream
           end in
  let s := match Source stmt, Fields stmt with
           | InsertSelect _, _ :: _ => Pipe s (path_PathsRename (Fields stmt))
           | _, _ => s
           end in
  let s := Pipe s (table_Validate tableName) in
  let s := match OnConflict stmt with
           | Some action => Pipe s (onConflictOperator tableName action)
           | None => s
           end in
  let s := Pipe s (table_Insert tableName) in
  match index_insert_loop c (ListIndexes c tableName) s with
  | inr err => inr err
  | inl s =>
      inl (match Returning stmt with
           | Some exprs => if wildcard_only exprs then s else Pipe s (rows_Project exprs)
           | None => Pipe s stream_Discard
           end)
  end.

End Insert.

(** *** DELETE *)

Record DeleteStmt : Type := mkDeleteStmt {
  DeleteStmt_TableName : string;
  DeleteStmt_WhereExpr : option Expr;
  OrderBy : option Expr;
  OrderByReverse : bool;
  OffsetExpr : option Z;
  LimitExpr : option Z
}.

(** Modelled from the spec: [DeleteStmt.Prepare] is not among the sources.
    The stream is [SeqScan(T)], then [Filter], [TempTreeSort], [Skip] and
    [Take] for the clauses that are present, in this order, then
    [TableDelete(T)]. *)
Definition DeleteStmt_build (stmt : DeleteStmt) : Stream :=
  let s := stream_New (table_Scan (DeleteStmt_TableName stmt)) in
  let s := match DeleteStmt_WhereExpr stmt with
           | Some e => Pipe s (rows_Filter e)
           | None => s
           end in
  let s := match OrderBy stmt with
           | Some e => Pipe s (rows_TempTreeSort e (OrderByReverse stmt))
           | None => s
           end in
  let s := match OffsetExpr stmt with
           | Some n => Pipe s (rows_Skip n)
           | None => s
           end in
  let s := match LimitExpr stmt with
           | Some n => Pipe s (rows_Take n)
           | None => s
           end in
  Pipe s (table_Delete (DeleteStmt_TableName stmt)).

End WithCatalog.
End Streams.

(** *** The ON CONFLICT clause *)

Inductive Token : Type :=
| DO
| NOTHING
| IGNORE
| REPLACE
| IDENT (lit : string).

(** Modelled from the spec: the parser is not among the sources.  After
    [ON CONFLICT] the parser accepts DO NOTHING, IGNORE, DO REPLACE and
    REPLACE; anything else is a parse error.  The tokens that follow the
    action are returned with it. *)
Definition parseOnConflict (tokens : list Token) : (OnConflictAction * list Token) + error :=
  match tokens with
  | DO :: NOTHING :: rest => inl (OnConflictDoNothing, rest)
  | IGNORE :: rest => inl (OnConflictDoNothing, rest)
  | DO :: REPLACE :: rest => inl (OnConflictDoReplace, rest)
  | REPLACE :: rest => inl (OnConflictDoReplace, rest)
  | _ => inr (ParseError "ON CONFLICT")
  end.

(** *** DROP *)

Record Result : Type := mkResult { }.

Record DropTableStmt : Type := mkDropTableStmt {
  DropTableStmt_TableName : string;
  DropTableStmt_IfExists : bool
}.

Record DropIndexStmt : Type := mkDropIndexStmt {
  IndexName : string;
  DropIndexStmt_IfExists : bool
}.

Record DropSequenceStmt : Type := mkDropSequenceStmt {
  SequenceName : string;
  DropSequenceStmt_IfExists : bool
}.

Section Drop.

Context {Tx : Type} {catalog : Catalog Tx}.

(** [Run] returns [(res, err)] and leaves the transaction in a new state. *)
Definition DropTableStmt_Run (stmt : DropTableStmt) (tx : Tx) : (Result * option error) * Tx :=
  let res := mkResult in
  if String.eqb (DropTableStmt_TableName stmt) "" then
    ((res, Some (ErrMsg "missing table name")), tx)
  else
    match GetTable tx (DropTableStmt_TableName stmt) with
    | inr err =>
        let err := if IsNotFoundError err && DropTableStmt_IfExists stmt
                   then None else Some err in
        ((res, err), tx)
    | inl tb =>
        match DropTable (DropTableStmt_TableName stmt) tx with
        | (Some err, tx) => ((res, Some err), tx)
        | (None, tx) =>
            match TableInfo_PrimaryKey (Table_Info tb) with
            | None =>
                match DropSequence (RowidSequenceName (Table_Info tb)) tx with
                | (Some err, tx) => ((res, Some err), tx)
                | (None, tx) => ((res, None), tx)
                end
            | Some _ => ((res, None), tx)
            end
        end
    end.

Definition DropIndexStmt_Run (stmt : DropIndexStmt) (tx : Tx) : (Result * option error) * Tx :=
  let res := mkResult in
  if String.eqb (IndexName stmt) "" then
    ((res, Some (ErrMsg "missing index name")), tx)
  else
    match DropIndex (IndexName stmt) tx with
    | (Some err, tx) =>
        let err := if IsNotFoundError err && DropIndexStmt_IfExists stmt
                   then None else Some err in
        ((res, err), tx)
    | (None, tx) => ((res, None), tx)
    end.

Definition cannot_drop_sequence (name tableName : string) : string :=
  String.append "cannot drop sequence "
    (String.append name
       (String.append " because constraint of table "
          (String.append tableName " requires it"))).

Definition DropSequenceStmt_Run (stmt : DropSequenceStmt) (tx : Tx) : (Result * option error) * Tx :=
  let res := mkResult in
  if String.eqb (SequenceName stmt) "" then
    ((res, Some (ErrMsg "missing index name")), tx)
  else
    match GetSequence tx (SequenceName stmt) with
    | inr err =>
        let err := if IsNotFoundError err && DropSequenceStmt_IfExists stmt
                   then None else Some err in
        ((res, err), tx)
    | inl seq =>
        if negb (String.eqb (Owner_TableName (SequenceInfo_Owner (Sequence_Info seq))) "") then
          ((res, Some (ErrMsg (cannot_drop_sequence
                                 (SequenceInfo_Name (Sequence_Info seq))
                                 (Owner_TableName (SequenceInfo_Owner (Sequence_Info seq)))))), tx)
        else
          match DropSequence (SequenceName stmt) tx with
          | (Some err, tx) =>
              let err := if IsNotFoundError err && DropSequenceStmt_IfExists stmt
                         then None else Some err in
              ((res, err), tx)
          | (None, tx) => ((res, None), tx)
          end
    end.

End Drop.
End statement.

(** ** The range semantics, as the specification words it *)

Module range_spec.
Import kv tree.

Section Spec.

Variable ArrayValueDelim : byte.

(** The lower byte bound (inclusive): an unset min starts at the first key
    of the namespace, an inclusive min [k] at [P ++ k], an exclusive min
    [k] at [P ++ k ++ [D; 0xFF]]. *)
Definition lower_bound (ns : kv.Namespace) (min : option Key) (exclusive : bool) : bytes :=
  match min with
  | None => id_prefix (ID ns)
  | Some k =>
      if exclusive then id_prefix (ID ns) ++ k ++ [ArrayValueDelim; Byte.xff]
      else id_prefix (ID ns) ++ k
  end.

(** The upper byte bound (exclusive): an unset max ends at the namespace's
    [UpperBound], an inclusive max [k] at [P ++ k ++ [D; 0xFF]], an
    exclusive max [k] at [P ++ k]. *)
Definition upper_bound (ns : kv.Namespace) (max : option Key) (exclusive : bool) : bytes :=
  match max with
  | None => UpperBound (ID ns)
  | Some k =>
      if exclusive then id_prefix (ID ns) ++ k
      else id_prefix (ID ns) ++ k ++ [ArrayValueDelim; Byte.xff]
  end.

(** The semantic predicate of a range on a logical key [x]. *)
Definition in_range (ns : kv.Namespace) (min max : option Key) (exclusive : bool) (x : Key) : Prop :=
  bytes_leb (lower_bound ns min exclusive) (id_prefix (ID ns) ++ x) = true /\
  bytes_ltb (id_prefix (ID ns) ++ x) (upper_bound ns max exclusive) = true.

(** [x] is [k] or a key that extends [k]: [k], the delimiter, and more
    elements, the first of which does not start with a raw [0xFF]. *)
Definition extends (k x : Key) : Prop :=
  x = k \/ exists rest, x = k ++ ArrayValueDelim :: rest /\ hd_error rest <> Some Byte.xff.

End Spec.

(** The 64-bit signed integers. *)
Definition i64 (a : Z) : Prop := - 2 ^ 63 <= a < 2 ^ 63.

(** The key of an entry of an index on [(a, b)]: the encoded columns with
    the delimiter between them, followed by what the index appends (the
    delimiter and the primary key of the row). *)
Definition index_entry (D : byte) (enc : Z -> bytes) (a b : Z) (tail : bytes) : Key :=
  enc a ++ D :: enc b ++ tail.

(** The logical key [x] is stored in the namespace. *)
Definition stored (ns : kv.Namespace) (s : Store) (x : Key) : Prop :=
  exists v, In (BuildKey (ID ns) x, v) s.

(** Applying a callback to a list of entries in order, stopping at the
    first error. *)
Fixpoint call_each {Doc A : Type} (cdc : @Codec Doc) (fn : Callback A)
    (l : list (Key * bytes)) (a : A) : A * option error :=
  match l with
  | [] => (a, None)
  | (k, v) :: l' =>
      match fn k {| codec := cdc; encoded := v; d := None |} a with
      | (a', Some err) => (a', Some err)
      | (a', None) => call_each cdc fn l' a'
      end
  end.

(** The entries as a callback sees them: keys without the prefix. *)
Definition trim_entries (prefix : bytes) (l : list (bytes * bytes)) : list (Key * bytes) :=
  map (fun kv => (TrimPrefix (fst kv) prefix, snd kv)) l.

(** The entries of the store an iteration exposes, in iteration order. *)
Definition exposed (start end_ : bytes) (reverse : bool) (s : Store) : list (bytes * bytes) :=
  let view := List.filter (fun kv => in_bounds start end_ (fst kv)) s in
  if reverse then rev view else view.

End range_spec.

(** ** Instances used to exercise the statements *)

Module instances.
Import kv tree statement.

(** A codec whose documents are their encoded bytes. *)
Definition raw_codec : @Codec bytes :=
  {| Encode := fun d => inl d; Decode := fun b => inl b |}.

(** A namespace whose prefix is the byte 0x01; [UpperBound] is 0x02. *)
Definition ns1 : kv.Namespace := {| ID := {| id_prefix := [Byte.x01]; id_upper := [Byte.x02] |} |}.

Definition delim : byte := Byte.x1f.

(** An order-preserving integer encoding in the shape the spec gives: one
    tag byte followed by the 8 bytes, most significant first, of the
    value with its sign bit flipped. *)
Definition byte_of_Z (z : Z) : byte :=
  match Byte.of_N (Z.to_N (z mod 256)) with
  | Some b => b
  | None => Byte.x00
  end.

Definition encodeInt64 (v : Z) : bytes :=
  let u := (v + 2 ^ 63) mod 2 ^ 64 in
  [Byte.x30;
   byte_of_Z (u / 2 ^ 56); byte_of_Z (u / 2 ^ 48); byte_of_Z (u / 2 ^ 40);
   byte_of_Z (u / 2 ^ 32); byte_of_Z (u / 2 ^ 24); byte_of_Z (u / 2 ^ 16);
   byte_of_Z (u / 2 ^ 8); byte_of_Z u].

(** A store with three keys of [ns1]: [05], [05 1f 07] and [06]. *)
Definition store0 : Store :=
  [([Byte.x01; Byte.x05], [Byte.x00]);
   ([Byte.x01; Byte.x05; Byte.x1f; Byte.x07], [Byte.x00]);
   ([Byte.x01; Byte.x06], [Byte.x00])].

(** The index entries of the rows [{a: 1, b: 1}], [{a: 1, b: MAX_I64}] and
    [{a: 2, b: 2}] on an index on [(a, b)]. *)
Definition MAX_I64 : Z := 9223372036854775807.

Definition index_store : Store :=
  map (fun ab => (BuildKey (ID ns1) (range_spec.index_entry delim encodeInt64 (fst ab) (snd ab) []),
                  [Byte.x00]))
      [(1, 1); (1, MAX_I64); (2, 2)].

(** Modelled from the spec: the catalog is not among the sources.  An
    in-memory catalog: tables and sequences by name, indexes in catalog
    order with the table they belong to.  A lookup of a missing name is a
    NotFound error; dropping removes the entry (and, for a table, its
    indexes). *)
Record MemTx : Type := mkMemTx {
  tables : gmap string TableInfo;
  indexes : list (string * IndexInfo);
  sequences : gmap string SequenceInfo
}.

Definition mem_GetTableInfo (tx : MemTx) (name : string) : TableInfo + error :=
  match tables tx !! name with
  | Some ti => inl ti
  | None => inr (NotFoundError name)
  end.

Definition mem_GetTable (tx : MemTx) (name : string) : Table + error :=
  match mem_GetTableInfo tx name with
  | inl ti => inl {| Table_Info := ti |}
  | inr err => inr err
  end.

Definition mem_ListIndexes (tx : MemTx) (tableName : string) : list string :=
  map (fun e => IndexInfo_IndexName (snd e))
      (List.filter (fun e => String.eqb (fst e) tableName) (indexes tx)).

Definition mem_GetIndexInfo (tx : MemTx) (name : string) : IndexInfo + error :=
  match find (fun e => String.eqb (IndexInfo_IndexName (snd e)) name) (indexes tx) with
  | Some e => inl (snd e)
  | None => inr (NotFoundError name)
  end.

Definition mem_GetSequence (tx : MemTx) (name : string) : Sequence + error :=
  match sequences tx !! name with
  | Some si => inl {| Sequence_Info := si |}
  | None => inr (NotFoundError name)
  end.

Definition mem_DropTable (name : string) (tx : MemTx) : option error * MemTx :=
  match tables tx !! name with
  | Some _ =>
      (None, {| tables := delete name (tables tx);
                indexes := List.filter (fun e => negb (String.eqb (fst e) name)) (indexes tx);
                sequences := sequences tx |})
  | None => (Some (NotFoundError name), tx)
  end.

Definition mem_DropIndex (name : string) (tx : MemTx) : option error * MemTx :=
  match mem_GetIndexInfo tx name with
  | inl _ =>
      (None, {| tables := tables tx;
                indexes := List.filter
                             (fun e => negb (String.eqb (IndexInfo_IndexName (snd e)) name))
                             (indexes tx);
                sequences := sequences tx |})
  | inr err => (Some err, tx)
  end.

Definition mem_DropSequence (name : string) (tx : MemTx) : option error * MemTx :=
  match sequences tx !! name with
  | Some _ =>
      (None, {| tables := tables tx; indexes := indexes tx;
                sequences := delete name (sequences tx) |})
  | None => (Some (NotFoundError name), tx)
  end.

#[export] Instance mem_catalog : Catalog MemTx := {|
  GetTableInfo := mem_GetTableInfo;
  GetTable := mem_GetTable;
  ListIndexes := mem_ListIndexes;
  GetIndexInfo := mem_GetIndexInfo;
  GetSequence := mem_GetSequence;
  DropTable := mem_DropTable;
  DropIndex := mem_DropIndex;
  DropSequence := mem_DropSequence
|}.


(** A catalog with the table [test], whose primary key is [(a, b)] and
    which has a unique and a non-unique index, the table [logs] without a
    primary key, its rowid sequence and a sequence nobody owns. *)
Definition test_info : TableInfo :=
  {| TableInfo_TableName := "test";
     TableInfo_PrimaryKey := Some {| Paths := [[FieldName "a"]; [FieldName "b"]] |};
     RowidSequenceName := "" |}.

Definition logs_info : TableInfo :=
  {| TableInfo_TableName := "logs";
     TableInfo_PrimaryKey := None;
     RowidSequenceName := "logs_seq" |}.

Definition test_indexes : list IndexInfo :=
  [{| IndexInfo_IndexName := "idx_test_a"; Unique := true |};
   {| IndexInfo_IndexName := "idx_test_c"; Unique := false |}].

Definition tx0 : MemTx :=
  {| tables := <["test" := test_info]> (<["logs" := logs_info]> ∅);
     indexes := map (fun info => ("test"%string, info)) test_indexes;
     sequences :=
       <["logs_seq" := {| SequenceInfo_Name := "logs_seq";
                          SequenceInfo_Owner := {| Owner_TableName := "logs" |} |}]>
         (<["counter" := {| SequenceInfo_Name := "counter";
                            SequenceInfo_Owner := {| Owner_TableName := "" |} |}]> ∅) |}.

(** Expressions by their text; the prepared statement is the stream
    statement itself. *)
Definition text_Prepare (st : @StreamStmt string) (c : MemTx) : @StreamStmt string + error :=
  inl st.

(** [UPDATE test SET a = 2, b = 20 WHERE a = 1] and
    [UPDATE test UNSET b WHERE a = 1], on the table [test] whose primary
    key is [(a, b)]. *)
Definition update_set_pk : @UpdateStmt string :=
  {| UpdateStmt_TableName := "test";
     SetPairs := Some [ {| UpdateSetPair_Path := [FieldName "a"]; E := "2"%string |};
                        {| UpdateSetPair_Path := [FieldName "b"]; E := "20"%string |} ];
     UnsetFields := None;
     UpdateStmt_WhereExpr := Some "a = 1"%string |}.

Definition update_unset_b : @UpdateStmt string :=
  {| UpdateStmt_TableName := "test";
     SetPairs := None;
     UnsetFields := Some ["b"%string];
     UpdateStmt_WhereExpr := Some "a = 1"%string |}.

(** [INSERT INTO logs (a, b) SELECT c, d FROM foo ON CONFLICT DO NOTHING
    RETURNING a]. *)
Definition insert_select_on_conflict : @InsertStmt string :=
  {| InsertStmt_TableName := "logs";
     Fields := ["a"%string; "b"%string];
     Source := InsertSelect [table_Scan "foo"; rows_Project ["c"%string; "d"%string]];
     OnConflict := Some OnConflictDoNothing;
     Returning := Some ["a"%string] |}.

(** The wildcard, for expressions by their text. *)
Definition is_wildcard (e : string) : bool := String.eqb e "*".

(** The catalog of [TestParserInsert]: the tables [test] and [foo], made
    by [CREATE TABLE test; CREATE TABLE foo;], without an index. *)
Definition tx_parser : MemTx :=
  {| tables :=
       <["test" := {| TableInfo_TableName := "test"; TableInfo_PrimaryKey := None;
                      RowidSequenceName := "test_seq" |}]>
         (<["foo" := {| TableInfo_TableName := "foo"; TableInfo_PrimaryKey := None;
                        RowidSequenceName := "foo_seq" |}]> ∅);
     indexes := [];
     sequences :=
       <["test_seq" := {| SequenceInfo_Name := "test_seq";
                          SequenceInfo_Owner := {| Owner_TableName := "test" |} |}]>
         (<["foo_seq" := {| SequenceInfo_Name := "foo_seq";
                            SequenceInfo_Owner := {| Owner_TableName := "foo" |} |}]> ∅) |}.

(** [INSERT INTO test (a, b) VALUES ('c', 'd') ON CONFLICT ... RETURNING *],
    the action being the one the parser read. *)
Definition insert_values_on_conflict (action : OnConflictAction) : @InsertStmt string :=
  {| InsertStmt_TableName := "test";
     Fields := ["a"%string; "b"%string];
     Source := InsertValues ["{a: 'c', b: 'd'}"%string];
     OnConflict := Some action;
     Returning := Some ["*"%string] |}.

(** [INSERT INTO test (a, b) VALUES ('c', 'd') RETURNING *, a, b as B, c]. *)
Definition insert_values_returning : @InsertStmt string :=
  {| InsertStmt_TableName := "test";
     Fields := ["a"%string; "b"%string];
     Source := InsertValues ["{a: 'c', b: 'd'}"%string];
     OnConflict := None;
     Returning := Some ["*"%string; "a"%string; "b as B"%string; "c"%string] |}.

(** [INSERT INTO test (a, b) VALUES ('c', 'd')]. *)
Definition insert_values : @InsertStmt string :=
  {| InsertStmt_TableName := "test";
     Fields := ["a"%string; "b"%string];
     Source := InsertValues ["{a: 'c', b: 'd'}"%string];
     OnConflict := None;
     Returning := None |}.

(** [DELETE FROM test WHERE age = 10 ORDER BY age LIMIT 10 OFFSET 20]. *)
Definition delete_all_clauses : @DeleteStmt string :=
  {| DeleteStmt_TableName := "test";
     DeleteStmt_WhereExpr := Some "age = 10"%string;
     OrderBy := Some "age"%string;
     OrderByReverse := false;
     OffsetExpr := Some 20;
     LimitExpr := Some 10 |}.

End instances.

(** ** The streams, as the specification words them *)

Module stream_spec.
Import statement.

Section Spec.

Context {Expr : Type}.

(** The operator of an optional clause. *)
Definition optional {X : Type} (clause : option X) (op : X -> @Operator Expr) : @Stream Expr :=
  match clause with
  | Some x => [op x]
  | None => []
  end.

(** One [PathSet] per SET pair, or one [PathUnset] per UNSET field. *)
Definition path_operators (stmt : @UpdateStmt Expr) : @Stream Expr :=
  match SetPairs stmt with
  | Some pairs => map (fun sp => path_Set (UpdateSetPair_Path sp) (E sp)) pairs
  | None =>
      match UnsetFields stmt with
      | Some names => map path_Unset names
      | None => []
      end
  end.

(** Some SET pair's path is one of the primary-key paths. *)
Definition sets_primary_key (pk : option PrimaryKey) (stmt : @UpdateStmt Expr) : Prop :=
  exists pairs pk' sp,
    SetPairs stmt = Some pairs /\ pk = Some pk' /\
    In sp pairs /\ In (UpdateSetPair_Path sp) (Paths pk').

(** [IndexValidate] for a unique index, then [IndexInsert], per index. *)
Definition index_operators (indexes : list IndexInfo) : @Stream Expr :=
  flat_map (fun info =>
              (if Unique info then [index_Validate (IndexInfo_IndexName info)] else [])
              ++ [index_Insert (IndexInfo_IndexName info)]) indexes.

(** The stream of an UPDATE on a table with the given indexes;
    [pkModified] tells whether a SET pair touches the primary key. *)
Definition update_stream (stmt : @UpdateStmt Expr) (indexes : list IndexInfo)
    (pkModified : bool) : @Stream Expr :=
  let t := UpdateStmt_TableName stmt in
  [table_Scan t]
  ++ optional (UpdateStmt_WhereExpr stmt) rows_Filter
  ++ path_operators stmt
  ++ [table_Validate t]
  ++ map (fun info => index_Delete (IndexInfo_IndexName info)) indexes
  ++ (if pkModified then [table_Delete t; table_Insert t] else [table_Replace t])
  ++ index_operators indexes
  ++ [stream_Discard].

(** The stream of a DELETE. *)
Definition delete_stream (stmt : @DeleteStmt Expr) : @Stream Expr :=
  let t := DeleteStmt_TableName stmt in
  [table_Scan t]
  ++ optional (DeleteStmt_WhereExpr stmt) rows_Filter
  ++ optional (OrderBy stmt) (fun e => rows_TempTreeSort e (OrderByReverse stmt))
  ++ optional (OffsetExpr stmt) rows_Skip
  ++ optional (LimitExpr stmt) rows_Take
  ++ [table_Delete t].

(** What precedes [TableValidate] in the stream of an INSERT. *)
Definition insert_source (stmt : @InsertStmt Expr) : @Stream Expr :=
  match Source stmt with
  | InsertValues values => [rows_Emit values]
  | InsertSelect selectStream =>
      selectStream ++ match Fields stmt with
                      | [] => []
                      | _ :: _ => [path_PathsRename (Fields stmt)]
                      end
  end.

(** What follows [TableInsert] in the stream of an INSERT: the operators
    of the indexes, then [Discard] without RETURNING, nothing for
    [RETURNING *], and [Project] for any other RETURNING. *)
Definition insert_tail (IsWildcard : Expr -> bool) (stmt : @InsertStmt Expr)
    (indexes : list IndexInfo) : @Stream Expr :=
  index_operators indexes
  ++ match Returning stmt with
     | Some exprs => if wildcard_only IsWildcard exprs then [] else [rows_Project exprs]
     | None => [stream_Discard]
     end.

End Spec.

(** The catalog knows the indexes of the table: their names are the ones
    [ListIndexes] returns, in its order, and [GetIndexInfo] finds each. *)
Definition indexes_of {Tx : Type} {catalog : Catalog Tx} (c : Tx) (tableName : string)
    (indexes : list IndexInfo) : Prop :=
  ListIndexes c tableName = map IndexInfo_IndexName indexes /\
  Forall (fun info => GetIndexInfo c (IndexInfo_IndexName info) = inl info) indexes.

End stream_spec.

(** ** The document of a tree *)

Module tree_document.
Import tree.

Section Document.

Context {Doc : Type}.

(** [Document.decode]: it decodes the bytes once and keeps the result in
    [d.d]; it panics with the error of the codec.  The result is the
    receiver after the call together with its [d.d]; [inr err] is the
    panic with [err]. *)
Definition decode (doc : @Document Doc) : (@Document Doc * Doc) + error :=
  match d doc with
  | Some v => inl (doc, v)
  | None =>
      match Decode (codec doc) (encoded doc) with
      | inl v => inl ({| codec := codec doc; encoded := encoded doc; d := Some v |}, v)
      | inr err => inr err
      end
  end.

(** [Document.Iterate], [Document.GetByField] and [Document.MarshalJSON]:
    decode, then the method [m] of the decoded document. *)
Definition call {R : Type} (m : Doc -> R) (doc : @Document Doc) : (@Document Doc * R) + error :=
  match decode doc with
  | inl (doc', v) => inl (doc', m v)
  | inr err => inr err
  end.

End Document.
End tree_document.

(** ** The order of the keys *)

Module order_spec.

Definition bytes_lt (x y : bytes) : Prop := bytes_ltb x y = true.

(** Each key is below all the keys after it. *)
Definition ascending (l : list bytes) : Prop := StronglySorted bytes_lt l.

(** Each key is above all the keys after it. *)
Definition descending (l : list bytes) : Prop := StronglySorted (fun x y => bytes_lt y x) l.

(** The invariant of the engine: consecutive entries have ascending keys. *)
Definition store_ordered (s : Store) : Prop := Sorted bytes_lt (map fst s).

(** The keys of a store. *)
Definition has_key (s : Store) (k : bytes) : Prop := exists v, In (k, v) s.

End order_spec.

(** A callback that records its keys and stops with an error at [k]. *)
Definition stop_at {Doc : Type} (k : tree.Key) : @tree.Callback Doc (list tree.Key) :=
  fun key _ acc =>
    (acc ++ [key],
     match bytes_compare key k with
     | Eq => Some (ErrMsg "stop")
     | _ => None
     end).

(** ** Value types (package [types]) *)

Module types.

(** [type ValueType uint8] and its constants, numbered by [iota]. *)
Definition ValueType : Type := N.

Definition AnyValue : ValueType := 0%N.
Definition NullValue : ValueType := 1%N.
Definition BooleanValue : ValueType := 2%N.
Definition IntegerValue : ValueType := 3%N.
Definition DoubleValue : ValueType := 4%N.
Definition TimestampValue : ValueType := 5%N.
Definition TextValue : ValueType := 6%N.
Definition BlobValue : ValueType := 7%N.
Definition ArrayValue : ValueType := 8%N.
Definition ObjectValue : ValueType := 9%N.

(** [ValueType.String]: the switch, case by case. *)
Definition String (t : ValueType) : string :=
  if N.eqb t NullValue then "null"
  else if N.eqb t BooleanValue then "boolean"
  else if N.eqb t IntegerValue then "integer"
  else if N.eqb t DoubleValue then "double"
  else if N.eqb t TimestampValue then "timestamp"
  else if N.eqb t BlobValue then "blob"
  else if N.eqb t TextValue then "text"
  else if N.eqb t ArrayValue then "array"
  else if N.eqb t ObjectValue then "object"
  else "any".

Definition IsNumber (t : ValueType) : bool :=
  N.eqb t IntegerValue || N.eqb t DoubleValue.

Definition IsTimestampCompatible (t : ValueType) : bool :=
  N.eqb t TimestampValue || N.eqb t TextValue.

Definition IsAny (t : ValueType) : bool := N.eqb t AnyValue.

End types.

(** ** Matchers (package [q]) *)

Module q.

(** [type Field string] and [Field.Name]. *)
Definition Field : Type := string.

Definition Name (f : Field) : string := f.

(** [bytes.Equal]. *)
Definition bytes_Equal (a b : bytes) : bool :=
  match bytes_compare a b with
  | Eq => true
  | _ => false
  end.

(** [field.Field]: the fields the matchers read. *)
Record field_Field : Type := mkField {
  Type_ : N;
  Data : bytes
}.

(** [record.Record]: its method [Field]. *)
Definition Record_ : Type := string -> field_Field + error.

Record Matcher : Type := mkMatcher {
  fn : Record_ -> bool * option error
}.

Definition Match (m : Matcher) (r : Record_) : bool * option error := fn m r.

Section Q.

(** Package [field] is not among the sources: the type tag [field.Int64]
    and the codec of 64-bit integers are parameters.  [int] is taken to be
    64 bits wide, so that [int(v)] and [int64(i)] change nothing. *)
Variable field_Int64 : N.
Variable DecodeInt64 : bytes -> Z + error.
Variable EncodeInt64 : Z -> bytes.

Definition compareInts (f : Field) (i : Z) (op : Z -> Z -> bool) (r : Record_)
  : bool * option error :=
  match r (Name f) with
  | inr err => (false, Some err)
  | inl rf =>
      if negb (N.eqb (Type_ rf) field_Int64) then (false, Some (ErrMsg "type mismatch"))
      else
        match DecodeInt64 (Data rf) with
        | inr err => (false, Some err)
        | inl v => (op v i, None)
        end
  end.

Definition GteInt (f : Field) (i : Z) : Matcher :=
  {| fn := compareInts f i (fun a b => Z.geb a b) |}.

Definition LtInt (f : Field) (i : Z) : Matcher :=
  {| fn := compareInts f i (fun a b => Z.ltb a b) |}.

Definition LteInt (f : Field) (i : Z) : Matcher :=
  {| fn := compareInts f i (fun a b => Z.leb a b) |}.

(** Package [index] is not among the sources: a cursor is a state with its
    methods [Seek] and [Next], which return a rowid (nil at the end), a
    value, and the cursor they leave; an index is the cursor [Cursor()]
    returns. *)
Context {Cur : Type}.
Variable Seek : bytes -> Cur -> (option bytes * bytes) * Cur.
Variable Next : Cur -> (option bytes * bytes) * Cur.

Record IndexMatcher : Type := mkIndexMatcher {
  IndexMatcher_Matcher : Matcher;
  index_fn : nat -> gmap string Cur -> option (Outcome (list (option bytes) * option error))
}.

(** [MatchIndex]; the first argument is the fuel of the loop, [None] means
    that it ran out. *)
Definition MatchIndex (m : IndexMatcher) (fuel : nat) (im : gmap string Cur)
  : option (Outcome (list (option bytes) * option error)) :=
  index_fn m fuel im.

(** The loop of [GtInt]: [for rowid != nil { rowid, _ = c.Next(); rowids =
    append(rowids, rowid) }]. *)
Fixpoint GtInt_loop (fuel : nat) (c : Cur) (rowid : option bytes)
    (rowids : list (option bytes)) : option (list (option bytes)) :=
  match fuel with
  | O => None
  | S fuel' =>
      match rowid with
      | None => Some rowids
      | Some _ =>
          let '((rowid', _), c') := Next c in
          GtInt_loop fuel' c' rowid' (rowids ++ [rowid'])
      end
  end.

Definition GtInt (f : Field) (i : Z) : IndexMatcher :=
  let data := EncodeInt64 i in
  {| IndexMatcher_Matcher := {| fn := compareInts f i (fun a b => Z.gtb a b) |};
     index_fn := fun fuel im =>
       match im !! Name f with
       | None => Some (Panics "invalid memory address or nil pointer dereference")
       | Some c =>
           let '((rowid, _), c) := Seek data c in
           option_map (fun rowids => Returns (rowids, None)) (GtInt_loop fuel c rowid [])
       end |}.

(** The loop of [EqInt]: [for rowid != nil && bytes.Equal(data, v) {
    rowids = append(rowids, rowid); rowid, v = c.Next() }]. *)
Fixpoint EqInt_loop (fuel : nat) (data : bytes) (c : Cur) (rowid : option bytes) (v : bytes)
    (rowids : list (option bytes)) : option (list (option bytes)) :=
  match fuel with
  | O => None
  | S fuel' =>
      match rowid with
      | Some _ =>
          if bytes_Equal data v then
            let '((rowid', v'), c') := Next c in
            EqInt_loop fuel' data c' rowid' v' (rowids ++ [rowid])
          else Some rowids
      | None => Some rowids
      end
  end.

Definition EqInt (f : Field) (i : Z) : IndexMatcher :=
  let data := EncodeInt64 i in
  {| IndexMatcher_Matcher := {| fn := compareInts f i (fun a b => Z.eqb a b) |};
     index_fn := fun fuel im =>
       match im !! Name f with
       | None => Some (Panics "invalid memory address or nil pointer dereference")
       | Some c =>
           let '((rowid, v), c) := Seek data c in
           option_map (fun rowids => Returns (rowids, None)) (EqInt_loop fuel data c rowid v [])
       end |}.

(** The entries a cursor still has: [Next] returns them one by one, then a
    nil rowid. *)
Inductive Plays : Cur -> list (bytes * bytes) -> Prop :=
| Plays_end (c c' : Cur) (v : bytes) :
    Next c = ((None, v), c') -> Plays c []
| Plays_next (c c' : Cur) (r v : bytes) (es : list (bytes * bytes)) :
    Next c = ((Some r, v), c') -> Plays c' es -> Plays c ((r, v) :: es).

End Q.

(** The entries at the head of a list whose value is [data]. *)
Fixpoint matching_run (data : bytes) (es : list (bytes * bytes)) : list (bytes * bytes) :=
  match es with
  | [] => []
  | (r, v) :: es' => if bytes_Equal data v then (r, v) :: matching_run data es' else []
  end.

(** A cursor over a list of entries in the order of their values: [Seek]
    moves to the first entry whose value is not below the one sought. *)
Definition list_Seek (data : bytes) (c : list (bytes * bytes))
  : (option bytes * bytes) * list (bytes * bytes) :=
  match List.filter (fun e => bytes_leb data (snd e)) c with
  | [] => ((None, []), [])
  | (r, v) :: rest => ((Some r, v), rest)
  end.

Definition list_Next (c : list (bytes * bytes))
  : (option bytes * bytes) * list (bytes * bytes) :=
  match c with
  | [] => ((None, []), [])
  | (r, v) :: rest => ((Some r, v), rest)
  end.

End q.

(** An index on the field [age] with the values 5, 7, 7 and 9. *)
Module q_instances.
Import q instances.

Definition age_index : list (bytes * bytes) :=
  [([Byte.x0a], encodeInt64 5); ([Byte.x0b], encodeInt64 7);
   ([Byte.x0c], encodeInt64 7); ([Byte.x0d], encodeInt64 9)].

Definition indexes0 : gmap string (list (bytes * bytes)) := {[ "age"%string := age_index ]}.

Definition no_decoder : bytes -> Z + error := fun _ => inr (ErrMsg "no decoder").

End q_instances.

(** A catalog in which the table [logs] has lost its rowid sequence. *)
Module statement_instances.
Import statement instances.

Definition tx_no_seq : MemTx :=
  {| tables := tables tx0; indexes := indexes tx0; sequences := ∅ |}.

End statement_instances.

(** ** The SQL test files (package [sql_test]) *)

Module sqltests.

(** [strings.HasPrefix] and [strings.TrimPrefix]. *)
Fixpoint str_HasPrefix (s prefix : string) {struct prefix} : bool :=
  match prefix, s with
  | EmptyString, _ => true
  | String _ _, EmptyString => false
  | String p prefix', String a s' => Ascii.eqb a p && str_HasPrefix s' prefix'
  end.

Fixpoint str_drop (n : nat) (s : string) : string :=
  match n, s with
  | O, _ => s
  | S _, EmptyString => EmptyString
  | S n', String _ s' => str_drop n' s'
  end.

Definition str_TrimPrefix (s prefix : string) : string :=
  if str_HasPrefix s prefix then str_drop (String.length prefix) s else s.

Definition newline : string := String (Ascii.ascii_of_nat 10) EmptyString.

Record test : Type := mktest {
  Name : string;
  Expr : string;
  Result : string;
  ErrorMatch : string;
  Fails : bool;
  Line : Z;
  Only : bool
}.

(** The tests a suite runs, out of the tests it holds: the first test
    marked [Only] alone, or all of them. *)
Fixpoint first_only (tests : list test) : option test :=
  match tests with
  | [] => None
  | t :: rest => if Only t then Some t else first_only rest
  end.

Definition select_tests (suite_tests : list test) : list test :=
  match first_only suite_tests with
  | Some t => [t]
  | None => suite_tests
  end.

(** A suite; its tests are pointers into the tests allocated so far, as
    the suites share them. *)
Record suite : Type := mksuite {
  suite_Name : string;
  PostSetup : string;
  Tests : list nat
}.

(** The variables of [parse]: the [testSuite] it builds, the tests it
    allocated, and its locals. *)
Record state : Type := mkstate {
  Filename : string;
  Setup : string;
  Suites : list suite;
  heap : list test;
  curTest : option nat;
  readingResult : bool;
  readingSetup : bool;
  readingSuite : bool;
  readingCommentBlock : bool;
  suiteIndex : Z;
  only : bool;
  lineCount : Z
}.

Definition initial (filename : string) : state :=
  {| Filename := filename; Setup := ""; Suites := []; heap := []; curTest := None;
     readingResult := false; readingSetup := false; readingSuite := false;
     readingCommentBlock := false; suiteIndex := -1; only := false; lineCount := 0 |}.

Fixpoint update_at {X : Type} (i : nat) (f : X -> X) (l : list X) : list X :=
  match l, i with
  | [], _ => []
  | x :: l', O => f x :: l'
  | x :: l', S i' => x :: update_at i' f l'
  end.

Definition index_out_of_range : string := "index out of range".

(** A write through [curTest]. *)
Definition on_curTest (f : test -> test) (st : state) : Outcome state :=
  match curTest st with
  | None => Panics tree.nil_dereference
  | Some p =>
      Returns {| Filename := Filename st; Setup := Setup st; Suites := Suites st;
                 heap := update_at p f (heap st); curTest := curTest st;
                 readingResult := readingResult st; readingSetup := readingSetup st;
                 readingSuite := readingSuite st;
                 readingCommentBlock := readingCommentBlock st;
                 suiteIndex := suiteIndex st; only := only st; lineCount := lineCount st |}
  end.

Definition set_curTest (p : option nat) (st : state) : state :=
  {| Filename := Filename st; Setup := Setup st; Suites := Suites st; heap := heap st;
     curTest := p; readingResult := readingResult st; readingSetup := readingSetup st;
     readingSuite := readingSuite st; readingCommentBlock := readingCommentBlock st;
     suiteIndex := suiteIndex st; only := only st; lineCount := lineCount st |}.

Definition set_readingResult (b : bool) (st : state) : state :=
  {| Filename := Filename st; Setup := Setup st; Suites := Suites st; heap := heap st;
     curTest := curTest st; readingResult := b; readingSetup := readingSetup st;
     readingSuite := readingSuite st; readingCommentBlock := readingCommentBlock st;
     suiteIndex := suiteIndex st; only := only st; lineCount := lineCount st |}.

Definition set_readingSetup (b : bool) (st : state) : state :=
  {| Filename := Filename st; Setup := Setup st; Suites := Suites st; heap := heap st;
     curTest := curTest st; readingResult := readingResult st; readingSetup := b;
     readingSuite := readingSuite st; readingCommentBlock := readingCommentBlock st;
     suiteIndex := suiteIndex st; only := only st; lineCount := lineCount st |}.

Definition set_readingCommentBlock (b : bool) (st : state) : state :=
  {| Filename := Filename st; Setup := Setup st; Suites := Suites st; heap := heap st;
     curTest := curTest st; readingResult := readingResult st;
     readingSetup := readingSetup st; readingSuite := readingSuite st;
     readingCommentBlock := b;
     suiteIndex := suiteIndex st; only := only st; lineCount := lineCount st |}.

Definition set_only (b : bool) (st : state) : state :=
  {| Filename := Filename st; Setup := Setup st; Suites := Suites st; heap := heap st;
     curTest := curTest st; readingResult := readingResult st;
     readingSetup := readingSetup st; readingSuite := readingSuite st;
     readingCommentBlock := readingCommentBlock st;
     suiteIndex := suiteIndex st; only := b; lineCount := lineCount st |}.

Definition set_Setup (setup : string) (st : state) : state :=
  {| Filename := Filename st; Setup := setup; Suites := Suites st; heap := heap st;
     curTest := curTest st; readingResult := readingResult st;
     readingSetup := readingSetup st; readingSuite := readingSuite st;
     readingCommentBlock := readingCommentBlock st;
     suiteIndex := suiteIndex st; only := only st; lineCount := lineCount st |}.

Definition set_Suites (suites : list suite) (st : state) : state :=
  {| Filename := Filename st; Setup := Setup st; Suites := suites; heap := heap st;
     curTest := curTest st; readingResult := readingResult st;
     readingSetup := readingSetup st; readingSuite := readingSuite st;
     readingCommentBlock := readingCommentBlock st;
     suiteIndex := suiteIndex st; only := only st; lineCount := lineCount st |}.

(** The case [-- suite:]. *)
Definition new_suite (line : string) (st : state) : state :=
  {| Filename := Filename st; Setup := Setup st;
     Suites := Suites st ++ [{| suite_Name := str_TrimPrefix line "-- suite: ";
                                PostSetup := ""; Tests := [] |}];
     heap := heap st; curTest := curTest st; readingResult := readingResult st;
     readingSetup := readingSetup st; readingSuite := true;
     readingCommentBlock := readingCommentBlock st;
     suiteIndex := suiteIndex st + 1; only := only st; lineCount := lineCount st |}.

(** The case [-- test:], which the case [-- only:] falls through to. *)
Definition new_test (line : string) (st : state) : state :=
  let p := length (heap st) in
  let t := {| Name := str_TrimPrefix line "-- test: "; Expr := ""; Result := "";
              ErrorMatch := ""; Fails := false; Line := lineCount st; Only := only st |} in
  let default := Z.eqb (suiteIndex st) (-1) in
  let suites := if default
                then Suites st ++ [{| suite_Name := "default"; PostSetup := ""; Tests := [] |}]
                else Suites st in
  {| Filename := Filename st; Setup := Setup st;
     Suites := map (fun su => {| suite_Name := suite_Name su; PostSetup := PostSetup su;
                                 Tests := Tests su ++ [p] |}) suites;
     heap := heap st ++ [t]; curTest := Some p; readingResult := readingResult st;
     readingSetup := false; readingSuite := false;
     readingCommentBlock := readingCommentBlock st;
     suiteIndex := if default then suiteIndex st + 1 else suiteIndex st;
     only := false; lineCount := lineCount st |}.

Section Parse.

(** [strings.TrimSpace] cuts the white space, in the sense of Unicode, at
    both ends; it is a parameter. *)
Variable TrimSpace : string -> string.

(** The body of the loop [for s.Scan()], on the line [s.Text()]. *)
Definition step (text : string) (st : state) : Outcome state :=
  let st := {| Filename := Filename st; Setup := Setup st; Suites := Suites st;
               heap := heap st; curTest := curTest st; readingResult := readingResult st;
               readingSetup := readingSetup st; readingSuite := readingSuite st;
               readingCommentBlock := readingCommentBlock st;
               suiteIndex := suiteIndex st; only := only st;
               lineCount := lineCount st + 1 |} in
  let line := if negb (readingResult st) then TrimSpace text else text in
  if String.eqb line "" then Returns st
  else if readingCommentBlock st && String.eqb (TrimSpace line) "*/" then
    Returns (set_readingCommentBlock false st)
  else if readingCommentBlock st then Returns st
  else if str_HasPrefix line "-- setup:" then Returns (set_readingSetup true st)
  else if str_HasPrefix line "-- suite:" then Returns (new_suite line st)
  else if str_HasPrefix line "-- only:" then Returns (new_test line (set_only true st))
  else if str_HasPrefix line "-- test:" then Returns (new_test line st)
  else if str_HasPrefix line "/* result:" || str_HasPrefix line "/*result:" then
    Returns (set_readingResult true st)
  else if str_HasPrefix line "-- error:" then
    let error := TrimSpace (str_TrimPrefix line "-- error:") in
    let write :=
      if String.eqb error "" then
        on_curTest (fun t => {| Name := Name t; Expr := Expr t; Result := Result t;
                                ErrorMatch := ErrorMatch t; Fails := true;
                                Line := Line t; Only := Only t |}) st
      else
        on_curTest (fun t => {| Name := Name t; Expr := Expr t; Result := Result t;
                                ErrorMatch := error; Fails := true;
                                Line := Line t; Only := Only t |}) st in
    match write with
    | Returns st => Returns (set_curTest None st)
    | Panics msg => Panics msg
    end
  else if str_HasPrefix line "/*" then Returns (set_readingCommentBlock true st)
  else if str_HasPrefix line "--" then Returns st
  else if negb (readingResult st) && String.eqb (TrimSpace line) "*/" then Returns st
  else if readingSuite st then
    if (0 <=? suiteIndex st) && (suiteIndex st <? Z.of_nat (length (Suites st))) then
      Returns (set_Suites
                 (update_at (Z.to_nat (suiteIndex st))
                    (fun su => {| suite_Name := suite_Name su;
                                  PostSetup := String.append (PostSetup su)
                                                 (String.append line newline);
                                  Tests := Tests su |})
                    (Suites st)) st)
    else Panics index_out_of_range
  else if readingSetup st then
    Returns (set_Setup (String.append (Setup st) (String.append line newline)) st)
  else if readingResult st && String.eqb (TrimSpace line) "*/" then
    Returns (set_curTest None (set_readingResult false st))
  else if readingResult st then
    on_curTest (fun t => {| Name := Name t; Expr := Expr t;
                            Result := String.append (Result t) (String.append line newline);
                            ErrorMatch := ErrorMatch t; Fails := Fails t;
                            Line := Line t; Only := Only t |}) st
  else
    on_curTest (fun t => {| Name := Name t;
                            Expr := String.append (Expr t) (String.append line newline);
                            Result := Result t;
                            ErrorMatch := ErrorMatch t; Fails := Fails t;
                            Line := Line t; Only := Only t |}) st.

(** The loop over the lines of the scanner. *)
Fixpoint run (lines : list string) (st : state) : Outcome state :=
  match lines with
  | [] => Returns st
  | text :: rest =>
      match step text st with
      | Returns st' => run rest st'
      | Panics msg => Panics msg
      end
  end.

(** [parse], on the lines the scanner yields. *)
Definition parse (lines : list string) (filename : string) : Outcome state :=
  run lines (initial filename).

End Parse.

(** The tests of a suite, through its pointers. *)
Definition tests_of (st : state) (su : suite) : list test :=
  map (fun p => nth p (heap st)
                  {| Name := ""; Expr := ""; Result := ""; ErrorMatch := ""; Fails := false;
                     Line := 0; Only := false |}) (Tests su).

(** What [parse] keeps true of its variables: [suiteIndex] is the index of
    the last suite; [curTest] points to an allocated test; every suite
    holds the tests allocated since some point, in order, and the first
    suite holds them all; there is a suite as soon as there is a test; the
    tests carry increasing line numbers, between 1 and the number of lines
    read. *)
Record invariant (st : state) : Prop := mkinvariant {
  inv_suiteIndex : suiteIndex st = Z.of_nat (length (Suites st)) - 1;
  inv_curTest : forall p, curTest st = Some p -> (p < length (heap st))%nat;
  inv_suites : Forall (fun ts => exists n, (n <= length (heap st))%nat /\
                                           ts = seq n (length (heap st) - n))
                      (map Tests (Suites st));
  inv_first : forall ts rest, map Tests (Suites st) = ts :: rest ->
                              ts = seq 0 (length (heap st));
  inv_heap : heap st <> [] -> Suites st <> [];
  inv_readingSuite : readingSuite st = true -> Suites st <> [];
  inv_sorted : StronglySorted Z.lt (map Line (heap st));
  inv_lines : Forall (fun n => 1 <= n <= lineCount st) (map Line (heap st));
  inv_lineCount : 0 <= lineCount st
}.

(** How the variables of [parse] grow from one line to a later one: the
    tests allocated stay, with their lines, and the new ones are on later
    lines; every suite there was gets the pointers to the new tests, all
    of them and in order; the suites keep their names and the new suites
    come after them. *)
Record extends (st st' : state) : Prop := mkextends {
  ext_heap : (length (heap st) <= length (heap st'))%nat;
  ext_lineCount : lineCount st <= lineCount st';
  ext_lines : exists new_lines,
      map Line (heap st') = map Line (heap st) ++ new_lines /\
      Forall (fun n => lineCount st < n) new_lines;
  ext_tests : exists new_suites,
      map Tests (Suites st')
      = map (fun ts => ts ++ seq (length (heap st)) (length (heap st') - length (heap st)))
          (map Tests (Suites st)) ++ new_suites;
  ext_names : exists new_names,
      map suite_Name (Suites st') = map suite_Name (Suites st) ++ new_names
}.

(** A space-trimming function for lines without white space at the ends. *)
Definition no_trim (s : string) : string := s.

End sqltests.

Module sqltests_instances.
Import sqltests.

(** Two tests of [UPDATE/pk.sql], as the scanner yields their lines, the
    white space at the ends cut. *)
Definition pk_sql : list string :=
  [ "-- test: set primary key / conflict";
    "CREATE TABLE test (a int primary key, b int);";
    "INSERT INTO test (a, b) VALUES (1, 10), (2, 20);";
    "UPDATE test SET a = 2, b = 20 WHERE a = 1;";
    "-- error: PRIMARY KEY constraint error: [a]";
    EmptyString;
    "-- test: unset primary key";
    "CREATE TABLE test (a int primary key, b int);";
    "INSERT INTO test (a, b) VALUES (1, 10);";
    "UPDATE test UNSET a WHERE a = 1;";
    "-- error: cannot unset primary key path" ].

(** A file with a setup and two suites, the second one declared after a
    test; the last test is marked [only]. *)
Definition late_suite_sql : list string :=
  [ "-- setup:";
    "CREATE TABLE test (a int);";
    "-- suite: no index";
    "-- test: insert";
    "INSERT INTO test (a) VALUES (1);";
    "-- suite: with index";
    "CREATE INDEX ON test (a);";
    "-- only: select";
    "SELECT a FROM test;";
    "/* result:";
    "*/" ].

End sqltests_instances.

(** * Properties *)

(** ** The byte order *)

Lemma byte_compare_refl (a : byte) : byte_compare a a = Eq.
Proof. unfold byte_compare. apply N.compare_refl. Qed.

Lemma byte_to_N_inj (a b : byte) : Byte.to_N a = Byte.to_N b -> a = b.
Proof.
  intros H. pose proof (Byte.of_to_N a) as Ha. pose proof (Byte.of_to_N b) as Hb.
  rewrite H in Ha. congruence.
Qed.

Lemma byte_compare_eq (a b : byte) : byte_compare a b = Eq -> a = b.
Proof. unfold byte_compare. intros H. apply N.compare_eq in H. now apply byte_to_N_inj. Qed.

Lemma byte_compare_antisym (a b : byte) : byte_compare b a = CompOpp (byte_compare a b).
Proof. unfold byte_compare. apply N.compare_antisym. Qed.

Lemma byte_lt_xff (b : byte) : b <> Byte.xff -> byte_compare b Byte.xff = Lt.
Proof. destruct b; intros H; try reflexivity. now contradiction H. Qed.

Lemma byte_eqb_refl (a : byte) : Byte.eqb a a = true.
Proof. now apply Byte.byte_dec_lb. Qed.

Lemma bytes_compare_refl (x : bytes) : bytes_compare x x = Eq.
Proof. induction x as [|a x IH]; simpl; [reflexivity|]. now rewrite byte_compare_refl. Qed.

Lemma bytes_compare_antisym (x y : bytes) :
  bytes_compare y x = CompOpp (bytes_compare x y).
Proof.
  revert y. induction x as [|a x IH]; intros [|b y]; simpl; try reflexivity.
  rewrite (byte_compare_antisym a b).
  destruct (byte_compare a b); simpl; auto.
Qed.

Lemma bytes_compare_app_l (p x y : bytes) :
  bytes_compare (p ++ x) (p ++ y) = bytes_compare x y.
Proof. induction p as [|a p IH]; simpl; [reflexivity|]. now rewrite byte_compare_refl. Qed.

Lemma bytes_leb_nil (y : bytes) : bytes_leb [] y = true.
Proof. now destruct y. Qed.

Lemma bytes_leb_app_r (p x : bytes) : bytes_leb p (p ++ x) = true.
Proof.
  unfold bytes_leb. rewrite <- (app_nil_r p) at 1. rewrite bytes_compare_app_l.
  now destruct x.
Qed.

Lemma bytes_leb_prefix (p a y : bytes) :
  bytes_leb (p ++ a) y = true -> bytes_leb p y = true.
Proof.
  unfold bytes_leb. revert y. induction p as [|c p IH]; intros y.
  - intros _. now destruct y.
  - destruct y as [|e y]; simpl; [discriminate|].
    destruct (byte_compare c e); auto.
Qed.

Lemma HasPrefix_app (p x : bytes) : HasPrefix (p ++ x) p = true.
Proof.
  induction p as [|a p IH]; simpl; [reflexivity|].
  rewrite IH, andb_true_r. apply byte_eqb_refl.
Qed.

Lemma HasPrefix_inv (y p : bytes) : HasPrefix y p = true -> exists x, y = p ++ x.
Proof.
  revert y. induction p as [|a p IH]; intros y H.
  - now exists y.
  - destruct y as [|b y]; simpl in H; [discriminate|].
    apply andb_true_iff in H as [Hb Hp].
    apply Byte.byte_dec_bl in Hb. subst b.
    destruct (IH _ Hp) as [x ->]. now exists x.
Qed.

Lemma TrimPrefix_app (p x : bytes) : TrimPrefix (p ++ x) p = x.
Proof.
  unfold TrimPrefix. rewrite HasPrefix_app.
  induction p as [|a p IH]; simpl; auto.
Qed.

(** A key between two keys of a namespace is a key of the namespace. *)
Lemma between_has_prefix (p a b y : bytes) :
  bytes_leb (p ++ a) y = true -> bytes_ltb y (p ++ b) = true -> HasPrefix y p = true.
Proof.
  unfold bytes_leb, bytes_ltb. revert y. induction p as [|c p IH]; intros y Hl Hu.
  - reflexivity.
  - destruct y as [|e y]; simpl in *; [discriminate|].
    rewrite (byte_compare_antisym c e) in Hu.
    destruct (byte_compare c e) eqn:Hc; simpl in Hu; try discriminate.
    apply byte_compare_eq in Hc. subst e.
    rewrite byte_eqb_refl. simpl. now apply IH.
Qed.

(** The [0xFF] trick: [k] and what extends [k] past a delimiter are below
    [k ++ [D; 0xFF]]. *)
Lemma below_delim_xff (D : byte) (p k x : bytes) :
  range_spec.extends D k x -> bytes_ltb (p ++ x) (p ++ k ++ [D; Byte.xff]) = true.
Proof.
  unfold bytes_ltb. intros [-> | (rest & -> & Hrest)]; rewrite bytes_compare_app_l.
  - rewrite <- (app_nil_r k) at 1. rewrite bytes_compare_app_l. reflexivity.
  - rewrite bytes_compare_app_l. simpl. rewrite byte_compare_refl.
    destruct rest as [|b rest]; [reflexivity|].
    simpl. rewrite byte_lt_xff; [reflexivity|].
    intros ->. now apply Hrest.
Qed.

Lemma bytes_ltb_not_leb (x y : bytes) : bytes_ltb x y = true -> bytes_leb y x = false.
Proof.
  unfold bytes_ltb, bytes_leb. rewrite (bytes_compare_antisym x y).
  now destruct (bytes_compare x y).
Qed.

(** Two encodings of the same length decide the order of what they prefix. *)
Lemma bytes_compare_same_length (a b x y : bytes) :
  length a = length b ->
  (a = b /\ bytes_compare a b = Eq) \/
  (a <> b /\ bytes_compare a b <> Eq /\ bytes_compare (a ++ x) (b ++ y) = bytes_compare a b).
Proof.
  revert b. induction a as [|c a IH]; intros [|e b] Hlen; try discriminate.
  - left. now split.
  - simpl in Hlen. injection Hlen as Hlen. simpl.
    destruct (byte_compare c e) eqn:Hc.
    + apply byte_compare_eq in Hc. subst e.
      destruct (IH b Hlen) as [[-> Heq] | (Hne & Hcmp & Happ)].
      * left. now split.
      * right. repeat split; auto. congruence.
    + right. repeat split; try discriminate. intros Heq. injection Heq as -> _.
      rewrite byte_compare_refl in Hc. discriminate.
    + right. repeat split; try discriminate. intros Heq. injection Heq as -> _.
      rewrite byte_compare_refl in Hc. discriminate.
Qed.

(** ** The iteration loop *)

Module tree_facts.
Import kv tree range_spec.

Lemma skipn_nth {X : Type} (l : list X) (n : nat) (dflt : X) :
  (n < length l)%nat -> skipn n l = nth n l dflt :: skipn (S n) l.
Proof.
  revert n. induction l as [|x l IH]; intros n Hn; simpl in Hn; [lia|].
  destruct n as [|n]; [reflexivity|]. simpl. apply IH. lia.
Qed.

Lemma firstn_S_nth {X : Type} (l : list X) (n : nat) (dflt : X) :
  (n < length l)%nat -> firstn (S n) l = firstn n l ++ [nth n l dflt].
Proof.
  revert n. induction l as [|x l IH]; intros n Hn; simpl in Hn; [lia|].
  destruct n as [|n]; [reflexivity|].
  change (x :: firstn (S n) l = x :: (firstn n l ++ [nth n l dflt])).
  f_equal. apply IH. lia.
Qed.

Section Loop.

Context {Doc A : Type}.
Variables (cdc : @Codec Doc) (prefix : bytes) (fn : @Callback Doc A).
Variable l : list (bytes * bytes).

Lemma it_Valid_at (n : nat) :
  it_Valid {| it_entries := l; it_pos := Z.of_nat n |} = (n <? length l)%nat.
Proof.
  unfold it_Valid. simpl.
  destruct (Nat.ltb_spec n (length l)); destruct (Z.ltb_spec (Z.of_nat n) (Z.of_nat (length l)));
    destruct (Z.leb_spec 0 (Z.of_nat n)); try reflexivity; lia.
Qed.

(** Forward: from position [n] the loop calls [fn] on the entries from [n]
    on, and it needs one unit of fuel per entry and one to stop. *)
Lemma iterate_loop_forward (fuel n : nat) (a : A) :
  (n <= length l)%nat -> (length l - n < fuel)%nat ->
  iterate_loop fuel false cdc prefix fn {| it_entries := l; it_pos := Z.of_nat n |} a
  = Some (call_each cdc fn (trim_entries prefix (skipn n l)) a).
Proof.
  revert n a. induction fuel as [|fuel IH]; intros n a Hn Hfuel; [lia|].
  cbn [iterate_loop]. rewrite it_Valid_at.
  destruct (Nat.ltb_spec n (length l)) as [Hlt | Hge].
  - rewrite (skipn_nth l n ([], [])) by exact Hlt.
    unfold it_Key, it_Value. cbn [it_pos it_entries trim_entries map call_each fst snd].
    rewrite Nat2Z.id.
    destruct (fn _ _ a) as [a' [err|]]; [reflexivity|].
    cbn [negb]. unfold it_Next. cbn [it_pos it_entries].
    replace (Z.of_nat n + 1) with (Z.of_nat (S n)) by lia.
    apply IH; lia.
  - rewrite skipn_all2 by lia. reflexivity.
Qed.

(** Backward: from position [n - 1] the loop calls [fn] on the first [n]
    entries, last first. *)
Lemma iterate_loop_reverse (fuel n : nat) (a : A) :
  (n <= length l)%nat -> (n < fuel)%nat ->
  iterate_loop fuel true cdc prefix fn {| it_entries := l; it_pos := Z.of_nat n - 1 |} a
  = Some (call_each cdc fn (trim_entries prefix (rev (firstn n l))) a).
Proof.
  revert n a. induction fuel as [|fuel IH]; intros n a Hn Hfuel; [lia|].
  cbn [iterate_loop]. destruct n as [|n].
  - reflexivity.
  - replace (Z.of_nat (S n) - 1) with (Z.of_nat n) by lia.
    rewrite it_Valid_at.
    destruct (Nat.ltb_spec n (length l)) as [Hlt | Hge]; [|lia].
    rewrite (firstn_S_nth l n ([], [])) by exact Hlt.
    rewrite rev_app_distr.
    unfold it_Key, it_Value. cbn [it_pos it_entries trim_entries map call_each fst snd rev app].
    rewrite Nat2Z.id.
    destruct (fn _ _ a) as [a' [err|]]; [reflexivity|].
    cbn [negb]. unfold it_Prev. cbn [it_pos it_entries].
    apply IH; lia.
Qed.

End Loop.

Lemma filter_length_le {X : Type} (f : X -> bool) (l : list X) :
  (length (List.filter f l) <= length l)%nat.
Proof. induction l as [|x l IH]; simpl; [lia|]. destruct (f x); simpl; lia. Qed.

(** With more fuel than the store has entries, [IterateOnRange] returns,
    and it has called [fn] on the exposed entries in order. *)
Lemma IterateOnRange_eq {Doc A : Type} (D : byte) (fuel : nat) (t : @Tree Doc)
    (rng : Range) (reverse : bool) (fn : @Callback Doc A) (s : Store) (a : A) :
  (TransientStore t <> None \/ Namespace t <> None) ->
  (length s < fuel)%nat ->
  IterateOnRange D fuel t (Some rng) reverse fn s a
  = Some (Returns (call_each (Codec_ t) fn
                     (trim_entries (buildKey t [])
                        (exposed (range_start D t rng) (range_end D t rng) reverse s)) a)).
Proof.
  intros Hbacked Hfuel. unfold IterateOnRange, exposed.
  set (view := List.filter _ s).
  assert (Hview : (length view <= length s)%nat) by apply filter_length_le.
  assert (Hloop : iterate_loop fuel reverse (Codec_ t) (buildKey t []) fn
                    (if negb reverse
                     then it_First (NewIter s (range_start D t rng) (range_end D t rng))
                     else it_Last (NewIter s (range_start D t rng) (range_end D t rng))) a
                  = Some (call_each (Codec_ t) fn
                            (trim_entries (buildKey t []) (if reverse then rev view else view)) a)).
  { destruct reverse; cbn [negb].
    - unfold it_Last, NewIter. cbn [it_entries]. fold view.
      rewrite iterate_loop_reverse by lia. now rewrite firstn_all.
    - unfold it_First, NewIter. cbn [it_entries]. fold view.
      change 0 with (Z.of_nat 0). rewrite iterate_loop_forward by lia. reflexivity. }
  destruct (TransientStore t), (Namespace t); try (rewrite Hloop; reflexivity).
  destruct Hbacked as [H | H]; now contradiction H.
Qed.

Lemma call_each_record_key {Doc : Type} (cdc : @Codec Doc) (l : list (Key * bytes)) (acc : list Key) :
  call_each cdc record_key l acc = (acc ++ map fst l, None).
Proof.
  revert acc. induction l as [|[k v] l IH]; intros acc; simpl.
  - now rewrite app_nil_r.
  - rewrite IH. now rewrite <- app_assoc.
Qed.


(** *** Namespace-backed trees *)

Section NamespaceTree.

Context {Doc : Type}.
Variables (D : byte) (ns : kv.Namespace) (cdc : @Codec Doc).

Lemma buildKey_New (key : bytes) : buildKey (New ns cdc) key = id_prefix (ID ns) ++ key.
Proof. reflexivity. Qed.

Lemma range_start_New (rng : Range) :
  range_start D (New ns cdc) rng = lower_bound D ns (Min rng) (Exclusive rng).
Proof.
  unfold range_start, lower_bound, buildFirstKey, buildStartKeyInclusive,
    buildStartKeyExclusive.
  destruct (Exclusive rng), (Min rng); cbn [negb]; rewrite ?buildKey_New, ?app_nil_r;
    try reflexivity.
  now rewrite <- app_assoc.
Qed.

Lemma range_end_New (rng : Range) :
  range_end D (New ns cdc) rng = upper_bound D ns (Max rng) (Exclusive rng).
Proof.
  unfold range_end, upper_bound, buildLastKey, buildEndKeyInclusive, buildEndKeyExclusive.
  destruct (Exclusive rng), (Max rng); cbn [negb]; rewrite ?buildKey_New;
    try reflexivity.
  now rewrite <- app_assoc.
Qed.

Lemma lower_bound_in_namespace (min : option Key) (exclusive : bool) :
  exists a, lower_bound D ns min exclusive = id_prefix (ID ns) ++ a.
Proof.
  unfold lower_bound. destruct min as [k|]; [destruct exclusive|]; eauto.
  exists []. now rewrite app_nil_r.
Qed.

(** Every key within the bounds of a range is a key of the namespace. *)
Lemma in_bounds_in_namespace (min max : option Key) (exclusive : bool) (y : bytes) :
  NamespaceID_wf (ID ns) ->
  in_bounds (lower_bound D ns min exclusive) (upper_bound D ns max exclusive) y = true ->
  HasPrefix y (id_prefix (ID ns)) = true.
Proof.
  intros Hwf Hb. apply andb_true_iff in Hb as [Hl Hu].
  destruct (lower_bound_in_namespace min exclusive) as [a Ha]. rewrite Ha in Hl.
  unfold upper_bound in Hu. destruct max as [k|].
  - destruct exclusive; eapply between_has_prefix; eauto.
  - apply Hwf; [|exact Hu]. eapply bytes_leb_prefix; eauto.
Qed.

Lemma In_exposed (st en : bytes) (reverse : bool) (s : Store) (kv : bytes * bytes) :
  In kv (exposed st en reverse s) <-> In kv s /\ in_bounds st en (fst kv) = true.
Proof.
  unfold exposed. destruct reverse; rewrite <- ?in_rev; apply filter_In.
Qed.

(** The keys the recording callback collects, forward or backward. *)
Lemma visited_spec (rng : Range) (reverse : bool) (s : Store) (fuel : nat) :
  NamespaceID_wf (ID ns) ->
  (length s < fuel)%nat ->
  exists visited : list Key,
    IterateOnRange D fuel (New ns cdc) (Some rng) reverse record_key s []
    = Some (Returns (visited, None)) /\
    visited = map fst (trim_entries (id_prefix (ID ns))
                         (exposed (lower_bound D ns (Min rng) (Exclusive rng))
                                  (upper_bound D ns (Max rng) (Exclusive rng)) reverse s)) /\
    (forall x, In x visited <->
               stored ns s x /\ in_range D ns (Min rng) (Max rng) (Exclusive rng) x).
Proof.
  intros Hwf Hfuel. eexists. split; [|split; [reflexivity|]].
  - rewrite IterateOnRange_eq; [|right; discriminate|exact Hfuel].
    rewrite call_each_record_key, range_start_New, range_end_New, buildKey_New, app_nil_r.
    reflexivity.
  - intros x. unfold trim_entries. rewrite map_map. cbn [fst]. rewrite in_map_iff. split.
    + intros ([y v] & Htrim & Hin). apply In_exposed in Hin as [Hin Hb]. cbn [fst] in *.
      pose proof (in_bounds_in_namespace _ _ _ _ Hwf Hb) as Hp.
      apply HasPrefix_inv in Hp as [x' ->]. rewrite TrimPrefix_app in Htrim. subst x'.
      split; [now exists v|]. now apply andb_true_iff in Hb.
    + intros [[v Hin] [Hl Hu]]. exists (BuildKey (ID ns) x, v). split.
      * cbn [fst]. apply TrimPrefix_app.
      * apply In_exposed. split; [exact Hin|]. cbn [fst]. unfold in_bounds, BuildKey.
        now rewrite Hl, Hu.
Qed.

End NamespaceTree.

(** C1: on a namespace-backed tree, for every range and every key [x]
    stored in the namespace, [IterateOnRange] visits [x] if and only if
    [x] satisfies the semantic predicate of the range.  The byte bounds are
    the ones the predicate names: an unset min starts at the first key of
    the namespace, an inclusive min [k] at [P ++ k], an exclusive min [k]
    at [P ++ k ++ [D; 0xFF]] (so [k] and every key extending [k] is
    skipped); an unset max ends at [UpperBound], an exclusive max [k] at
    [P ++ k], an inclusive max [k] at [P ++ k ++ [D; 0xFF]] (so [k] and
    every key extending [k] is included when it is not below the lower
    bound).  Reverse iteration uses the same bounds and visits the same
    keys, in the opposite order. *)
Theorem C1_IterateOnRange_visits_exactly_the_range
    {Doc : Type} (D : byte) (ns : kv.Namespace) (cdc : @Codec Doc) (rng : Range)
    (s : Store) (fuel : nat) :
  NamespaceID_wf (ID ns) ->
  (length s < fuel)%nat ->
  let t := New ns cdc in
  exists visited : list Key,
    IterateOnRange D fuel t (Some rng) false record_key s [] = Some (Returns (visited, None)) /\
    IterateOnRange D fuel t (Some rng) true record_key s [] = Some (Returns (rev visited, None)) /\
    range_start D t rng = lower_bound D ns (Min rng) (Exclusive rng) /\
    range_end D t rng = upper_bound D ns (Max rng) (Exclusive rng) /\
    (forall x, stored ns s x ->
       (In x visited <-> in_range D ns (Min rng) (Max rng) (Exclusive rng) x)) /\
    (forall x, In x (rev visited) <-> In x visited) /\
    (forall k x, Min rng = Some k -> Exclusive rng = true -> extends D k x ->
       ~ In x visited) /\
    (forall k x, Max rng = Some k -> Exclusive rng = false -> extends D k x ->
       stored ns s x ->
       bytes_leb (lower_bound D ns (Min rng) false) (id_prefix (ID ns) ++ x) = true ->
       In x visited).
Proof.
  intros Hwf Hfuel t.
  destruct (visited_spec D ns cdc rng false s fuel Hwf Hfuel) as (visited & Hrun & Hlist & Hspec).
  destruct (visited_spec D ns cdc rng true s fuel Hwf Hfuel) as (visited' & Hrun' & Hlist' & _).
  assert (Hrev : visited' = rev visited).
  { rewrite Hlist, Hlist'. unfold exposed, trim_entries. now rewrite !map_rev. }
  exists visited.
  split; [exact Hrun|]. split; [now rewrite <- Hrev|].
  split; [apply range_start_New|]. split; [apply range_end_New|].
  split; [|split; [|split]].
  - intros x Hst. split; intros H.
    + now apply Hspec in H.
    + apply Hspec. now split.
  - intros x. symmetry. apply in_rev.
  - intros k x Hmin Hexcl Hext Hin. apply Hspec in Hin as [_ [Hl _]].
    rewrite Hmin, Hexcl in Hl. cbn [lower_bound] in Hl.
    pose proof (below_delim_xff D (id_prefix (ID ns)) k x Hext) as Hlt.
    apply bytes_ltb_not_leb in Hlt. congruence.
  - intros k x Hmax Hexcl Hext Hst Hl. apply Hspec. split; [exact Hst|].
    unfold in_range. rewrite Hmax, Hexcl. cbn [upper_bound]. split; [exact Hl|].
    now apply below_delim_xff.
Qed.

(** C9: on a namespace-backed tree the callback is called on the exposed
    entries with the namespace prefix stripped from their keys: every
    stored key it was called for is the namespace prefix followed by the
    key the callback saw. *)
Theorem C9_callback_keys_have_the_prefix_stripped
    {Doc A : Type} (D : byte) (ns : kv.Namespace) (cdc : @Codec Doc) (rng : Range)
    (reverse : bool) (fn : @Callback Doc A) (s : Store) (a : A) (fuel : nat) :
  NamespaceID_wf (ID ns) ->
  (length s < fuel)%nat ->
  let t := New ns cdc in
  exists entries : list (Key * bytes),
    IterateOnRange D fuel t (Some rng) reverse fn s a
    = Some (Returns (call_each cdc fn entries a)) /\
    map (fun kv => (id_prefix (ID ns) ++ fst kv, snd kv)) entries
    = exposed (range_start D t rng) (range_end D t rng) reverse s /\
    (forall k v, In (k, v) entries -> In (BuildKey (ID ns) k, v) s).
Proof.
  intros Hwf Hfuel t.
  set (ex := exposed (range_start D t rng) (range_end D t rng) reverse s).
  assert (Hmap : map (fun kv => (id_prefix (ID ns) ++ fst kv, snd kv))
                   (trim_entries (id_prefix (ID ns)) ex) = ex).
  { assert (Hall : forall kv, In kv ex -> HasPrefix (fst kv) (id_prefix (ID ns)) = true).
    { intros kv Hin. apply In_exposed in Hin as [_ Hb].
      unfold t in Hb. rewrite range_start_New, range_end_New in Hb.
      eapply in_bounds_in_namespace; eauto. }
    clearbody ex. induction ex as [|[y v] ex IH]; [reflexivity|].
    cbn [trim_entries map fst snd]. f_equal.
    - pose proof (Hall (y, v) (or_introl eq_refl)) as Hp. cbn [fst] in Hp.
      destruct (HasPrefix_inv _ _ Hp) as [x ->].
      now rewrite TrimPrefix_app.
    - apply IH. intros kv Hin. apply Hall. now right. }
  exists (trim_entries (id_prefix (ID ns)) ex). split; [|split].
  - unfold t. rewrite IterateOnRange_eq; [|right; discriminate|exact Hfuel].
    rewrite buildKey_New, app_nil_r. reflexivity.
  - exact Hmap.
  - intros k v Hin.
    assert (Hin' : In (id_prefix (ID ns) ++ k, v) ex).
    { rewrite <- Hmap. apply in_map_iff. now exists (k, v). }
    now apply In_exposed in Hin' as [Hin' _].
Qed.



(** *** Partial keys on a composite index *)

Section PartialKey.

Context {Doc : Type}.
Variables (D : byte) (ns : kv.Namespace) (cdc : @Codec Doc).

(** The encoding of integers: all encodings have the same length, the
    encoding is injective on 64-bit integers and starts with a tag byte
    that is not a raw [0xFF]. *)
Variable enc : Z -> bytes.
Hypothesis enc_length : forall a b, length (enc a) = length (enc b).
Hypothesis enc_inj : forall a b, i64 a -> i64 b -> enc a = enc b -> a = b.
Hypothesis enc_tag : forall b, exists tag payload, enc b = tag :: payload /\ tag <> Byte.xff.

Lemma index_entry_extends (a b : Z) (tail : bytes) :
  extends D (enc a) (index_entry D enc a b tail).
Proof.
  right. exists (enc b ++ tail). split; [reflexivity|].
  destruct (enc_tag b) as (tag & payload & -> & Htag). simpl. congruence.
Qed.

Lemma index_entry_above (p : bytes) (a b : Z) (tail : bytes) :
  bytes_leb (p ++ enc a) (p ++ index_entry D enc a b tail) = true.
Proof. unfold index_entry. rewrite (app_assoc p). apply bytes_leb_app_r. Qed.

(** An entry whose first column is not [c] is outside the slice of [c]. *)
Lemma index_entry_outside (p : bytes) (c a b : Z) (tail : bytes) :
  i64 c -> i64 a ->
  bytes_leb (p ++ enc c) (p ++ index_entry D enc a b tail) = true ->
  bytes_ltb (p ++ index_entry D enc a b tail) (p ++ enc c ++ [D; Byte.xff]) = true ->
  a = c.
Proof.
  intros Hc Ha. unfold bytes_leb, bytes_ltb, index_entry.
  rewrite !bytes_compare_app_l. intros Hl Hu.
  destruct (bytes_compare_same_length (enc a) (enc c) (D :: enc b ++ tail) [D; Byte.xff]
              (enc_length a c)) as [[Heq _] | (Hne & Hcmp & Happ)].
  - now apply enc_inj.
  - rewrite Happ in Hu.
    destruct (bytes_compare_same_length (enc c) (enc a) [] (D :: enc b ++ tail)
                (enc_length c a)) as [[Heq _] | (_ & _ & Happ')].
    + now contradiction Hne.
    + rewrite app_nil_r in Happ'. rewrite Happ' in Hl.
      rewrite (bytes_compare_antisym (enc a) (enc c)) in Hl.
      destruct (bytes_compare (enc a) (enc c)); simpl in Hl; discriminate || now contradiction Hcmp.
Qed.

(** C2, amended: a range whose key list is shorter than the arity of the
    index leaves the missing trailing columns open at both ends.  For the
    partial key [1] on an index on [(a, b)], in either direction: the byte
    slice of the range min = max = [1] is [P ++ enc 1, P ++ enc 1 ++ [D;
    0xFF]), and it visits exactly the stored entries whose [a] is 1,
    whatever their [b]; an inclusive max [1] alone and an inclusive min [1]
    alone visit every stored entry whose [a] is 1; an exclusive min [1]
    visits no entry whose [a] is 1. *)
Theorem C2_partial_key_leaves_trailing_columns_open
    (reverse : bool) (s : Store) (fuel : nat) :
  NamespaceID_wf (ID ns) ->
  (length s < fuel)%nat ->
  let t := New ns cdc in
  let k := enc 1 in
  let visits (rng : Range) (P : list Key -> Prop) : Prop :=
    exists visited : list Key,
      IterateOnRange D fuel t (Some rng) reverse record_key s [] = Some (Returns (visited, None))
      /\ P visited in
  range_start D t {| Min := Some k; Max := Some k; Exclusive := false |}
  = id_prefix (ID ns) ++ enc 1 /\
  range_end D t {| Min := Some k; Max := Some k; Exclusive := false |}
  = id_prefix (ID ns) ++ enc 1 ++ [D; Byte.xff] /\
  visits {| Min := Some k; Max := Some k; Exclusive := false |}
    (fun visited => forall a b tail, i64 a -> stored ns s (index_entry D enc a b tail) ->
                    (In (index_entry D enc a b tail) visited <-> a = 1)) /\
  visits {| Min := None; Max := Some k; Exclusive := false |}
    (fun visited => forall b tail, stored ns s (index_entry D enc 1 b tail) ->
                    In (index_entry D enc 1 b tail) visited) /\
  visits {| Min := Some k; Max := None; Exclusive := false |}
    (fun visited => forall b tail, stored ns s (index_entry D enc 1 b tail) ->
                    In (index_entry D enc 1 b tail) visited) /\
  visits {| Min := Some k; Max := None; Exclusive := true |}
    (fun visited => forall b tail, ~ In (index_entry D enc 1 b tail) visited).
Proof.
  intros Hwf Hfuel t k visits.
  assert (H1 : i64 1) by (unfold i64; lia).
  split; [apply (range_start_New D ns cdc)|].
  split; [apply (range_end_New D ns cdc)|].
  split; [|split; [|split]].
  - destruct (visited_spec D ns cdc {| Min := Some k; Max := Some k; Exclusive := false |}
                reverse s fuel Hwf Hfuel) as (visited & Hrun & _ & Hspec).
    exists visited. split; [exact Hrun|]. intros a b tail Ha Hst. split.
    + intros Hin. apply Hspec in Hin as [_ [Hl Hu]]. cbn in Hl, Hu.
      eapply index_entry_outside; eauto.
    + intros ->. apply Hspec. split; [exact Hst|]. split; cbn.
      * apply index_entry_above.
      * apply below_delim_xff, index_entry_extends.
  - destruct (visited_spec D ns cdc {| Min := None; Max := Some k; Exclusive := false |}
                reverse s fuel Hwf Hfuel) as (visited & Hrun & _ & Hspec).
    exists visited. split; [exact Hrun|]. intros b tail Hst.
    apply Hspec. split; [exact Hst|]. split; cbn.
    + apply bytes_leb_app_r.
    + apply below_delim_xff, index_entry_extends.
  - destruct (visited_spec D ns cdc {| Min := Some k; Max := None; Exclusive := false |}
                reverse s fuel Hwf Hfuel) as (visited & Hrun & _ & Hspec).
    exists visited. split; [exact Hrun|]. intros b tail Hst.
    apply Hspec. split; [exact Hst|]. split; cbn.
    + apply index_entry_above.
    + apply Hwf; [apply bytes_leb_app_r | apply HasPrefix_app].
  - destruct (visited_spec D ns cdc {| Min := Some k; Max := None; Exclusive := true |}
                reverse s fuel Hwf Hfuel) as (visited & Hrun & _ & Hspec).
    exists visited. split; [exact Hrun|]. intros b tail Hin.
    apply Hspec in Hin as [_ [Hl _]]. cbn in Hl.
    pose proof (below_delim_xff D (id_prefix (ID ns)) k _ (index_entry_extends 1 b tail)) as Hlt.
    apply bytes_ltb_not_leb in Hlt. congruence.
Qed.

End PartialKey.


(** *** The statements on concrete stores *)

Section Concrete.
Import instances.

Lemma ns1_wf : NamespaceID_wf (ID ns1).
Proof.
  intros [|b y]; [discriminate|].
  unfold bytes_leb, bytes_ltb. cbn.
  destruct b; cbn; try discriminate; intros _; destruct y; cbn; split; congruence.
Qed.

Lemma encodeInt64_length (a b : Z) : length (encodeInt64 a) = length (encodeInt64 b).
Proof. reflexivity. Qed.

Lemma encodeInt64_tag (b : Z) :
  exists tag payload, encodeInt64 b = tag :: payload /\ tag <> Byte.xff.
Proof. eexists. eexists. split; [reflexivity|discriminate]. Qed.

Lemma byte_of_Z_to_N (z : Z) : Z.of_N (Byte.to_N (byte_of_Z z)) = z mod 256.
Proof.
  unfold byte_of_Z. pose proof (Z.mod_pos_bound z 256 eq_refl) as Hb.
  destruct (Byte.of_N (Z.to_N (z mod 256))) as [b|] eqn:Hof.
  - apply Byte.to_of_N in Hof. rewrite Hof. lia.
  - apply Byte.of_N_None_iff in Hof. lia.
Qed.

Lemma byte_of_Z_inj (x y : Z) : byte_of_Z x = byte_of_Z y -> x mod 256 = y mod 256.
Proof. intros H. rewrite <- !byte_of_Z_to_N. now rewrite H. Qed.

Lemma encodeInt64_inj (a b : Z) : i64 a -> i64 b -> encodeInt64 a = encodeInt64 b -> a = b.
Proof.
  unfold i64, encodeInt64. intros Ha Hb H.
  injection H as H7 H6 H5 H4 H3 H2 H1 H0.
  apply byte_of_Z_inj in H7, H6, H5, H4, H3, H2, H1, H0.
  rewrite (Z.mod_small (a + 2 ^ 63)) in * by lia.
  rewrite (Z.mod_small (b + 2 ^ 63)) in * by lia.
  change (2 ^ 56) with (72057594037927936) in *.
  change (2 ^ 48) with (281474976710656) in *.
  change (2 ^ 40) with (1099511627776) in *.
  change (2 ^ 32) with (4294967296) in *.
  change (2 ^ 24) with (16777216) in *.
  change (2 ^ 16) with (65536) in *.
  change (2 ^ 8) with (256) in *.
  change (2 ^ 63) with (9223372036854775808) in *.
  Z.div_mod_to_equations. lia.
Qed.

(** The exclusive min [05] skips [05] and [05 1f 07] and visits [06]; the
    inclusive max [05] visits [05] and [05 1f 07] and stops before [06]. *)
Example IterateOnRange_exclusive_min :
  IterateOnRange delim 4 (New ns1 raw_codec)
    (Some {| Min := Some [Byte.x05]; Max := None; Exclusive := true |})
    false record_key store0 []
  = Some (Returns ([[Byte.x06]], None)).
Proof. reflexivity. Qed.

Example IterateOnRange_inclusive_max_reverse :
  IterateOnRange delim 4 (New ns1 raw_codec)
    (Some {| Min := None; Max := Some [Byte.x05]; Exclusive := false |})
    true record_key store0 []
  = Some (Returns ([[Byte.x05; Byte.x1f; Byte.x07]; [Byte.x05]], None)).
Proof. reflexivity. Qed.

(** The case "max:[1]" of the index scan tests: both rows with [a = 1]. *)
Example IterateOnRange_partial_max :
  IterateOnRange delim 4 (New ns1 raw_codec)
    (Some {| Min := None; Max := Some (encodeInt64 1); Exclusive := false |})
    false record_key index_store []
  = Some (Returns ([index_entry delim encodeInt64 1 1 [];
                    index_entry delim encodeInt64 1 MAX_I64 []], None)).
Proof. vm_compute. reflexivity. Qed.

End Concrete.

Section Witnesses.
Import instances.

Lemma C1_witness :
  NamespaceID_wf (ID ns1) /\ (length store0 < 4)%nat /\
  exists visited : list Key,
    IterateOnRange delim 4 (New ns1 raw_codec)
      (Some {| Min := Some [Byte.x05]; Max := None; Exclusive := true |})
      false record_key store0 [] = Some (Returns (visited, None)) /\
    ~ In [Byte.x05; Byte.x1f; Byte.x07] visited.
Proof.
  split; [exact ns1_wf|]. split; [simpl; lia|].
  destruct (C1_IterateOnRange_visits_exactly_the_range delim ns1 raw_codec
              {| Min := Some [Byte.x05]; Max := None; Exclusive := true |} store0 4
              ns1_wf ltac:(simpl; lia))
    as (visited & Hrun & _ & _ & _ & _ & _ & Hskip & _).
  exists visited. split; [exact Hrun|].
  apply (Hskip [Byte.x05]); [reflexivity|reflexivity|].
  right. exists [Byte.x07]. split; [reflexivity|discriminate].
Defined.

Lemma C9_witness :
  NamespaceID_wf (ID ns1) /\ (length store0 < 4)%nat /\
  exists entries : list (Key * bytes),
    IterateOnRange delim 4 (New ns1 raw_codec)
      (Some {| Min := None; Max := Some [Byte.x05]; Exclusive := false |})
      true record_key store0 []
    = Some (Returns (call_each raw_codec record_key entries [])) /\
    forall k v, In (k, v) entries -> In (BuildKey (ID ns1) k, v) store0.
Proof.
  split; [exact ns1_wf|]. split; [simpl; lia|].
  destruct (C9_callback_keys_have_the_prefix_stripped delim ns1 raw_codec
              {| Min := None; Max := Some [Byte.x05]; Exclusive := false |} true
              record_key store0 [] 4 ns1_wf ltac:(simpl; lia))
    as (entries & Hrun & _ & Hin).
  exists entries. split; [exact Hrun | exact Hin].
Defined.


Lemma C2_witness :
  NamespaceID_wf (ID ns1) /\ (length index_store < 4)%nat /\
  range_start delim (New ns1 raw_codec)
    {| Min := Some (encodeInt64 1); Max := Some (encodeInt64 1); Exclusive := false |}
  = id_prefix (ID ns1) ++ encodeInt64 1 /\
  range_end delim (New ns1 raw_codec)
    {| Min := Some (encodeInt64 1); Max := Some (encodeInt64 1); Exclusive := false |}
  = id_prefix (ID ns1) ++ encodeInt64 1 ++ [delim; Byte.xff].
Proof.
  split; [exact ns1_wf|]. split; [simpl; lia|].
  destruct (C2_partial_key_leaves_trailing_columns_open delim ns1 raw_codec encodeInt64
              encodeInt64_length encodeInt64_inj encodeInt64_tag false index_store 4
              ns1_wf ltac:(simpl; lia))
    as (Hstart & Hend & _).
  split; [exact Hstart | exact Hend].
Defined.

(** C2 as stated: the lower bound of the slice for the partial key [1] is
    [P ++ enc 1]; it does not end with the delimiter. *)
Lemma C2_counterexample_lower_bound :
  range_start delim (New ns1 raw_codec)
    {| Min := Some (encodeInt64 1); Max := Some (encodeInt64 1); Exclusive := false |}
  <> id_prefix (ID ns1) ++ encodeInt64 1 ++ [delim].
Proof. vm_compute. discriminate. Qed.

End Witnesses.

End tree_facts.

(** ** Statement preparation *)

Module statement_facts.
Import statement stream_spec.

Lemma PathFragment_eqb_eq (a b : PathFragment) : PathFragment_eqb a b = true <-> a = b.
Proof.
  destruct a as [x|i], b as [y|j]; simpl; try (split; discriminate).
  - rewrite String.eqb_eq. split; congruence.
  - rewrite Z.eqb_eq. split; congruence.
Qed.

Lemma IsEqual_eq (p other : Path) : IsEqual p other = true <-> p = other.
Proof.
  revert other. induction p as [|a p IH]; intros [|b other]; simpl;
    try (split; (reflexivity || discriminate)).
  rewrite andb_true_iff, PathFragment_eqb_eq, IH. split.
  - intros [-> ->]. reflexivity.
  - intros H. injection H as -> ->. now split.
Qed.

Lemma pk_has_path_In (pk : option PrimaryKey) (path : Path) :
  pk_has_path pk path = true <-> exists pk', pk = Some pk' /\ In path (Paths pk').
Proof.
  unfold pk_has_path. destruct pk as [pk'|].
  - rewrite existsb_exists. split.
    + intros (p & Hin & Heq). apply IsEqual_eq in Heq. subst p. eauto.
    + intros (pk'' & Hpk & Hin). injection Hpk as <-. exists path. split; [exact Hin|].
      now apply IsEqual_eq.
  - split; [discriminate|]. intros (pk' & Hpk & _). discriminate.
Qed.

Section Loops.

Context {Expr : Type}.

Lemma set_loop_spec (pk : option PrimaryKey) (pairs : list (@UpdateSetPair Expr))
    (s : Stream) (pkModified : bool) :
  set_loop pk pairs s pkModified
  = (s ++ map (fun sp => path_Set (UpdateSetPair_Path sp) (E sp)) pairs,
     pkModified || existsb (fun sp => pk_has_path pk (UpdateSetPair_Path sp)) pairs).
Proof.
  revert s pkModified. induction pairs as [|sp pairs IH]; intros s pkModified; simpl.
  - now rewrite app_nil_r, orb_false_r.
  - rewrite IH. unfold Pipe. rewrite <- app_assoc. simpl. f_equal.
    destruct pkModified; simpl; reflexivity.
Qed.

Lemma unset_loop_ok (pk : option PrimaryKey) (names : list string) (s : @Stream Expr) :
  (forall name, In name names -> pk_has_path pk (NewPath name) = false) ->
  unset_loop pk names s = inl (s ++ map path_Unset names).
Proof.
  revert s. induction names as [|name names IH]; intros s Hok; simpl.
  - now rewrite app_nil_r.
  - rewrite (Hok name) by now left.
    rewrite IH by (intros n Hn; apply Hok; now right).
    unfold Pipe. now rewrite <- app_assoc.
Qed.

Lemma unset_loop_err (pk : option PrimaryKey) (names : list string) (s : @Stream Expr) :
  (exists name, In name names /\ pk_has_path pk (NewPath name) = true) ->
  unset_loop pk names s = inr (ErrMsg "cannot unset primary key path").
Proof.
  revert s. induction names as [|name names IH]; intros s (n & Hin & Hn); simpl.
  - destruct Hin.
  - destruct (pk_has_path pk (NewPath name)) eqn:Hname; [reflexivity|].
    apply IH. exists n. split; [|exact Hn].
    destruct Hin as [-> | Hin]; [congruence | exact Hin].
Qed.

Lemma index_delete_loop_spec (indexNames : list string) (s : @Stream Expr) :
  index_delete_loop indexNames s = s ++ map index_Delete indexNames.
Proof.
  revert s. induction indexNames as [|n names IH]; intros s; simpl.
  - now rewrite app_nil_r.
  - rewrite IH. unfold Pipe. now rewrite <- app_assoc.
Qed.

Context {Tx : Type} {catalog : Catalog Tx}.

Lemma index_insert_loop_spec (c : Tx) (indexes : list IndexInfo) (s : @Stream Expr) :
  Forall (fun info => GetIndexInfo c (IndexInfo_IndexName info) = inl info) indexes ->
  index_insert_loop c (map IndexInfo_IndexName indexes) s = inl (s ++ index_operators indexes).
Proof.
  intros Hall. revert s. induction Hall as [|info indexes Hinfo _ IH]; intros s; simpl.
  - now rewrite app_nil_r.
  - rewrite Hinfo, IH. unfold Pipe. destruct (Unique info); simpl;
      now rewrite <- !app_assoc.
Qed.

End Loops.

(** *** UPDATE *)

Section Update.

Context {Expr Tx Statement : Type} {catalog : Catalog Tx}.
Variable StreamStmt_Prepare : @StreamStmt Expr -> Tx -> Statement + error.

(** C3: when the table and its indexes are in the catalog and no UNSET
    field is a primary-key path, the stream handed to [StreamStmt.Prepare]
    is exactly: the scan of the table, [Filter] if WHERE is present, one
    [PathSet] per SET pair (or one [PathUnset] per UNSET field),
    [TableValidate], one [IndexDelete] per index, then [TableDelete] and
    [TableInsert] if and only if some SET pair's path is a primary-key
    path, [TableReplace] otherwise, then per index in catalog order
    [IndexValidate] if it is unique and [IndexInsert], and [Discard]. *)
Theorem C3_UpdateStmt_Prepare_stream
    (stmt : @UpdateStmt Expr) (c : Tx) (ti : TableInfo) (indexes : list IndexInfo) :
  GetTableInfo c (UpdateStmt_TableName stmt) = inl ti ->
  indexes_of c (UpdateStmt_TableName stmt) indexes ->
  (forall names name pk,
     SetPairs stmt = None -> UnsetFields stmt = Some names ->
     GetPrimaryKey ti = Some pk -> In name names -> ~ In (NewPath name) (Paths pk)) ->
  exists pkModified : bool,
    (pkModified = true <-> sets_primary_key (GetPrimaryKey ti) stmt) /\
    UpdateStmt_build stmt c = inl (update_stream stmt indexes pkModified) /\
    UpdateStmt_Prepare StreamStmt_Prepare stmt c
    = StreamStmt_Prepare {| StreamStmt_Stream := update_stream stmt indexes pkModified;
                            ReadOnly := false |} c.
Proof.
  intros Hti [Hnames Hinfos] Hunset.
  set (pk := GetPrimaryKey ti) in *.
  set (pkModified :=
         match SetPairs stmt with
         | Some pairs => existsb (fun sp => pk_has_path pk (UpdateSetPair_Path sp)) pairs
         | None => false
         end).
  assert (Hbuild : UpdateStmt_build stmt c = inl (update_stream stmt indexes pkModified)).
  { unfold UpdateStmt_build, update_stream, path_operators, pkModified.
    rewrite Hti. fold pk. rewrite Hnames.
    destruct (SetPairs stmt) as [pairs|] eqn:Hset.
    - rewrite set_loop_spec. cbn [orb].
      rewrite index_delete_loop_spec.
      destruct (existsb _ pairs); unfold Pipe, stream_New, optional;
        rewrite index_insert_loop_spec by exact Hinfos;
        destruct (UpdateStmt_WhereExpr stmt); rewrite ?map_map, <- ?app_assoc; reflexivity.
    - destruct (UnsetFields stmt) as [names|] eqn:Hun.
      + rewrite unset_loop_ok.
        * rewrite index_delete_loop_spec. unfold Pipe, stream_New, optional.
          rewrite index_insert_loop_spec by exact Hinfos.
          destruct (UpdateStmt_WhereExpr stmt); rewrite ?map_map, <- ?app_assoc; reflexivity.
        * intros name Hin. destruct (pk_has_path pk (NewPath name)) eqn:Hp; [|reflexivity].
          apply pk_has_path_In in Hp as (pk' & Hpk & Hpath).
          exfalso. eapply Hunset; eauto.
      + rewrite index_delete_loop_spec. unfold Pipe, stream_New, optional.
        rewrite index_insert_loop_spec by exact Hinfos.
        destruct (UpdateStmt_WhereExpr stmt); rewrite ?map_map, <- ?app_assoc, ?app_nil_r;
          reflexivity. }
  exists pkModified. split; [|split].
  - unfold pkModified, sets_primary_key. split.
    + destruct (SetPairs stmt) as [pairs|]; [|discriminate].
      intros H. apply existsb_exists in H as (sp & Hin & Hp).
      apply pk_has_path_In in Hp as (pk' & Hpk & Hpath).
      exists pairs, pk', sp. auto.
    + intros (pairs & pk' & sp & -> & Hpk & Hin & Hpath).
      apply existsb_exists. exists sp. split; [exact Hin|].
      apply pk_has_path_In. eauto.
  - exact Hbuild.
  - unfold UpdateStmt_Prepare. now rewrite Hbuild.
Qed.

(** C6: preparing an UPDATE that only has UNSET fields, one of which is a
    path of the primary key of the table (for a composite key: any of its
    columns), fails with "cannot unset primary key path": the result is
    this error whatever [StreamStmt.Prepare] does, so no statement is
    prepared and nothing can run. *)
Theorem C6_unset_primary_key_path_fails
    (stmt : @UpdateStmt Expr) (c : Tx) (ti : TableInfo) (pk : PrimaryKey)
    (names : list string) (name : string) :
  GetTableInfo c (UpdateStmt_TableName stmt) = inl ti ->
  GetPrimaryKey ti = Some pk ->
  SetPairs stmt = None ->
  UnsetFields stmt = Some names ->
  In name names ->
  In (NewPath name) (Paths pk) ->
  UpdateStmt_build stmt c = inr (ErrMsg "cannot unset primary key path") /\
  UpdateStmt_Prepare StreamStmt_Prepare stmt c = inr (ErrMsg "cannot unset primary key path").
Proof.
  intros Hti Hpk Hset Hun Hin Hpath.
  assert (Hbuild : UpdateStmt_build stmt c = inr (ErrMsg "cannot unset primary key path")).
  { unfold UpdateStmt_build. rewrite Hti, Hset, Hun.
    rewrite unset_loop_err; [reflexivity|].
    exists name. split; [exact Hin|]. apply pk_has_path_In. eauto. }
  split; [exact Hbuild|]. unfold UpdateStmt_Prepare. now rewrite Hbuild.
Qed.

End Update.

(** *** INSERT and DELETE *)

Section InsertDelete.

Context {Expr Tx : Type} {catalog : Catalog Tx}.

(** C4: for an INSERT with an ON CONFLICT clause, the stream has the
    [OnConflict] operator immediately between [TableValidate] and
    [TableInsert]: what precedes the three operators is the row source,
    what follows them the operators of the indexes and of RETURNING, and
    nothing follows for [RETURNING *] on a table without an index.
    DO NOTHING and IGNORE both give [OnConflict(nil)], DO REPLACE and
    REPLACE both give [OnConflict(Stream(TableReplace(T)))], and the parser
    rejects every other action. *)
Theorem C4_OnConflict_between_TableValidate_and_TableInsert
    (IsWildcard : Expr -> bool) (stmt : @InsertStmt Expr) (c : Tx) (action : OnConflictAction)
    (indexes : list IndexInfo) :
  OnConflict stmt = Some action ->
  indexes_of c (InsertStmt_TableName stmt) indexes ->
  let t := InsertStmt_TableName stmt in
  InsertStmt_build IsWildcard stmt c
  = inl (insert_source stmt
         ++ [table_Validate t; onConflictOperator t action; table_Insert t]
         ++ insert_tail IsWildcard stmt indexes) /\
  (indexes = [] -> forall e, Returning stmt = Some [e] -> IsWildcard e = true ->
   InsertStmt_build IsWildcard stmt c
   = inl (insert_source stmt
          ++ [table_Validate t; onConflictOperator t action; table_Insert t])) /\
  onConflictOperator (Expr := Expr) t OnConflictDoNothing = stream_OnConflict None /\
  onConflictOperator (Expr := Expr) t OnConflictDoReplace
  = stream_OnConflict (Some [table_Replace t]) /\
  (forall rest, parseOnConflict (DO :: NOTHING :: rest) = inl (OnConflictDoNothing, rest)) /\
  (forall rest, parseOnConflict (IGNORE :: rest) = inl (OnConflictDoNothing, rest)) /\
  (forall rest, parseOnConflict (DO :: REPLACE :: rest) = inl (OnConflictDoReplace, rest)) /\
  (forall rest, parseOnConflict (REPLACE :: rest) = inl (OnConflictDoReplace, rest)) /\
  (forall tokens,
     (forall rest, tokens <> DO :: NOTHING :: rest /\ tokens <> IGNORE :: rest /\
                   tokens <> DO :: REPLACE :: rest /\ tokens <> REPLACE :: rest) ->
     exists err, parseOnConflict tokens = inr err).
Proof.
  intros Hoc [Hnames Hinfos] t. subst t.
  assert (Hbuild : InsertStmt_build IsWildcard stmt c
                   = inl (insert_source stmt
                          ++ [table_Validate (InsertStmt_TableName stmt);
                              onConflictOperator (InsertStmt_TableName stmt) action;
                              table_Insert (InsertStmt_TableName stmt)]
                          ++ insert_tail IsWildcard stmt indexes)).
  { unfold InsertStmt_build, insert_source, insert_tail. cbv zeta.
    rewrite Hoc, Hnames, index_insert_loop_spec by exact Hinfos.
    unfold Pipe, stream_New.
    destruct (Source stmt) as [values|sel]; [|destruct (Fields stmt)];
      (destruct (Returning stmt) as [exprs|]; [destruct (wildcard_only IsWildcard exprs)|]);
      rewrite <- ?app_assoc, ?app_nil_r; reflexivity. }
  split; [exact Hbuild|]. split; [|split; [reflexivity|split; [reflexivity|]]].
  - intros -> e Hret Hwild. rewrite Hbuild. unfold insert_tail. rewrite Hret.
    cbn [wildcard_only index_operators]. rewrite Hwild.
    rewrite ?app_nil_r. reflexivity.
  - split; [reflexivity|]. split; [reflexivity|]. split; [reflexivity|].
    split; [reflexivity|].
    intros tokens Hother.
    destruct tokens as [|tok tokens']; [simpl; eauto|].
    destruct tok.
    + destruct tokens' as [|tok2 rest]; [simpl; eauto|].
      destruct tok2; simpl; eauto; exfalso.
      * destruct (Hother rest) as (H & _). now apply H.
      * destruct (Hother rest) as (_ & _ & H & _). now apply H.
    + simpl; eauto.
    + exfalso. destruct (Hother tokens') as (_ & H & _). now apply H.
    + exfalso. destruct (Hother tokens') as (_ & _ & _ & H). now apply H.
    + simpl; eauto.
Qed.

(** C5: the stream of a DELETE is exactly the scan of the table, then
    [Filter] if WHERE is present, [TempTreeSort] if ORDER BY is present,
    [Skip] if OFFSET is present, [Take] if LIMIT is present, in this order,
    then [TableDelete], and nothing else. *)
Theorem C5_DeleteStmt_stream (stmt : @DeleteStmt Expr) :
  DeleteStmt_build stmt = delete_stream stmt /\
  forall (t : string) (w o : Expr) (r : bool) (off lim : Z),
    DeleteStmt_build {| DeleteStmt_TableName := t; DeleteStmt_WhereExpr := Some w;
                        OrderBy := Some o; OrderByReverse := r;
                        OffsetExpr := Some off; LimitExpr := Some lim |}
    = [table_Scan t; rows_Filter w; rows_TempTreeSort o r; rows_Skip off; rows_Take lim;
       table_Delete t].
Proof.
  split; [|reflexivity].
  unfold DeleteStmt_build, delete_stream, optional, Pipe, stream_New.
  destruct (DeleteStmt_WhereExpr stmt), (OrderBy stmt), (OffsetExpr stmt), (LimitExpr stmt);
    reflexivity.
Qed.

End InsertDelete.

(** *** DROP *)

Section Drop.

Context {Tx : Type} {catalog : Catalog Tx}.

(** C7: [DropSequenceStmt.Run] on a named sequence returns an error when
    the sequence exists and a table owns it, with or without IF EXISTS,
    whatever the catalog writer would do: the writer is not called and the
    catalog stays as it was.  When the sequence exists and nobody owns it,
    [Run] calls the writer and returns its catalog and its error, a
    NotFound being hidden by IF EXISTS; so the drop succeeds when the
    writer drops the sequence.  When the sequence does not exist, [Run]
    returns the NotFound error, or succeeds if IF EXISTS is given. *)
Theorem C7_DropSequenceStmt_Run (stmt : DropSequenceStmt) (tx : Tx) :
  SequenceName stmt <> ""%string ->
  (forall seq,
     GetSequence tx (SequenceName stmt) = inl seq ->
     Owner_TableName (SequenceInfo_Owner (Sequence_Info seq)) <> ""%string ->
     DropSequenceStmt_Run stmt tx
     = ((mkResult,
         Some (ErrMsg (cannot_drop_sequence
                         (SequenceInfo_Name (Sequence_Info seq))
                         (Owner_TableName (SequenceInfo_Owner (Sequence_Info seq)))))), tx)) /\
  (forall seq,
     GetSequence tx (SequenceName stmt) = inl seq ->
     Owner_TableName (SequenceInfo_Owner (Sequence_Info seq)) = ""%string ->
     DropSequenceStmt_Run stmt tx
     = ((mkResult,
         match fst (DropSequence (SequenceName stmt) tx) with
         | Some err => if IsNotFoundError err && DropSequenceStmt_IfExists stmt
                       then None else Some err
         | None => None
         end), snd (DropSequence (SequenceName stmt) tx)) /\
     (fst (DropSequence (SequenceName stmt) tx) = None ->
      DropSequenceStmt_Run stmt tx
      = ((mkResult, None), snd (DropSequence (SequenceName stmt) tx)))) /\
  (forall err,
     GetSequence tx (SequenceName stmt) = inr err ->
     IsNotFoundError err = true ->
     DropSequenceStmt_Run stmt tx
     = ((mkResult, if DropSequenceStmt_IfExists stmt then None else Some err), tx)).
Proof.
  intros Hname.
  assert (Hne : String.eqb (SequenceName stmt) "" = false) by now apply String.eqb_neq.
  split; [|split].
  - intros seq Hget Howner. unfold DropSequenceStmt_Run. rewrite Hne, Hget.
    apply String.eqb_neq in Howner. now rewrite Howner.
  - intros seq Hget Howner.
    assert (Hrun : DropSequenceStmt_Run stmt tx
                   = ((mkResult,
                       match fst (DropSequence (SequenceName stmt) tx) with
                       | Some err => if IsNotFoundError err && DropSequenceStmt_IfExists stmt
                                     then None else Some err
                       | None => None
                       end), snd (DropSequence (SequenceName stmt) tx))).
    { unfold DropSequenceStmt_Run. rewrite Hne, Hget, Howner. cbn [String.eqb negb].
      now destruct (DropSequence (SequenceName stmt) tx) as [[err|] tx']. }
    split; [exact Hrun|]. intros Hdrop. now rewrite Hrun, Hdrop.
  - intros err Hget Hnf. unfold DropSequenceStmt_Run. rewrite Hne, Hget, Hnf.
    reflexivity.
Qed.

(** C10: when [DropTableStmt.Run] has dropped the table, it goes on to
    drop the sequence named [Info.RowidSequenceName] if the table has no
    primary key, and its result is the result of that drop; if the table
    has a primary key it stops there: the catalog is the one the table
    drop left, and every sequence lookup answers as it did right after the
    table drop. *)
Theorem C10_DropTableStmt_Run_rowid_sequence
    (stmt : DropTableStmt) (tx tx1 : Tx) (tb : Table) :
  DropTableStmt_TableName stmt <> ""%string ->
  GetTable tx (DropTableStmt_TableName stmt) = inl tb ->
  DropTable (DropTableStmt_TableName stmt) tx = (None, tx1) ->
  (TableInfo_PrimaryKey (Table_Info tb) = None ->
   DropTableStmt_Run stmt tx
   = ((mkResult, fst (DropSequence (RowidSequenceName (Table_Info tb)) tx1)),
      snd (DropSequence (RowidSequenceName (Table_Info tb)) tx1))) /\
  (TableInfo_PrimaryKey (Table_Info tb) <> None ->
   DropTableStmt_Run stmt tx = ((mkResult, None), tx1) /\
   forall name, GetSequence (snd (DropTableStmt_Run stmt tx)) name = GetSequence tx1 name).
Proof.
  intros Hname Hget Hdrop.
  assert (Hne : String.eqb (DropTableStmt_TableName stmt) "" = false)
    by now apply String.eqb_neq.
  unfold DropTableStmt_Run. rewrite Hne, Hget, Hdrop. split.
  - intros ->. destruct (DropSequence _ tx1) as [[err|] tx2]; reflexivity.
  - intros Hpk. destruct (TableInfo_PrimaryKey (Table_Info tb)); [|now contradiction Hpk].
    split; reflexivity.
Qed.

End Drop.

(** *** The statements on a concrete catalog *)

Section Concrete.
Import instances.

Lemma tx0_test_indexes : indexes_of tx0 "test" test_indexes.
Proof. split; [reflexivity|]. repeat constructor. Qed.

Lemma tx0_test_info : GetTableInfo tx0 "test" = inl test_info.
Proof. vm_compute. reflexivity. Qed.

Lemma tx0_logs_indexes : indexes_of tx0 "logs" [].
Proof. split; [reflexivity|constructor]. Qed.

Lemma tx_parser_test_indexes : indexes_of tx_parser "test" [].
Proof. split; [reflexivity|constructor]. Qed.

(** The test "set primary key": a SET pair touches the key, so the row is
    deleted and inserted. *)
Example UpdateStmt_build_set_pk :
  UpdateStmt_build update_set_pk tx0
  = inl [table_Scan "test"; rows_Filter "a = 1"%string;
         path_Set [FieldName "a"] "2"%string; path_Set [FieldName "b"] "20"%string;
         table_Validate "test";
         index_Delete "idx_test_a"; index_Delete "idx_test_c";
         table_Delete "test"; table_Insert "test";
         index_Validate "idx_test_a"; index_Insert "idx_test_a";
         index_Insert "idx_test_c";
         stream_Discard].
Proof. vm_compute. reflexivity. Qed.

(** The test "unset composite primary key". *)
Example UpdateStmt_build_unset_b :
  UpdateStmt_build update_unset_b tx0 = inr (ErrMsg "cannot unset primary key path").
Proof. vm_compute. reflexivity. Qed.

(** The test "WithOrderByThenLimitThenOffset". *)
Example DeleteStmt_build_all_clauses :
  DeleteStmt_build delete_all_clauses
  = [table_Scan "test"; rows_Filter "age = 10"%string; rows_TempTreeSort "age"%string false;
     rows_Skip 20; rows_Take 10; table_Delete "test"].
Proof. reflexivity. Qed.

(** The test "Select / With fields / With projection / different fields /
    On conflict / Returning". *)
Example InsertStmt_build_select_on_conflict :
  InsertStmt_build is_wildcard insert_select_on_conflict tx0
  = inl [table_Scan "foo"; rows_Project ["c"%string; "d"%string];
         path_PathsRename ["a"%string; "b"%string];
         table_Validate "logs"; stream_OnConflict None; table_Insert "logs";
         rows_Project ["a"%string]].
Proof. vm_compute. reflexivity. Qed.

(** The tests "Values / ON CONFLICT DO NOTHING", "IGNORE", "DO REPLACE" and
    "REPLACE", all with [RETURNING *]: the stream ends at [TableInsert]. *)
Example InsertStmt_build_values_on_conflict :
  InsertStmt_build is_wildcard (insert_values_on_conflict OnConflictDoNothing) tx_parser
  = inl [rows_Emit ["{a: 'c', b: 'd'}"%string]; table_Validate "test";
         stream_OnConflict None; table_Insert "test"] /\
  InsertStmt_build is_wildcard (insert_values_on_conflict OnConflictDoReplace) tx_parser
  = inl [rows_Emit ["{a: 'c', b: 'd'}"%string]; table_Validate "test";
         stream_OnConflict (Some [table_Replace "test"]); table_Insert "test"].
Proof. split; vm_compute; reflexivity. Qed.

(** The tests "Values / Returning" and "Values / With fields". *)
Example InsertStmt_build_values_returning :
  InsertStmt_build is_wildcard insert_values_returning tx_parser
  = inl [rows_Emit ["{a: 'c', b: 'd'}"%string]; table_Validate "test"; table_Insert "test";
         rows_Project ["*"%string; "a"%string; "b as B"%string; "c"%string]] /\
  InsertStmt_build is_wildcard insert_values tx_parser
  = inl [rows_Emit ["{a: 'c', b: 'd'}"%string]; table_Validate "test"; table_Insert "test";
         stream_Discard].
Proof. split; vm_compute; reflexivity. Qed.

(** The tests "ON CONFLICT BLA" and "ON CONFLICT DO BLA". *)
Example parseOnConflict_BLA :
  parseOnConflict [IDENT "BLA"] = inr (ParseError "ON CONFLICT") /\
  parseOnConflict [DO; IDENT "BLA"] = inr (ParseError "ON CONFLICT").
Proof. split; reflexivity. Qed.

(** [DROP SEQUENCE IF EXISTS logs_seq] fails: the table [logs] owns it. *)
Example DropSequenceStmt_Run_owned :
  DropSequenceStmt_Run {| SequenceName := "logs_seq"; DropSequenceStmt_IfExists := true |} tx0
  = ((mkResult,
      Some (ErrMsg "cannot drop sequence logs_seq because constraint of table logs requires it")),
     tx0).
Proof. vm_compute. reflexivity. Qed.

(** [DROP TABLE logs] drops the rowid sequence of [logs]; [DROP TABLE test]
    drops no sequence. *)
Example DropTableStmt_Run_logs :
  fst (DropTableStmt_Run {| DropTableStmt_TableName := "logs"; DropTableStmt_IfExists := false |} tx0)
  = (mkResult, None) /\
  sequences (snd (DropTableStmt_Run {| DropTableStmt_TableName := "logs";
                                       DropTableStmt_IfExists := false |} tx0)) !! "logs_seq"
  = None.
Proof. split; vm_compute; reflexivity. Qed.

Example DropTableStmt_Run_test :
  fst (DropTableStmt_Run {| DropTableStmt_TableName := "test"; DropTableStmt_IfExists := false |} tx0)
  = (mkResult, None) /\
  sequences (snd (DropTableStmt_Run {| DropTableStmt_TableName := "test";
                                       DropTableStmt_IfExists := false |} tx0))
  = sequences tx0.
Proof. split; vm_compute; reflexivity. Qed.

Lemma C3_witness :
  GetTableInfo tx0 "test" = inl test_info /\
  indexes_of tx0 "test" test_indexes /\
  exists pkModified : bool,
    UpdateStmt_build update_set_pk tx0 = inl (update_stream update_set_pk test_indexes pkModified).
Proof.
  split; [reflexivity|]. split; [exact tx0_test_indexes|].
  destruct (C3_UpdateStmt_Prepare_stream text_Prepare update_set_pk tx0 test_info test_indexes
              tx0_test_info tx0_test_indexes)
    as (pkModified & _ & Hbuild & _).
  - intros names name pk Hset. discriminate Hset.
  - exists pkModified. exact Hbuild.
Defined.

Lemma C6_witness :
  GetTableInfo tx0 "test" = inl test_info /\
  In (NewPath "b") [[FieldName "a"]; [FieldName "b"]] /\
  UpdateStmt_Prepare text_Prepare update_unset_b tx0
  = inr (ErrMsg "cannot unset primary key path").
Proof.
  split; [reflexivity|]. split; [right; left; reflexivity|].
  apply (C6_unset_primary_key_path_fails text_Prepare update_unset_b tx0 test_info
           {| Paths := [[FieldName "a"]; [FieldName "b"]] |} ["b"%string] "b"%string).
  - exact tx0_test_info.
  - reflexivity.
  - reflexivity.
  - reflexivity.
  - left. reflexivity.
  - right. left. reflexivity.
Defined.

Lemma C4_witness :
  OnConflict (insert_values_on_conflict OnConflictDoReplace) = Some OnConflictDoReplace /\
  indexes_of tx_parser "test" [] /\
  InsertStmt_build is_wildcard (insert_values_on_conflict OnConflictDoReplace) tx_parser
  = inl [rows_Emit ["{a: 'c', b: 'd'}"%string]; table_Validate "test";
         stream_OnConflict (Some [table_Replace "test"]); table_Insert "test"] /\
  InsertStmt_build is_wildcard insert_select_on_conflict tx0
  = inl (insert_source insert_select_on_conflict
         ++ [table_Validate "logs"; stream_OnConflict None; table_Insert "logs"]
         ++ [rows_Project ["a"%string]]).
Proof.
  split; [reflexivity|]. split; [exact tx_parser_test_indexes|]. split.
  - destruct (C4_OnConflict_between_TableValidate_and_TableInsert
                is_wildcard (insert_values_on_conflict OnConflictDoReplace) tx_parser
                OnConflictDoReplace [] eq_refl tx_parser_test_indexes) as (_ & Hstar & _).
    exact (Hstar eq_refl "*"%string eq_refl eq_refl).
  - exact (proj1 (C4_OnConflict_between_TableValidate_and_TableInsert
                    is_wildcard insert_select_on_conflict tx0 OnConflictDoNothing []
                    eq_refl tx0_logs_indexes)).
Defined.

Lemma C7_witness :
  SequenceName {| SequenceName := "logs_seq"; DropSequenceStmt_IfExists := true |} <> ""%string /\
  DropSequenceStmt_Run {| SequenceName := "logs_seq"; DropSequenceStmt_IfExists := true |} tx0
  = ((mkResult, Some (ErrMsg (cannot_drop_sequence "logs_seq" "logs"))), tx0) /\
  DropSequenceStmt_Run {| SequenceName := "counter"; DropSequenceStmt_IfExists := false |} tx0
  = ((mkResult, None), snd (DropSequence "counter" tx0)) /\
  DropSequenceStmt_Run {| SequenceName := "nope"; DropSequenceStmt_IfExists := true |} tx0
  = ((mkResult, None), tx0) /\
  DropSequenceStmt_Run {| SequenceName := "nope"; DropSequenceStmt_IfExists := false |} tx0
  = ((mkResult, Some (NotFoundError "nope")), tx0).
Proof.
  split; [discriminate|]. split; [|split; [|split]].
  - destruct (C7_DropSequenceStmt_Run
                {| SequenceName := "logs_seq"; DropSequenceStmt_IfExists := true |} tx0)
      as (Howned & _); [discriminate|].
    apply (Howned {| Sequence_Info := {| SequenceInfo_Name := "logs_seq";
                                         SequenceInfo_Owner := {| Owner_TableName := "logs" |} |} |});
      [reflexivity | discriminate].
  - destruct (C7_DropSequenceStmt_Run
                {| SequenceName := "counter"; DropSequenceStmt_IfExists := false |} tx0)
      as (_ & Hunowned & _); [discriminate|].
    apply (Hunowned {| Sequence_Info := {| SequenceInfo_Name := "counter";
                                           SequenceInfo_Owner := {| Owner_TableName := "" |} |} |});
      reflexivity.
  - destruct (C7_DropSequenceStmt_Run
                {| SequenceName := "nope"; DropSequenceStmt_IfExists := true |} tx0)
      as (_ & _ & Hmissing); [discriminate|].
    apply (Hmissing (NotFoundError "nope")); reflexivity.
  - destruct (C7_DropSequenceStmt_Run
                {| SequenceName := "nope"; DropSequenceStmt_IfExists := false |} tx0)
      as (_ & _ & Hmissing); [discriminate|].
    apply (Hmissing (NotFoundError "nope")); reflexivity.
Defined.

Lemma C10_witness :
  GetTable tx0 "logs" = inl {| Table_Info := logs_info |} /\
  DropTable "logs" tx0 = (None, snd (DropTable "logs" tx0)) /\
  DropTableStmt_Run {| DropTableStmt_TableName := "logs"; DropTableStmt_IfExists := false |} tx0
  = ((mkResult, fst (DropSequence "logs_seq" (snd (DropTable "logs" tx0)))),
     snd (DropSequence "logs_seq" (snd (DropTable "logs" tx0)))).
Proof.
  split; [reflexivity|]. split; [reflexivity|].
  refine (proj1 (C10_DropTableStmt_Run_rowid_sequence
                   {| DropTableStmt_TableName := "logs"; DropTableStmt_IfExists := false |}
                   tx0 (snd (DropTable "logs" tx0)) {| Table_Info := logs_info |} _ _ _) _).
  - discriminate.
  - reflexivity.
  - reflexivity.
  - reflexivity.
Defined.

End Concrete.

End statement_facts.

(** ** More on stores and trees *)

Module tree_more.
Import kv tree range_spec tree_document order_spec tree_facts.

(** *** The order of byte strings *)

Lemma bytes_compare_eq (x y : bytes) : bytes_compare x y = Eq -> x = y.
Proof.
  revert y. induction x as [|a x IH]; intros [|b y]; simpl; try discriminate; auto.
  destruct (byte_compare a b) eqn:Hab; try discriminate.
  intros H. apply byte_compare_eq in Hab. subst b. f_equal. now apply IH.
Qed.

Lemma byte_compare_lt_trans (a b c : byte) :
  byte_compare a b = Lt -> byte_compare b c = Lt -> byte_compare a c = Lt.
Proof. unfold byte_compare. rewrite !N.compare_lt_iff. apply N.lt_trans. Qed.

Lemma bytes_lt_trans (x y z : bytes) : bytes_lt x y -> bytes_lt y z -> bytes_lt x z.
Proof.
  unfold bytes_lt, bytes_ltb. revert y z.
  induction x as [|a x IH]; intros [|b y] [|c z]; simpl; try discriminate; auto.
  destruct (byte_compare a b) eqn:Hab; try discriminate;
    destruct (byte_compare b c) eqn:Hbc; try discriminate.
  - apply byte_compare_eq in Hab, Hbc. subst b c. rewrite byte_compare_refl. apply IH.
  - apply byte_compare_eq in Hab. subst b. now rewrite Hbc.
  - apply byte_compare_eq in Hbc. subst c. now rewrite Hab.
  - now rewrite (byte_compare_lt_trans a b c Hab Hbc).
Qed.

Lemma bytes_ltb_irrefl (x : bytes) : bytes_ltb x x = false.
Proof. unfold bytes_ltb. now rewrite bytes_compare_refl. Qed.

Lemma bytes_leb_ltb_trans (x y z : bytes) :
  bytes_leb x y = true -> bytes_ltb y z = true -> bytes_ltb x z = true.
Proof.
  unfold bytes_leb. intros Hxy Hyz. destruct (bytes_compare x y) eqn:Hc; try discriminate.
  - apply bytes_compare_eq in Hc. now subst y.
  - apply (bytes_lt_trans x y z); [|exact Hyz]. unfold bytes_lt, bytes_ltb. now rewrite Hc.
Qed.

Lemma in_bounds_lt (lo up y : bytes) : in_bounds lo up y = true -> bytes_ltb lo up = true.
Proof.
  unfold in_bounds. intros H. apply andb_true_iff in H as [Hl Hu].
  eapply bytes_leb_ltb_trans; eauto.
Qed.

Lemma bytes_compare_gt_lt (x y : bytes) : bytes_compare x y = Gt -> bytes_lt y x.
Proof.
  intros H. unfold bytes_lt, bytes_ltb. rewrite (bytes_compare_antisym x y), H. reflexivity.
Qed.

(** *** The store as a map *)

Lemma store_get_put_eq (k v : bytes) (s : Store) : store_get k (store_put k v s) = Some v.
Proof.
  induction s as [|[k' v'] s IH]; simpl.
  - now rewrite bytes_compare_refl.
  - destruct (bytes_compare k k') eqn:Hc; simpl.
    + now rewrite bytes_compare_refl.
    + now rewrite bytes_compare_refl.
    + now rewrite Hc.
Qed.

Lemma store_get_cons_ne (k' k v : bytes) (s : Store) :
  k' <> k -> store_get k' ((k, v) :: s) = store_get k' s.
Proof.
  intros Hne. simpl. destruct (bytes_compare k' k) eqn:Hc; try reflexivity.
  apply bytes_compare_eq in Hc. contradiction.
Qed.

Lemma store_get_put_ne (k' k v : bytes) (s : Store) :
  k' <> k -> store_get k' (store_put k v s) = store_get k' s.
Proof.
  intros Hne. induction s as [|[k0 v0] s IH].
  - simpl store_put. now apply store_get_cons_ne.
  - simpl store_put. destruct (bytes_compare k k0) eqn:Hc.
    + apply bytes_compare_eq in Hc. subst k0. now rewrite !store_get_cons_ne.
    + now rewrite store_get_cons_ne.
    + simpl. now rewrite IH.
Qed.

Lemma has_key_cons (k0 v0 k' : bytes) (s : Store) :
  has_key ((k0, v0) :: s) k' <-> k' = k0 \/ has_key s k'.
Proof.
  unfold has_key. simpl. split.
  - intros (w & [H | H]); [left; congruence | right; eauto].
  - intros [-> | (w & H)]; eauto.
Qed.

Lemma has_key_store_put (k v k' : bytes) (s : Store) :
  has_key (store_put k v s) k' <-> k' = k \/ has_key s k'.
Proof.
  induction s as [|[k0 v0] s IH]; simpl.
  - apply has_key_cons.
  - destruct (bytes_compare k k0) eqn:Hc.
    + apply bytes_compare_eq in Hc. subst k0. rewrite !has_key_cons. tauto.
    + rewrite !has_key_cons. tauto.
    + rewrite !has_key_cons, IH. tauto.
Qed.

Lemma store_put_ordered (k v : bytes) (s : Store) :
  store_ordered s -> store_ordered (store_put k v s).
Proof.
  unfold store_ordered. induction s as [|[k0 v0] s IH]; intros Hs; simpl.
  - repeat constructor.
  - simpl in Hs. apply Sorted_inv in Hs as [Hs Hhd].
    destruct (bytes_compare k k0) eqn:Hc; simpl.
    + apply bytes_compare_eq in Hc. subst k0. now constructor.
    + constructor; [now constructor|]. constructor. unfold bytes_lt, bytes_ltb. now rewrite Hc.
    + constructor; [now apply IH|].
      apply bytes_compare_gt_lt in Hc.
      destruct s as [|[k1 v1] s]; simpl.
      * now constructor.
      * apply HdRel_inv in Hhd. destruct (bytes_compare k k1); simpl; now constructor.
Qed.

(** *** Put and Get *)

Section PutGet.

Context {Doc : Type}.

(** A document written with [Put] is read back by [Get]: the store holds
    the encoded bytes (the byte [0x00] for a nil document) at the key,
    [Exists] reports the key, and the lazily decoding document [Get]
    returns decodes to exactly what [Put] returned, be it a document or
    the error of the codec. *)
Theorem Put_then_Get_roundtrip
    (t : @Tree Doc) (ns : kv.Namespace) (key : Key) (doc : option Doc) (enc : bytes)
    (s : Store) :
  TransientStore t = None ->
  Namespace t = Some ns ->
  match doc with Some d' => Encode (Codec_ t) d' | None => inl [Byte.x00] end = inl enc ->
  exists s',
    Put t key doc s = Returns (Decode (Codec_ t) enc, s') /\
    Get t key s' = Returns (inl {| codec := Codec_ t; encoded := enc; d := None |}) /\
    Exists t key s' = Returns (inl true) /\
    decode {| codec := Codec_ t; encoded := enc; d := None |}
    = match Decode (Codec_ t) enc with
      | inl v => inl ({| codec := Codec_ t; encoded := enc; d := Some v |}, v)
      | inr err => inr err
      end.
Proof.
  intros Hts Hns Henc. exists (Namespace_Put ns key enc s).
  split; [|split; [|split]].
  - unfold Put. destruct doc as [d'|]; [rewrite Henc | injection Henc as <-];
      now rewrite Hts, Hns.
  - unfold Get, Namespace_Get, Namespace_Put. now rewrite Hts, Hns, store_get_put_eq.
  - unfold Exists, Namespace_Exists, Namespace_Put. now rewrite Hts, Hns, store_get_put_eq.
  - reflexivity.
Qed.

(** [Put] changes one key only: every other key of the namespace is read
    as before, and the store stays in ascending key order. *)
Theorem Put_leaves_the_other_keys
    (t : @Tree Doc) (ns : kv.Namespace) (key : Key) (doc : option Doc) (s s' : Store)
    (r : Doc + error) :
  TransientStore t = None ->
  Namespace t = Some ns ->
  Put t key doc s = Returns (r, s') ->
  (forall key', key' <> key ->
     Get t key' s' = Get t key' s /\ Exists t key' s' = Exists t key' s) /\
  (store_ordered s -> store_ordered s').
Proof.
  intros Hts Hns HPut.
  assert (Hs' : s' = s \/ exists enc, s' = store_put (BuildKey (ID ns) key) enc s).
  { unfold Put in HPut. rewrite Hts, Hns in HPut.
    destruct (match doc with Some d' => Encode (Codec_ t) d' | None => inl [Byte.x00] end)
      as [enc|err]; injection HPut as _ <-; [right; now exists enc | now left]. }
  split.
  - intros key' Hne.
    destruct Hs' as [-> | (enc & ->)]; [now split|].
    assert (Hk : BuildKey (ID ns) key' <> BuildKey (ID ns) key).
    { unfold BuildKey. intros H. now apply app_inv_head in H. }
    unfold Get, Exists, Namespace_Get, Namespace_Exists.
    now rewrite Hts, Hns, (store_get_put_ne _ _ enc s Hk).
  - intros Hord. destruct Hs' as [-> | (enc & ->)]; [exact Hord|].
    now apply store_put_ordered.
Qed.

End PutGet.

(** *** Scans *)

Lemma store_put_length (k v : bytes) (s : Store) :
  (length (store_put k v s) <= S (length s))%nat.
Proof.
  induction s as [|[k0 v0] s IH]; simpl; [lia|].
  destruct (bytes_compare k k0); simpl; lia.
Qed.

Lemma filter_none {X : Type} (f : X -> bool) (l : list X) :
  (forall x, In x l -> f x = false) -> List.filter f l = [].
Proof.
  induction l as [|x l IH]; intros H; simpl; [reflexivity|].
  rewrite (H x) by now left. apply IH. intros y Hy. apply H. now right.
Qed.

Lemma trim_entries_nil (l : list (bytes * bytes)) : trim_entries [] l = l.
Proof. unfold trim_entries. induction l as [|[k v] l IH]; simpl; [reflexivity|]. now rewrite IH. Qed.

Lemma trim_entries_rev (prefix : bytes) (l : list (bytes * bytes)) :
  trim_entries prefix (rev l) = rev (trim_entries prefix l).
Proof. unfold trim_entries. apply map_rev. Qed.

Lemma exposed_reverse (st en : bytes) (s : Store) :
  exposed st en true s = rev (exposed st en false s).
Proof. reflexivity. Qed.

Lemma call_each_app {Doc A : Type} (cdc : @Codec Doc) (fn : @Callback Doc A)
    (l1 l2 : list (Key * bytes)) (a : A) :
  call_each cdc fn (l1 ++ l2) a
  = match call_each cdc fn l1 a with
    | (a1, None) => call_each cdc fn l2 a1
    | (a1, Some err) => (a1, Some err)
    end.
Proof.
  revert a. induction l1 as [|[k v] l1 IH]; intros a; simpl; [reflexivity|].
  destruct (fn k _ a) as [a' [err|]]; [reflexivity|]. apply IH.
Qed.

Lemma StronglySorted_app {X : Type} (R : X -> X -> Prop) (l1 l2 : list X) :
  StronglySorted R l1 -> StronglySorted R l2 ->
  (forall x y, In x l1 -> In y l2 -> R x y) ->
  StronglySorted R (l1 ++ l2).
Proof.
  induction l1 as [|a l1 IH]; intros H1 H2 H12; simpl; [exact H2|].
  apply StronglySorted_inv in H1 as [H1 Ha]. constructor.
  - apply IH; auto. intros x y Hx Hy. apply H12; [now right | exact Hy].
  - apply Forall_app. split; [exact Ha|].
    apply List.Forall_forall. intros y Hy. apply H12; [now left | exact Hy].
Qed.

Lemma StronglySorted_rev {X : Type} (R : X -> X -> Prop) (l : list X) :
  StronglySorted R l -> StronglySorted (fun x y => R y x) (rev l).
Proof.
  induction l as [|a l IH]; intros H; simpl; [constructor|].
  apply StronglySorted_inv in H as [H Ha].
  apply StronglySorted_app; [now apply IH | repeat constructor |].
  intros x y Hx [<- | []]. apply in_rev in Hx.
  now apply (proj1 (List.Forall_forall _ _) Ha).
Qed.

(** The keys of the entries that pass a filter, with a common prefix cut
    off, are in the order of the keys of the store. *)
Lemma trimmed_filter_ascending (p : bytes) (f : bytes * bytes -> bool) (s : Store) :
  StronglySorted bytes_lt (map fst s) ->
  (forall kv, In kv s -> f kv = true -> HasPrefix (fst kv) p = true) ->
  StronglySorted bytes_lt (map fst (trim_entries p (List.filter f s))).
Proof.
  induction s as [|[k v] s IH]; intros Hs Hp; simpl; [constructor|].
  simpl in Hs. apply StronglySorted_inv in Hs as [Hs Hk].
  assert (IH' : StronglySorted bytes_lt (map fst (trim_entries p (List.filter f s)))).
  { apply IH; [exact Hs|]. intros kv Hin. apply Hp. now right. }
  destruct (f (k, v)) eqn:Hf; [|exact IH'].
  simpl. constructor; [exact IH'|].
  apply List.Forall_forall. intros x Hx.
  unfold trim_entries in Hx. rewrite map_map in Hx. apply in_map_iff in Hx as ([k' v'] & <- & Hin).
  apply filter_In in Hin as [Hin Hf']. cbn [fst].
  destruct (HasPrefix_inv _ _ (Hp (k, v) (or_introl eq_refl) Hf)) as [x0 Hx0].
  destruct (HasPrefix_inv _ _ (Hp (k', v') (or_intror Hin) Hf')) as [x1 Hx1].
  cbn [fst] in Hx0, Hx1. subst k k'. rewrite !TrimPrefix_app.
  assert (Hlt : bytes_lt (p ++ x0) (p ++ x1)).
  { apply (proj1 (List.Forall_forall _ _) Hk). apply in_map_iff. now exists (p ++ x1, v'). }
  unfold bytes_lt, bytes_ltb in *. now rewrite bytes_compare_app_l in Hlt.
Qed.

Lemma store_ordered_strongly (s : Store) :
  store_ordered s -> StronglySorted bytes_lt (map fst s).
Proof.
  apply Sorted_StronglySorted. intros x y z. apply bytes_lt_trans.
Qed.

Section Scans.

Context {Doc : Type}.

(** On a store in ascending key order, [IterateOnRange] on a
    namespace-backed tree calls [fn] on keys in strictly ascending order,
    and in strictly descending order when [reverse] is set: the reverse
    scan calls [fn] on the same entries, last first. *)
Theorem IterateOnRange_keys_in_order
    {A : Type} (D : byte) (ns : kv.Namespace) (cdc : @Codec Doc) (rng : Range)
    (fn : @Callback Doc A) (s : Store) (a : A) (fuel : nat) :
  NamespaceID_wf (ID ns) ->
  store_ordered s ->
  (length s < fuel)%nat ->
  let t := New ns cdc in
  exists entries : list (Key * bytes),
    IterateOnRange D fuel t (Some rng) false fn s a
    = Some (Returns (call_each cdc fn entries a)) /\
    IterateOnRange D fuel t (Some rng) true fn s a
    = Some (Returns (call_each cdc fn (rev entries) a)) /\
    ascending (map fst entries) /\
    descending (map fst (rev entries)).
Proof.
  intros Hwf Hord Hfuel t.
  exists (trim_entries (id_prefix (ID ns))
            (exposed (range_start D t rng) (range_end D t rng) false s)).
  assert (Hasc : ascending (map fst (trim_entries (id_prefix (ID ns))
                   (exposed (range_start D t rng) (range_end D t rng) false s)))).
  { unfold ascending, exposed. apply trimmed_filter_ascending.
    - now apply store_ordered_strongly.
    - intros kv _ Hb. unfold t in Hb. rewrite range_start_New, range_end_New in Hb.
      eapply in_bounds_in_namespace; eauto. }
  split; [|split; [|split]].
  - unfold t. rewrite IterateOnRange_eq; [|right; discriminate|exact Hfuel].
    now rewrite buildKey_New, app_nil_r.
  - unfold t. rewrite IterateOnRange_eq; [|right; discriminate|exact Hfuel].
    now rewrite buildKey_New, app_nil_r, exposed_reverse, trim_entries_rev.
  - exact Hasc.
  - unfold descending. rewrite map_rev. now apply StronglySorted_rev.
Qed.

(** When [fn] returns an error, [IterateOnRange] returns it at once: the
    state of the callback is the one that call left, and the entries after
    it are not visited. *)
Theorem IterateOnRange_stops_at_the_first_error
    {A : Type} (D : byte) (fuel : nat) (t : @Tree Doc) (rng : Range) (reverse : bool)
    (fn : @Callback Doc A) (s : Store) (a a1 a2 : A)
    (before after : list (Key * bytes)) (k v : bytes) (err : error) :
  (TransientStore t <> None \/ Namespace t <> None) ->
  (length s < fuel)%nat ->
  trim_entries (buildKey t []) (exposed (range_start D t rng) (range_end D t rng) reverse s)
  = before ++ (k, v) :: after ->
  call_each (Codec_ t) fn before a = (a1, None) ->
  fn k {| codec := Codec_ t; encoded := v; d := None |} a1 = (a2, Some err) ->
  IterateOnRange D fuel t (Some rng) reverse fn s a = Some (Returns (a2, Some err)).
Proof.
  intros Hbacked Hfuel Hsplit Hbefore Hfail.
  rewrite IterateOnRange_eq by assumption.
  rewrite Hsplit, call_each_app, Hbefore. simpl. now rewrite Hfail.
Qed.

(** A range whose start is not below its end visits nothing: [fn] is not
    called.  This is the case of an exclusive range whose min and max are
    the same key. *)
Theorem IterateOnRange_crossing_bounds
    {A : Type} (D : byte) (fuel : nat) (t : @Tree Doc) (rng : Range) (reverse : bool)
    (fn : @Callback Doc A) (s : Store) (a : A) :
  (TransientStore t <> None \/ Namespace t <> None) ->
  (length s < fuel)%nat ->
  (bytes_ltb (range_start D t rng) (range_end D t rng) = false ->
   IterateOnRange D fuel t (Some rng) reverse fn s a = Some (Returns (a, None))) /\
  (forall k, Min rng = Some k -> Max rng = Some k -> Exclusive rng = true ->
   IterateOnRange D fuel t (Some rng) reverse fn s a = Some (Returns (a, None))).
Proof.
  intros Hbacked Hfuel.
  assert (Hcross : bytes_ltb (range_start D t rng) (range_end D t rng) = false ->
                   IterateOnRange D fuel t (Some rng) reverse fn s a = Some (Returns (a, None))).
  { intros Hlt. rewrite IterateOnRange_eq by assumption.
    assert (Hnone : exposed (range_start D t rng) (range_end D t rng) reverse s = []).
    { unfold exposed. rewrite filter_none; [now destruct reverse|].
      intros kv _. destruct (in_bounds _ _ (fst kv)) eqn:Hb; [|reflexivity].
      apply in_bounds_lt in Hb. congruence. }
    now rewrite Hnone. }
  split; [exact Hcross|].
  intros k Hmin Hmax Hexcl. apply Hcross.
  unfold range_start, range_end. rewrite Hmin, Hmax, Hexcl. cbn [negb].
  unfold buildStartKeyExclusive, buildEndKeyExclusive.
  destruct (bytes_ltb (buildKey t k ++ [D; Byte.xff]) (buildKey t k)) eqn:Hlt; [|reflexivity].
  assert (Hle : bytes_leb (buildKey t k) (buildKey t k ++ [D; Byte.xff]) = true)
    by apply bytes_leb_app_r.
  pose proof (bytes_leb_ltb_trans _ _ _ Hle Hlt) as Hirr.
  now rewrite bytes_ltb_irrefl in Hirr.
Qed.

(** A scan of a whole transient tree (a nil range) hands [fn] the stored
    keys as they are, and it leaves out the keys whose first byte is
    [0xFF]: the end of the scan is the key [0xFF]. *)
Theorem transient_tree_scan
    {A : Type} (D : byte) (fuel : nat) (t : @Tree Doc) (ts : kv.TransientStore)
    (reverse : bool) (fn : @Callback Doc A) (s : Store) (a : A) :
  Namespace t = None ->
  TransientStore t = Some ts ->
  (length s < fuel)%nat ->
  exists entries : list (Key * bytes),
    IterateOnRange D fuel t None reverse fn s a
    = Some (Returns (call_each (Codec_ t) fn entries a)) /\
    forall k v, In (k, v) entries <-> In (k, v) s /\ hd_error k <> Some Byte.xff.
Proof.
  intros Hns Hts Hfuel.
  exists (exposed [] [Byte.xff] reverse s). split.
  - change (IterateOnRange D fuel t None reverse fn s a)
      with (IterateOnRange D fuel t (Some {| Min := None; Max := None; Exclusive := false |})
              reverse fn s a).
    rewrite IterateOnRange_eq; [|left; congruence|exact Hfuel].
    unfold range_start, range_end, buildFirstKey, buildLastKey, buildKey. cbn [Min Max Exclusive negb].
    rewrite Hns. now rewrite trim_entries_nil.
  - intros k v. rewrite In_exposed. cbn [fst].
    unfold in_bounds. rewrite bytes_leb_nil. cbn [andb].
    assert (Hk : bytes_ltb k [Byte.xff] = true <-> hd_error k <> Some Byte.xff).
    { unfold bytes_ltb. destruct k as [|b k]; simpl.
      - split; [discriminate|reflexivity].
      - destruct (Byte.byte_eq_dec b Byte.xff) as [-> | Hb].
        + simpl. split; [destruct k; discriminate | intros H; now contradiction H].
        + rewrite (byte_lt_xff b Hb). split; [congruence | reflexivity]. }
    now rewrite Hk.
Qed.

(** After [Put], a scan of the whole namespace visits the key that was
    put and the keys it visited before, and no other key. *)
Theorem Put_adds_its_key_to_a_scan
    (D : byte) (ns : kv.Namespace) (cdc : @Codec Doc) (key : Key) (doc : option Doc)
    (enc : bytes) (s : Store) (fuel : nat) :
  NamespaceID_wf (ID ns) ->
  match doc with Some d' => Encode cdc d' | None => inl [Byte.x00] end = inl enc ->
  (S (length s) < fuel)%nat ->
  let t := New ns cdc in
  exists (s' : Store) (before after : list Key),
    Put t key doc s = Returns (Decode cdc enc, s') /\
    IterateOnRange D fuel t None false record_key s [] = Some (Returns (before, None)) /\
    IterateOnRange D fuel t None false record_key s' [] = Some (Returns (after, None)) /\
    forall x, In x after <-> x = key \/ In x before.
Proof.
  intros Hwf Henc Hfuel t.
  set (full := {| Min := None; Max := None; Exclusive := false |}).
  set (s' := store_put (BuildKey (ID ns) key) enc s).
  assert (Hfull : forall x, in_range D ns None None false x).
  { intros x. split; cbn.
    - apply bytes_leb_app_r.
    - apply Hwf; [apply bytes_leb_app_r | apply HasPrefix_app]. }
  assert (Hlen : (length s' < fuel)%nat).
  { pose proof (store_put_length (BuildKey (ID ns) key) enc s). unfold s'. lia. }
  destruct (visited_spec D ns cdc full false s fuel Hwf ltac:(lia))
    as (before & Hrun & _ & Hbefore).
  destruct (visited_spec D ns cdc full false s' fuel Hwf Hlen)
    as (after & Hrun' & _ & Hafter).
  exists s', before, after. split; [|split; [|split]].
  - unfold Put, t. cbn [Codec_ TransientStore Namespace New].
    destruct doc as [d'|]; [rewrite Henc | injection Henc as <-]; reflexivity.
  - exact Hrun.
  - exact Hrun'.
  - intros x. rewrite Hafter, Hbefore. cbn [Min Max Exclusive full].
    assert (Hst : stored ns s' x <-> x = key \/ stored ns s x).
    { unfold stored, s'. change (has_key (store_put (BuildKey (ID ns) key) enc s)
                                  (BuildKey (ID ns) x)
                                 <-> x = key \/ has_key s (BuildKey (ID ns) x)).
      rewrite has_key_store_put. unfold BuildKey. split.
      - intros [H | H]; [left; now apply app_inv_head in H | now right].
      - intros [-> | H]; [now left | now right]. }
    rewrite Hst. pose proof (Hfull x). pose proof (Hfull key). tauto.
Qed.

End Scans.

(** *** Documents *)

(** A document decodes once: after a successful [decode] the receiver
    holds the decoded document and its bytes and codec are unchanged;
    every later [decode] or method call answers from it, whatever codec
    and bytes the document carries. *)
Theorem decode_is_memoized
    {Doc R : Type} (doc doc' : @Document Doc) (v : Doc) (m : Doc -> R) :
  decode doc = inl (doc', v) ->
  encoded doc' = encoded doc /\ codec doc' = codec doc /\ d doc' = Some v /\
  decode doc' = inl (doc', v) /\
  call m doc' = inl (doc', m v) /\
  forall cdc' enc',
    decode {| codec := cdc'; encoded := enc'; d := d doc' |}
    = inl ({| codec := cdc'; encoded := enc'; d := d doc' |}, v).
Proof.
  unfold decode, call, decode. intros H.
  destruct (d doc) as [v0|] eqn:Hd.
  - injection H as <- <-. rewrite Hd. repeat split; reflexivity.
  - destruct (Decode (codec doc) (encoded doc)) as [v0|err]; [|discriminate].
    injection H as <- <-. repeat split; reflexivity.
Qed.

(** *** On concrete stores *)

Section Witnesses.
Import instances.

Lemma store0_ordered : store_ordered store0.
Proof. unfold store_ordered, store0. simpl. repeat constructor. Qed.

Lemma Put_then_Get_roundtrip_witness :
  TransientStore (New ns1 raw_codec) = None /\
  exists s',
    Put (New ns1 raw_codec) [Byte.x07] (Some [Byte.x2a]) store0 = Returns (inl [Byte.x2a], s') /\
    Get (New ns1 raw_codec) [Byte.x07] s'
    = Returns (inl {| codec := raw_codec; encoded := [Byte.x2a]; d := None |}).
Proof.
  split; [reflexivity|].
  destruct (Put_then_Get_roundtrip (New ns1 raw_codec) ns1 [Byte.x07] (Some [Byte.x2a])
              [Byte.x2a] store0 eq_refl eq_refl eq_refl) as (s' & HPut & HGet & _).
  exists s'. split; [exact HPut | exact HGet].
Defined.

Lemma Put_leaves_the_other_keys_witness :
  Put (New ns1 raw_codec) [Byte.x07] (Some [Byte.x2a]) store0
  = Returns (inl [Byte.x2a], store_put [Byte.x01; Byte.x07] [Byte.x2a] store0) /\
  Get (New ns1 raw_codec) [Byte.x05] (store_put [Byte.x01; Byte.x07] [Byte.x2a] store0)
  = Get (New ns1 raw_codec) [Byte.x05] store0.
Proof.
  split; [reflexivity|].
  destruct (Put_leaves_the_other_keys (New ns1 raw_codec) ns1 [Byte.x07] (Some [Byte.x2a])
              store0 (store_put [Byte.x01; Byte.x07] [Byte.x2a] store0) (inl [Byte.x2a])
              eq_refl eq_refl eq_refl) as (Hframe & _).
  apply (Hframe [Byte.x05]). discriminate.
Defined.

Lemma IterateOnRange_keys_in_order_witness :
  NamespaceID_wf (ID ns1) /\ store_ordered store0 /\ (length store0 < 4)%nat /\
  exists entries : list (Key * bytes),
    IterateOnRange delim 4 (New ns1 raw_codec)
      (Some {| Min := None; Max := None; Exclusive := false |}) false record_key store0 []
    = Some (Returns (call_each raw_codec record_key entries [])) /\
    ascending (map fst entries).
Proof.
  split; [exact ns1_wf|]. split; [exact store0_ordered|]. split; [simpl; lia|].
  destruct (IterateOnRange_keys_in_order delim ns1 raw_codec
              {| Min := None; Max := None; Exclusive := false |} record_key store0 [] 4
              ns1_wf store0_ordered ltac:(simpl; lia)) as (entries & Hrun & _ & Hasc & _).
  exists entries. split; [exact Hrun | exact Hasc].
Defined.

Lemma IterateOnRange_stops_at_the_first_error_witness :
  (length store0 < 4)%nat /\
  IterateOnRange delim 4 (New ns1 raw_codec)
    (Some {| Min := None; Max := None; Exclusive := false |}) false
    (stop_at [Byte.x05; Byte.x1f; Byte.x07]) store0 []
  = Some (Returns ([[Byte.x05]; [Byte.x05; Byte.x1f; Byte.x07]], Some (ErrMsg "stop"))).
Proof.
  split; [simpl; lia|].
  apply (IterateOnRange_stops_at_the_first_error delim 4 (New ns1 raw_codec)
           {| Min := None; Max := None; Exclusive := false |} false
           (stop_at [Byte.x05; Byte.x1f; Byte.x07]) store0 [] [[Byte.x05]]
           [[Byte.x05]; [Byte.x05; Byte.x1f; Byte.x07]]
           [([Byte.x05], [Byte.x00])] [([Byte.x06], [Byte.x00])]
           [Byte.x05; Byte.x1f; Byte.x07] [Byte.x00] (ErrMsg "stop")).
  - right. discriminate.
  - simpl. lia.
  - reflexivity.
  - reflexivity.
  - reflexivity.
Defined.

Lemma IterateOnRange_crossing_bounds_witness :
  (length store0 < 4)%nat /\
  IterateOnRange delim 4 (New ns1 raw_codec)
    (Some {| Min := Some [Byte.x05]; Max := Some [Byte.x05]; Exclusive := true |})
    false record_key store0 []
  = Some (Returns ([], None)).
Proof.
  split; [simpl; lia|].
  destruct (IterateOnRange_crossing_bounds delim 4 (New ns1 raw_codec)
              {| Min := Some [Byte.x05]; Max := Some [Byte.x05]; Exclusive := true |}
              false record_key store0 []) as (_ & Hsame).
  - right. discriminate.
  - simpl. lia.
  - apply (Hsame [Byte.x05]); reflexivity.
Defined.

Lemma transient_tree_scan_witness :
  Namespace (NewTransient mkTransientStore raw_codec) = None /\
  (length [([Byte.x05], [Byte.x00]); ([Byte.xff; Byte.x01], [Byte.x00])] < 3)%nat /\
  exists entries : list (Key * bytes),
    IterateOnRange delim 3 (NewTransient mkTransientStore raw_codec) None false record_key
      [([Byte.x05], [Byte.x00]); ([Byte.xff; Byte.x01], [Byte.x00])] []
    = Some (Returns (call_each raw_codec record_key entries [])) /\
    ~ In ([Byte.xff; Byte.x01], [Byte.x00]) entries.
Proof.
  split; [reflexivity|]. split; [simpl; lia|].
  destruct (transient_tree_scan delim 3 (NewTransient mkTransientStore raw_codec)
              mkTransientStore false record_key
              [([Byte.x05], [Byte.x00]); ([Byte.xff; Byte.x01], [Byte.x00])] []
              eq_refl eq_refl ltac:(simpl; lia)) as (entries & Hrun & Hin).
  exists entries. split; [exact Hrun|].
  intros H. apply Hin in H as [_ H]. now apply H.
Defined.

Lemma Put_adds_its_key_to_a_scan_witness :
  NamespaceID_wf (ID ns1) /\ (S (length store0) < 5)%nat /\
  exists (s' : Store) (before after : list Key),
    Put (New ns1 raw_codec) [Byte.x07] (Some [Byte.x2a]) store0 = Returns (inl [Byte.x2a], s') /\
    IterateOnRange delim 5 (New ns1 raw_codec) None false record_key store0 []
    = Some (Returns (before, None)) /\
    IterateOnRange delim 5 (New ns1 raw_codec) None false record_key s' []
    = Some (Returns (after, None)) /\
    In [Byte.x07] after.
Proof.
  split; [exact ns1_wf|]. split; [simpl; lia|].
  destruct (Put_adds_its_key_to_a_scan delim ns1 raw_codec [Byte.x07] (Some [Byte.x2a])
              [Byte.x2a] store0 5 ns1_wf eq_refl ltac:(simpl; lia))
    as (s' & before & after & HPut & Hb & Ha & Hiff).
  exists s', before, after. repeat split; try assumption.
  apply Hiff. now left.
Defined.

Lemma decode_is_memoized_witness :
  decode {| codec := raw_codec; encoded := [Byte.x2a]; d := None |}
  = inl ({| codec := raw_codec; encoded := [Byte.x2a]; d := Some [Byte.x2a] |}, [Byte.x2a]) /\
  call (@length byte) {| codec := raw_codec; encoded := [Byte.x2a]; d := Some [Byte.x2a] |}
  = inl ({| codec := raw_codec; encoded := [Byte.x2a]; d := Some [Byte.x2a] |}, 1%nat).
Proof.
  split; [reflexivity|].
  destruct (decode_is_memoized {| codec := raw_codec; encoded := [Byte.x2a]; d := None |}
              {| codec := raw_codec; encoded := [Byte.x2a]; d := Some [Byte.x2a] |}
              [Byte.x2a] (@length byte) eq_refl) as (_ & _ & _ & _ & Hcall & _).
  exact Hcall.
Defined.

End Witnesses.

End tree_more.

(** ** Value types *)

Module types_facts.
Import types.

Lemma declared_cases (t : ValueType) :
  (t <= 9)%N ->
  t = AnyValue \/ t = NullValue \/ t = BooleanValue \/ t = IntegerValue \/ t = DoubleValue \/
  t = TimestampValue \/ t = TextValue \/ t = BlobValue \/ t = ArrayValue \/ t = ObjectValue.
Proof. unfold AnyValue, NullValue, BooleanValue, IntegerValue, DoubleValue, TimestampValue,
         TextValue, BlobValue, ArrayValue, ObjectValue. lia. Qed.

Lemma String_undeclared (t : ValueType) : (9 < t)%N -> String t = "any"%string.
Proof.
  intros H. unfold String, NullValue, BooleanValue, IntegerValue, DoubleValue, TimestampValue,
    TextValue, BlobValue, ArrayValue, ObjectValue.
  repeat match goal with
         | |- context [N.eqb t ?c] =>
             replace (N.eqb t c) with false by (symmetry; apply N.eqb_neq; lia)
         end.
  reflexivity.
Qed.

(** The name of a type tells the type: [String] gives the ten declared
    types ten different names, and a value that is no declared type
    prints as "any", like [AnyValue]. *)
Theorem String_names_the_declared_types :
  (forall t u : ValueType, (t <= 9)%N -> (u <= 9)%N -> String t = String u -> t = u) /\
  (forall t : ValueType, String t = "any"%string <-> t = AnyValue \/ (9 < t)%N).
Proof.
  split.
  - intros t u Ht Hu.
    destruct (declared_cases t Ht) as [-> | [-> | [-> | [-> | [-> | [-> | [-> | [-> | [-> | ->]]]]]]]]];
      destruct (declared_cases u Hu) as [-> | [-> | [-> | [-> | [-> | [-> | [-> | [-> | [-> | ->]]]]]]]]];
      cbn; intros H; try reflexivity; discriminate H.
  - intros t. split.
    + intros H. destruct (N.le_gt_cases t 9) as [Ht | Ht]; [|now right].
      destruct (declared_cases t Ht) as [-> | [-> | [-> | [-> | [-> | [-> | [-> | [-> | [-> | ->]]]]]]]]];
        cbn in H; try discriminate H. now left.
    + intros [-> | Ht]; [reflexivity | now apply String_undeclared].
Qed.

(** The predicates follow the names: [IsNumber] holds for "integer" and
    "double", [IsTimestampCompatible] for "timestamp" and "text" only (no
    number is timestamp compatible), and [IsAny] for [AnyValue] alone,
    not for the other values that print as "any". *)
Theorem type_predicates (t : ValueType) :
  (IsNumber t = true <-> String t = "integer"%string \/ String t = "double"%string) /\
  (IsTimestampCompatible t = true <->
     String t = "timestamp"%string \/ String t = "text"%string) /\
  (IsNumber t = true -> IsTimestampCompatible t = false) /\
  (IsAny t = true <-> t = AnyValue).
Proof.
  destruct (N.le_gt_cases t 9) as [Ht | Ht].
  - destruct (declared_cases t Ht) as [-> | [-> | [-> | [-> | [-> | [-> | [-> | [-> | [-> | ->]]]]]]]]];
      cbn; repeat split; try tauto; try discriminate;
        try (intros [H | H]; discriminate H); auto.
  - rewrite (String_undeclared t Ht).
    unfold IsNumber, IsTimestampCompatible, IsAny, AnyValue, IntegerValue, DoubleValue,
      TimestampValue, TextValue.
    repeat match goal with
           | |- context [N.eqb t ?c] =>
               replace (N.eqb t c) with false by (symmetry; apply N.eqb_neq; lia)
           end.
    cbn. repeat split; try discriminate; try (intros [H | H]; discriminate H).
    intros ->. lia.
Qed.

End types_facts.

(** ** Matchers *)

Module q_facts.
Import q.

Section Matchers.

Variable field_Int64 : N.
Variable DecodeInt64 : bytes -> Z + error.
Variable EncodeInt64 : Z -> bytes.
Context {Cur : Type}.
Variable Seek : bytes -> Cur -> (option bytes * bytes) * Cur.
Variable Next : Cur -> (option bytes * bytes) * Cur.

(** The five integer matchers agree on every record: they fail together,
    with the same error and the answer false; when they do not fail, [LtInt]
    is the negation of [GteInt], [GtInt] the negation of [LteInt], and
    [EqInt] holds exactly when [LteInt] and [GteInt] do. *)
Theorem integer_matchers_agree (f : Field) (i : Z) (r : Record_) :
  let lt := Match (LtInt field_Int64 DecodeInt64 f i) r in
  let lte := Match (LteInt field_Int64 DecodeInt64 f i) r in
  let gte := Match (GteInt field_Int64 DecodeInt64 f i) r in
  let gt := Match (IndexMatcher_Matcher (GtInt field_Int64 DecodeInt64 EncodeInt64 Seek Next f i)) r in
  let eq := Match (IndexMatcher_Matcher (EqInt field_Int64 DecodeInt64 EncodeInt64 Seek Next f i)) r in
  snd lte = snd lt /\ snd gte = snd lt /\ snd gt = snd lt /\ snd eq = snd lt /\
  (snd lt = None ->
   fst lt = negb (fst gte) /\ fst gt = negb (fst lte) /\ fst eq = fst lte && fst gte) /\
  (snd lt <> None ->
   fst lt = false /\ fst lte = false /\ fst gte = false /\ fst gt = false /\ fst eq = false).
Proof.
  unfold Match, LtInt, LteInt, GteInt, GtInt, EqInt, compareInts. cbn [fn IndexMatcher_Matcher].
  destruct (r (Name f)) as [rf|err]; cbn.
  - destruct (negb (N.eqb (Type_ rf) field_Int64)); cbn.
    + repeat split; auto; discriminate.
    + destruct (DecodeInt64 (Data rf)) as [v|err]; cbn.
      * repeat split; auto; try congruence.
        -- rewrite Z.geb_leb. destruct (Z.ltb_spec v i), (Z.leb_spec i v);
             try reflexivity; lia.
        -- rewrite Z.gtb_ltb. destruct (Z.ltb_spec i v), (Z.leb_spec v i);
             try reflexivity; lia.
        -- rewrite Z.geb_leb. destruct (Z.eqb_spec v i), (Z.leb_spec v i), (Z.leb_spec i v);
             try reflexivity; lia.
      * repeat split; auto; discriminate.
  - repeat split; auto; discriminate.
Qed.

Lemma GtInt_loop_plays (c : Cur) (es : list (bytes * bytes)) :
  Plays Next c es ->
  forall (fuel : nat) (r : bytes) (acc : list (option bytes)),
    (length es + 1 < fuel)%nat ->
    GtInt_loop Next fuel c (Some r) acc
    = Some (acc ++ map (fun e => Some (fst e)) es ++ [None]).
Proof.
  induction 1 as [c c' v HNext | c c' r1 v es HNext _ IH]; intros fuel r acc Hfuel.
  - destruct fuel as [|[|fuel]]; simpl in Hfuel; try lia.
    cbn [GtInt_loop]. rewrite HNext. reflexivity.
  - destruct fuel as [|fuel]; simpl in Hfuel; [lia|].
    cbn [GtInt_loop]. rewrite HNext. rewrite IH by lia.
    cbn [map fst]. now rewrite <- app_assoc.
Qed.

(** [GtInt] on an index: when [Seek] finds an entry, the result holds the
    rowids of the entries after it, in order, followed by a nil rowid; the
    entry [Seek] found is not in it and no value is compared.  When [Seek]
    finds nothing the result is empty. *)
Theorem GtInt_MatchIndex_result
    (f : Field) (i : Z) (im : gmap string Cur) (c0 c1 : Cur) (v0 : bytes) (fuel : nat) :
  im !! Name f = Some c0 ->
  (forall r0 es,
     Seek (EncodeInt64 i) c0 = ((Some r0, v0), c1) ->
     Plays Next c1 es ->
     (length es + 1 < fuel)%nat ->
     MatchIndex (GtInt field_Int64 DecodeInt64 EncodeInt64 Seek Next f i) fuel im
     = Some (Returns (map (fun e => Some (fst e)) es ++ [None], None))) /\
  (Seek (EncodeInt64 i) c0 = ((None, v0), c1) ->
   (0 < fuel)%nat ->
   MatchIndex (GtInt field_Int64 DecodeInt64 EncodeInt64 Seek Next f i) fuel im
   = Some (Returns ([], None))).
Proof.
  intros Him. unfold MatchIndex, GtInt. cbn [index_fn]. rewrite Him. split.
  - intros r0 es HSeek Hplays Hfuel. rewrite HSeek.
    now rewrite (GtInt_loop_plays c1 es Hplays fuel r0 [] Hfuel).
  - intros HSeek Hfuel. rewrite HSeek. destruct fuel; [lia|]. reflexivity.
Qed.

Lemma EqInt_loop_plays (data : bytes) (c : Cur) (es : list (bytes * bytes)) :
  Plays Next c es ->
  forall (fuel : nat) (r v : bytes) (acc : list (option bytes)),
    (length es + 1 < fuel)%nat ->
    EqInt_loop Next fuel data c (Some r) v acc
    = Some (acc ++ map (fun e => Some (fst e)) (matching_run data ((r, v) :: es))).
Proof.
  induction 1 as [c c' v' HNext | c c' r1 v1 es HNext _ IH]; intros fuel r v acc Hfuel.
  - destruct fuel as [|[|fuel]]; simpl in Hfuel; try lia.
    cbn [EqInt_loop matching_run]. destruct (bytes_Equal data v).
    + rewrite HNext. reflexivity.
    + cbn. now rewrite app_nil_r.
  - destruct fuel as [|fuel]; simpl in Hfuel; [lia|].
    cbn [EqInt_loop]. cbn [matching_run] in *. destruct (bytes_Equal data v).
    + rewrite HNext. rewrite IH by lia. cbn [map fst]. now rewrite <- app_assoc.
    + cbn. now rewrite app_nil_r.
Qed.

(** [EqInt] on an index: the result holds the rowids of the entry [Seek]
    found and of the entries after it, as long as their value is the
    encoded integer; it stops at the first other value and has no nil
    rowid. *)
Theorem EqInt_MatchIndex_result
    (f : Field) (i : Z) (im : gmap string Cur) (c0 c1 : Cur) (v0 : bytes) (fuel : nat) :
  im !! Name f = Some c0 ->
  (forall r0 es,
     Seek (EncodeInt64 i) c0 = ((Some r0, v0), c1) ->
     Plays Next c1 es ->
     (length es + 1 < fuel)%nat ->
     MatchIndex (EqInt field_Int64 DecodeInt64 EncodeInt64 Seek Next f i) fuel im
     = Some (Returns (map (fun e => Some (fst e))
                        (matching_run (EncodeInt64 i) ((r0, v0) :: es)), None))) /\
  (Seek (EncodeInt64 i) c0 = ((None, v0), c1) ->
   (0 < fuel)%nat ->
   MatchIndex (EqInt field_Int64 DecodeInt64 EncodeInt64 Seek Next f i) fuel im
   = Some (Returns ([], None))).
Proof.
  intros Him. unfold MatchIndex, EqInt. cbn [index_fn]. rewrite Him. split.
  - intros r0 es HSeek Hplays Hfuel. rewrite HSeek.
    now rewrite (EqInt_loop_plays _ c1 es Hplays fuel r0 v0 [] Hfuel).
  - intros HSeek Hfuel. rewrite HSeek. destruct fuel; [lia|]. reflexivity.
Qed.

End Matchers.

Lemma list_Plays (c : list (bytes * bytes)) : Plays list_Next c c.
Proof.
  induction c as [|[r v] c IH].
  - now apply (Plays_end list_Next [] [] []).
  - now apply (Plays_next list_Next ((r, v) :: c) c r v c).
Qed.

Section Witnesses.
Import instances q_instances.

(** With the values 5, 7, 7 and 9 in the index, [GtInt 6] seeks the first
    7, leaves it out although it is above 6, and ends with a nil rowid. *)
Example GtInt_MatchIndex_6 :
  MatchIndex (GtInt 3%N no_decoder encodeInt64 list_Seek list_Next "age"%string 6) 5 indexes0
  = Some (Returns ([Some [Byte.x0c]; Some [Byte.x0d]; None], None)).
Proof. vm_compute. reflexivity. Qed.

Example EqInt_MatchIndex_7 :
  MatchIndex (EqInt 3%N no_decoder encodeInt64 list_Seek list_Next "age"%string 7) 5 indexes0
  = Some (Returns ([Some [Byte.x0b]; Some [Byte.x0c]], None)).
Proof. vm_compute. reflexivity. Qed.

Lemma indexes0_age : indexes0 !! Name "age"%string = Some age_index.
Proof. vm_compute. reflexivity. Qed.

Lemma GtInt_MatchIndex_result_witness :
  indexes0 !! Name "age"%string = Some age_index /\
  MatchIndex (GtInt 3%N no_decoder encodeInt64 list_Seek list_Next "age"%string 6) 5 indexes0
  = Some (Returns (map (fun e => Some (fst e))
                     [([Byte.x0c], encodeInt64 7); ([Byte.x0d], encodeInt64 9)] ++ [None], None)).
Proof.
  split; [exact indexes0_age|].
  destruct (GtInt_MatchIndex_result 3%N no_decoder encodeInt64 list_Seek list_Next
              "age"%string 6 indexes0 age_index
              [([Byte.x0c], encodeInt64 7); ([Byte.x0d], encodeInt64 9)]
              (encodeInt64 7) 5 indexes0_age) as (Hfound & _).
  apply (Hfound [Byte.x0b]).
  - vm_compute. reflexivity.
  - apply list_Plays.
  - simpl. lia.
Defined.

Lemma EqInt_MatchIndex_result_witness :
  indexes0 !! Name "age"%string = Some age_index /\
  MatchIndex (EqInt 3%N no_decoder encodeInt64 list_Seek list_Next "age"%string 7) 5 indexes0
  = Some (Returns (map (fun e => Some (fst e))
                     (matching_run (encodeInt64 7)
                        [([Byte.x0b], encodeInt64 7); ([Byte.x0c], encodeInt64 7);
                         ([Byte.x0d], encodeInt64 9)]), None)).
Proof.
  split; [exact indexes0_age|].
  destruct (EqInt_MatchIndex_result 3%N no_decoder encodeInt64 list_Seek list_Next
              "age"%string 7 indexes0 age_index
              [([Byte.x0c], encodeInt64 7); ([Byte.x0d], encodeInt64 9)]
              (encodeInt64 7) 5 indexes0_age) as (Hfound & _).
  apply (Hfound [Byte.x0b]).
  - vm_compute. reflexivity.
  - apply list_Plays.
  - simpl. lia.
Defined.

End Witnesses.

End q_facts.

(** ** More on statements *)

Module statement_more.
Import statement stream_spec statement_facts.

Section Update.

Context {Expr Tx : Type} {catalog : Catalog Tx}.

Lemma unset_loop_fails (pk : option PrimaryKey) (names : list string) (s : @Stream Expr)
    (err : error) :
  unset_loop pk names s = inr err ->
  err = ErrMsg "cannot unset primary key path" /\
  exists name, In name names /\ pk_has_path pk (NewPath name) = true.
Proof.
  revert s. induction names as [|name names IH]; intros s; simpl; [discriminate|].
  destruct (pk_has_path pk (NewPath name)) eqn:Hp.
  - intros H. injection H as <-. split; [reflexivity|]. exists name. split; [now left | exact Hp].
  - intros H. destruct (IH _ H) as (-> & n & Hin & Hn). split; [reflexivity|].
    exists n. split; [now right | exact Hn].
Qed.

Lemma index_insert_loop_fails (c : Tx) (names : list string) (s : @Stream Expr) (err : error) :
  index_insert_loop c names s = inr err <->
  exists ok bad rest,
    names = ok ++ bad :: rest /\
    (forall n, In n ok -> exists info, GetIndexInfo c n = inl info) /\
    GetIndexInfo c bad = inr err.
Proof.
  revert s. induction names as [|n names IH]; intros s; simpl.
  - split; [discriminate|]. intros (ok & bad & rest & H & _). now destruct ok.
  - destruct (GetIndexInfo c n) as [info|e] eqn:Hn.
    + rewrite IH. split.
      * intros (ok & bad & rest & -> & Hok & Hbad). exists (n :: ok), bad, rest.
        split; [reflexivity|]. split; [|exact Hbad].
        intros m [<- | Hm]; [eauto | now apply Hok].
      * intros (ok & bad & rest & Heq & Hok & Hbad). destruct ok as [|n' ok].
        -- injection Heq as <- _. congruence.
        -- injection Heq as <- ->. exists ok, bad, rest. split; [reflexivity|].
           split; [|exact Hbad]. intros m Hm. apply Hok. now right.
    + split.
      * intros H. injection H as <-. exists [], n, names. split; [reflexivity|].
        split; [intros m []|exact Hn].
      * intros (ok & bad & rest & Heq & Hok & Hbad). destruct ok as [|n' ok].
        -- injection Heq as <- _. congruence.
        -- injection Heq as <- _. destruct (Hok n (or_introl eq_refl)) as [info Hinfo].
           congruence.
Qed.

Lemma finish_fails_iff (c : Tx) (names : list string) (s : @Stream Expr) (err : error) :
  match index_insert_loop c names s with
  | inr e => inr e
  | inl s' => inl (Pipe s' stream_Discard)
  end = (inr err : @Stream Expr + error)
  <-> exists ok bad rest,
      names = ok ++ bad :: rest /\
      (forall n, In n ok -> exists info, GetIndexInfo c n = inl info) /\
      GetIndexInfo c bad = inr err.
Proof.
  rewrite <- (index_insert_loop_fails c names s err).
  destruct (index_insert_loop c names s); split; congruence.
Qed.

(** [UpdateStmt.Prepare] fails before it has a stream in three cases, and
    in no other: the table is not in the catalog (the error of the
    lookup); the statement has no SET pair and one of its UNSET fields is a
    primary-key path ("cannot unset primary key path"); or neither holds
    and some index of the table has no info (the error of the first such
    lookup, in catalog order). *)
Theorem UpdateStmt_build_fails_iff (stmt : @UpdateStmt Expr) (c : Tx) (err : error) :
  UpdateStmt_build stmt c = inr err <->
  GetTableInfo c (UpdateStmt_TableName stmt) = inr err \/
  (exists ti pk names name,
     GetTableInfo c (UpdateStmt_TableName stmt) = inl ti /\
     SetPairs stmt = None /\ UnsetFields stmt = Some names /\
     GetPrimaryKey ti = Some pk /\ In name names /\ In (NewPath name) (Paths pk) /\
     err = ErrMsg "cannot unset primary key path") \/
  (exists ti ok bad rest,
     GetTableInfo c (UpdateStmt_TableName stmt) = inl ti /\
     (forall names name pk,
        SetPairs stmt = None -> UnsetFields stmt = Some names ->
        GetPrimaryKey ti = Some pk -> In name names -> ~ In (NewPath name) (Paths pk)) /\
     ListIndexes c (UpdateStmt_TableName stmt) = ok ++ bad :: rest /\
     (forall n, In n ok -> exists info, GetIndexInfo c n = inl info) /\
     GetIndexInfo c bad = inr err).
Proof.
  unfold UpdateStmt_build.
  destruct (GetTableInfo c (UpdateStmt_TableName stmt)) as [ti|e] eqn:Hti.
  2:{ split.
      - intros H. left. congruence.
      - intros [H | [(ti & pk & names & name & H & _) | (ti & ok & bad & rest & H & _)]];
          congruence. }
  destruct (SetPairs stmt) as [pairs|] eqn:Hset.
  - (* SET: the UNSET fields are not looked at *)
    destruct (set_loop (GetPrimaryKey ti) pairs _ false) as [s0 m].
    etransitivity; [apply finish_fails_iff|]. split.
    + intros (ok & bad & rest & Hl & Hok & Hbad). right. right.
      exists ti, ok, bad, rest. repeat split; auto. intros; discriminate.
    + intros [H | [(ti' & pk & names & name & _ & H & _)
                  | (ti' & ok & bad & rest & _ & _ & Hl & Hok & Hbad)]];
        try discriminate. eauto 10.
  - destruct (UnsetFields stmt) as [names|] eqn:Hun.
    + destruct (unset_loop (GetPrimaryKey ti) names _) as [s0|e] eqn:Hunset.
      * (* no UNSET field is a primary-key path *)
        assert (Hclean : forall name pk, GetPrimaryKey ti = Some pk -> In name names ->
                                         ~ In (NewPath name) (Paths pk)).
        { intros name pk Hpk Hin Hpath.
          rewrite unset_loop_err in Hunset; [discriminate|].
          exists name. split; [exact Hin|]. apply pk_has_path_In. eauto. }
        etransitivity; [apply finish_fails_iff|]. split.
        -- intros (ok & bad & rest & Hl & Hok & Hbad). right. right.
           exists ti, ok, bad, rest. repeat split; auto.
           intros names' name pk _ Hn Hpk Hin. injection Hn as <-. now apply Hclean.
        -- intros [H | [(ti' & pk & names' & name & Hti' & _ & Hn & Hpk & Hin & Hpath & _)
                       | (ti' & ok & bad & rest & _ & _ & Hl & Hok & Hbad)]];
             try discriminate.
           ++ injection Hti' as <-. injection Hn as <-. exfalso. eapply Hclean; eauto.
           ++ eauto 10.
      * (* an UNSET field is a primary-key path *)
        apply unset_loop_fails in Hunset as (-> & name & Hin & Hp).
        apply pk_has_path_In in Hp as (pk & Hpk & Hpath).
        split.
        -- intros H. injection H as <-. right. left.
           exists ti, pk, names, name. repeat split; auto.
        -- intros [H | [(ti' & pk' & names' & name' & _ & _ & _ & _ & _ & _ & ->)
                       | (ti' & ok & bad & rest & Hti' & Hclean & _)]];
             try discriminate; [reflexivity|].
           injection Hti' as <-. exfalso. eapply (Hclean names name pk); eauto.
    + etransitivity; [apply finish_fails_iff|]. split.
      * intros (ok & bad & rest & Hl & Hok & Hbad). right. right.
        exists ti, ok, bad, rest. repeat split; auto. intros; discriminate.
      * intros [H | [(ti' & pk & names' & name & _ & _ & Hn & _)
                    | (ti' & ok & bad & rest & _ & _ & Hl & Hok & Hbad)]];
          try discriminate. eauto 10.
Qed.

End Update.

Section Drop.

Context {Tx : Type} {catalog : Catalog Tx}.

(** [DropTableStmt.Run] returns without an error in two cases only: the
    table was found and the catalog writer dropped it (and then its rowid
    sequence, if it has no primary key); or IF EXISTS is given, the lookup
    answered NotFound, and the catalog is untouched.  It never succeeds on
    an empty name. *)
Theorem DropTableStmt_Run_success (stmt : DropTableStmt) (tx tx' : Tx) :
  DropTableStmt_Run stmt tx = ((mkResult, None), tx') ->
  DropTableStmt_TableName stmt <> ""%string /\
  ((exists tb tx1,
      GetTable tx (DropTableStmt_TableName stmt) = inl tb /\
      DropTable (DropTableStmt_TableName stmt) tx = (None, tx1) /\
      match TableInfo_PrimaryKey (Table_Info tb) with
      | None => DropSequence (RowidSequenceName (Table_Info tb)) tx1 = (None, tx')
      | Some _ => tx' = tx1
      end) \/
   (DropTableStmt_IfExists stmt = true /\ tx' = tx /\
    exists err, GetTable tx (DropTableStmt_TableName stmt) = inr err /\
                IsNotFoundError err = true)).
Proof.
  unfold DropTableStmt_Run.
  destruct (String.eqb_spec (DropTableStmt_TableName stmt) "") as [Hname | Hname];
    [discriminate|].
  intros H. split; [exact Hname|].
  destruct (GetTable tx (DropTableStmt_TableName stmt)) as [tb|err].
  - left. destruct (DropTable (DropTableStmt_TableName stmt) tx) as [[e|] tx1];
      [discriminate|].
    exists tb, tx1. split; [reflexivity|]. split; [reflexivity|].
    destruct (TableInfo_PrimaryKey (Table_Info tb)).
    + now injection H as <-.
    + destruct (DropSequence (RowidSequenceName (Table_Info tb)) tx1) as [[e|] tx2];
        [discriminate|]. now injection H as <-.
  - right. destruct (IsNotFoundError err) eqn:Hnf, (DropTableStmt_IfExists stmt);
      try discriminate.
    injection H as <-. repeat split. now exists err.
Qed.

(** [DropSequenceStmt.Run] returns without an error only for a sequence
    that no table owns and that the catalog writer dropped (or reported
    NotFound for, under IF EXISTS), or, under IF EXISTS, for a sequence
    the lookup did not find.  It never succeeds on an owned sequence. *)
Theorem DropSequenceStmt_Run_success (stmt : DropSequenceStmt) (tx tx' : Tx) :
  DropSequenceStmt_Run stmt tx = ((mkResult, None), tx') ->
  SequenceName stmt <> ""%string /\
  ((exists seq,
      GetSequence tx (SequenceName stmt) = inl seq /\
      Owner_TableName (SequenceInfo_Owner (Sequence_Info seq)) = ""%string /\
      (DropSequence (SequenceName stmt) tx = (None, tx') \/
       (DropSequenceStmt_IfExists stmt = true /\
        exists err, DropSequence (SequenceName stmt) tx = (Some err, tx') /\
                    IsNotFoundError err = true))) \/
   (DropSequenceStmt_IfExists stmt = true /\ tx' = tx /\
    exists err, GetSequence tx (SequenceName stmt) = inr err /\ IsNotFoundError err = true)).
Proof.
  unfold DropSequenceStmt_Run.
  destruct (String.eqb_spec (SequenceName stmt) "") as [Hname | Hname]; [discriminate|].
  intros H. split; [exact Hname|].
  destruct (GetSequence tx (SequenceName stmt)) as [seq|err].
  - left. exists seq. split; [reflexivity|].
    destruct (String.eqb_spec (Owner_TableName (SequenceInfo_Owner (Sequence_Info seq))) "")
      as [Howner | Howner]; cbn [negb] in H; [|discriminate].
    split; [exact Howner|].
    destruct (DropSequence (SequenceName stmt) tx) as [[e|] tx1].
    + right. destruct (IsNotFoundError e) eqn:Hnf, (DropSequenceStmt_IfExists stmt);
        try discriminate.
      injection H as <-. split; [reflexivity|]. now exists e.
    + left. now injection H as <-.
  - right. destruct (IsNotFoundError err) eqn:Hnf, (DropSequenceStmt_IfExists stmt);
      try discriminate.
    injection H as <-. repeat split. now exists err.
Qed.

(** IF EXISTS hides a NotFound of the catalog writer in DROP INDEX and in
    DROP SEQUENCE, but not in DROP TABLE: an error of the table drop or of
    the rowid sequence drop is returned as it is, and in the second case
    the table stays dropped. *)
Theorem IfExists_and_the_writer (err : error) (tx tx' : Tx) :
  IsNotFoundError err = true ->
  (forall stmt,
     IndexName stmt <> ""%string -> DropIndexStmt_IfExists stmt = true ->
     DropIndex (IndexName stmt) tx = (Some err, tx') ->
     DropIndexStmt_Run stmt tx = ((mkResult, None), tx')) /\
  (forall stmt seq,
     SequenceName stmt <> ""%string -> DropSequenceStmt_IfExists stmt = true ->
     GetSequence tx (SequenceName stmt) = inl seq ->
     Owner_TableName (SequenceInfo_Owner (Sequence_Info seq)) = ""%string ->
     DropSequence (SequenceName stmt) tx = (Some err, tx') ->
     DropSequenceStmt_Run stmt tx = ((mkResult, None), tx')) /\
  (forall stmt tb,
     DropTableStmt_TableName stmt <> ""%string ->
     GetTable tx (DropTableStmt_TableName stmt) = inl tb ->
     DropTable (DropTableStmt_TableName stmt) tx = (Some err, tx') ->
     DropTableStmt_Run stmt tx = ((mkResult, Some err), tx')) /\
  (forall stmt tb tx1,
     DropTableStmt_TableName stmt <> ""%string ->
     GetTable tx (DropTableStmt_TableName stmt) = inl tb ->
     TableInfo_PrimaryKey (Table_Info tb) = None ->
     DropTable (DropTableStmt_TableName stmt) tx = (None, tx1) ->
     DropSequence (RowidSequenceName (Table_Info tb)) tx1 = (Some err, tx') ->
     DropTableStmt_Run stmt tx = ((mkResult, Some err), tx')).
Proof.
  intros Hnf. split; [|split; [|split]].
  - intros stmt Hname Hif Hdrop. unfold DropIndexStmt_Run.
    apply String.eqb_neq in Hname. now rewrite Hname, Hdrop, Hnf, Hif.
  - intros stmt seq Hname Hif Hget Howner Hdrop. unfold DropSequenceStmt_Run.
    apply String.eqb_neq in Hname. rewrite Hname, Hget, Howner. cbn [String.eqb negb].
    now rewrite Hdrop, Hnf, Hif.
  - intros stmt tb Hname Hget Hdrop. unfold DropTableStmt_Run.
    apply String.eqb_neq in Hname. now rewrite Hname, Hget, Hdrop.
  - intros stmt tb tx1 Hname Hget Hpk Hdrop Hseq. unfold DropTableStmt_Run.
    apply String.eqb_neq in Hname. now rewrite Hname, Hget, Hdrop, Hpk, Hseq.
Qed.

End Drop.

Section Witnesses.
Import instances statement_instances.

(** [DROP TABLE IF EXISTS logs] when the rowid sequence is missing: the
    error is returned and the table is gone. *)
Example DropTableStmt_Run_missing_sequence :
  fst (DropTableStmt_Run {| DropTableStmt_TableName := "logs"; DropTableStmt_IfExists := true |}
         tx_no_seq)
  = (mkResult, Some (NotFoundError "logs_seq")) /\
  GetTable (snd (DropTableStmt_Run {| DropTableStmt_TableName := "logs";
                                      DropTableStmt_IfExists := true |} tx_no_seq)) "logs"
  = inr (NotFoundError "logs").
Proof. split; vm_compute; reflexivity. Qed.

Lemma DropTableStmt_Run_success_witness :
  DropTableStmt_Run {| DropTableStmt_TableName := "nope"; DropTableStmt_IfExists := true |} tx0
  = ((mkResult, None), tx0) /\
  DropTableStmt_TableName {| DropTableStmt_TableName := "nope"; DropTableStmt_IfExists := true |}
  <> ""%string.
Proof.
  split; [reflexivity|].
  exact (proj1 (DropTableStmt_Run_success
                  {| DropTableStmt_TableName := "nope"; DropTableStmt_IfExists := true |}
                  tx0 tx0 eq_refl)).
Defined.

Lemma DropSequenceStmt_Run_success_witness :
  DropSequenceStmt_Run {| SequenceName := "counter"; DropSequenceStmt_IfExists := false |} tx0
  = ((mkResult, None), snd (DropSequence "counter" tx0)) /\
  SequenceName {| SequenceName := "counter"; DropSequenceStmt_IfExists := false |} <> ""%string.
Proof.
  split; [reflexivity|].
  exact (proj1 (DropSequenceStmt_Run_success
                  {| SequenceName := "counter"; DropSequenceStmt_IfExists := false |}
                  tx0 (snd (DropSequence "counter" tx0)) eq_refl)).
Defined.

Lemma IfExists_and_the_writer_witness :
  IsNotFoundError (NotFoundError "nope") = true /\
  DropIndexStmt_Run {| IndexName := "nope"; DropIndexStmt_IfExists := true |} tx0
  = ((mkResult, None), tx0).
Proof.
  split; [reflexivity|].
  destruct (IfExists_and_the_writer (NotFoundError "nope") tx0 tx0 eq_refl) as (Hindex & _).
  apply (Hindex {| IndexName := "nope"; DropIndexStmt_IfExists := true |}).
  - discriminate.
  - reflexivity.
  - reflexivity.
Defined.

End Witnesses.

End statement_more.

(** ** The SQL test files *)

Module sqltests_facts.
Import sqltests sqltests_instances.

Lemma length_update_at {X : Type} (i : nat) (f : X -> X) (l : list X) :
  length (update_at i f l) = length l.
Proof.
  revert i. induction l as [|x l IH]; intros [|i]; simpl; auto.
Qed.

Lemma map_update_at {X Y : Type} (g : X -> Y) (i : nat) (f : X -> X) (l : list X) :
  (forall x, g (f x) = g x) -> map g (update_at i f l) = map g l.
Proof.
  intros Hg. revert i. induction l as [|x l IH]; intros [|i]; simpl; auto.
  - now rewrite Hg.
  - now rewrite IH.
Qed.

Lemma not_nil_length {X : Type} (l : list X) : l <> [] <-> (0 < length l)%nat.
Proof. destruct l; simpl; split; intros; try lia; congruence. Qed.

Lemma nth_seq_skipn {X : Type} (l : list X) (d : X) (n : nat) :
  (n <= length l)%nat ->
  map (fun p => nth p l d) (seq n (length l - n)) = skipn n l.
Proof.
  revert n. induction l as [|x l IH]; intros n Hn; simpl in *.
  - replace n with 0%nat by lia. reflexivity.
  - destruct n as [|n].
    + simpl. f_equal. rewrite <- seq_shift, map_map. simpl.
      specialize (IH 0%nat ltac:(lia)). rewrite Nat.sub_0_r in IH. exact IH.
    + simpl. rewrite <- (IH n) by lia. rewrite <- seq_shift, map_map. reflexivity.
Qed.

Lemma invariant_initial (filename : string) : invariant (initial filename).
Proof.
  constructor; cbn; try constructor; try discriminate; try lia; intros; congruence.
Qed.

Ltac flags H :=
  destruct H; constructor; cbn in *; auto.

Lemma invariant_set_readingCommentBlock b st :
  invariant st -> invariant (set_readingCommentBlock b st).
Proof. intros H. flags H. Qed.

Lemma invariant_set_readingSetup b st : invariant st -> invariant (set_readingSetup b st).
Proof. intros H. flags H. Qed.

Lemma invariant_set_readingResult b st : invariant st -> invariant (set_readingResult b st).
Proof. intros H. flags H. Qed.

Lemma invariant_set_Setup x st : invariant st -> invariant (set_Setup x st).
Proof. intros H. flags H. Qed.

Lemma invariant_set_only b st : invariant st -> invariant (set_only b st).
Proof. intros H. flags H. Qed.

Lemma invariant_set_curTest_None st : invariant st -> invariant (set_curTest None st).
Proof. intros H. flags H. discriminate. Qed.

Lemma invariant_new_suite line st : invariant st -> invariant (new_suite line st).
Proof.
  intros H. destruct H. constructor; cbn; auto.
  - rewrite length_app. simpl. lia.
  - rewrite map_app. apply Forall_app. split; [exact inv_suites0|].
    repeat constructor. exists (length (heap st)). split; [lia|].
    now rewrite Nat.sub_diag.
  - intros ts rest. rewrite map_app. destruct (Suites st) as [|su sus] eqn:Hs; cbn.
    + intros Heq. injection Heq as <- _.
      destruct (heap st) as [|t h]; [reflexivity|].
      exfalso. apply inv_heap0; [discriminate|reflexivity].
    + intros Heq. injection Heq as <- _. now apply (inv_first0 _ (map Tests sus)).
  - intros _. now destruct (Suites st).
  - intros _. now destruct (Suites st).
Qed.

Lemma invariant_new_test line st :
  invariant st ->
  Forall (fun n => n < lineCount st) (map Line (heap st)) ->
  1 <= lineCount st ->
  invariant (new_test line st).
Proof.
  intros H Hlt Hone. destruct H.
  assert (Hlen : forall (sus : list suite),
             length (map (fun su => {| suite_Name := suite_Name su; PostSetup := PostSetup su;
                                       Tests := Tests su ++ [length (heap st)] |}) sus)
             = length sus) by (intros; apply length_map).
  assert (Htests : forall (sus : list suite),
             map Tests (map (fun su => {| suite_Name := suite_Name su; PostSetup := PostSetup su;
                                          Tests := Tests su ++ [length (heap st)] |}) sus)
             = map (fun ts => ts ++ [length (heap st)]) (map Tests sus)).
  { intros sus. rewrite !map_map. reflexivity. }
  assert (Hext : forall n, (n <= length (heap st))%nat ->
             seq n (length (heap st) - n) ++ [length (heap st)]
             = seq n (length (heap st ++ [{| Name := str_TrimPrefix line "-- test: "; Expr := "";
                                             Result := ""; ErrorMatch := ""; Fails := false;
                                             Line := lineCount st; Only := only st |}]) - n)).
  { intros n Hn. rewrite length_app. simpl.
    replace (length (heap st) + 1 - n)%nat with (S (length (heap st) - n)) by lia.
    rewrite seq_S. f_equal. f_equal. lia. }
  constructor; cbn.
  - rewrite Hlen. destruct (Z.eqb_spec (suiteIndex st) (-1)).
    + rewrite length_app. simpl. lia.
    + lia.
  - intros p Hp. injection Hp as <-. rewrite length_app. simpl. lia.
  - rewrite Htests. apply List.Forall_map.
    assert (Hall : Forall (fun ts => exists n, (n <= length (heap st))%nat /\
                                      ts = seq n (length (heap st) - n))
                     (map Tests (if suiteIndex st =? -1
                                 then Suites st ++ [{| suite_Name := "default"; PostSetup := "";
                                                       Tests := [] |}]
                                 else Suites st))).
    { destruct (suiteIndex st =? -1); [|exact inv_suites0].
      rewrite map_app. apply Forall_app. split; [exact inv_suites0|].
      repeat constructor. exists (length (heap st)). split; [lia|]. now rewrite Nat.sub_diag. }
    eapply List.Forall_impl; [|exact Hall]. cbn. intros ts (n & Hn & ->).
    exists n. split; [rewrite length_app; simpl; lia|]. now apply Hext.
  - rewrite Htests. intros ts rest Heq.
    destruct (Z.eqb_spec (suiteIndex st) (-1)) as [Hidx | Hidx].
    + assert (Hnil : Suites st = []).
      { destruct (Suites st); [reflexivity|]. simpl in inv_suiteIndex0. lia. }
      assert (Hheap : heap st = []).
      { destruct (heap st) as [|t h]; [reflexivity|].
        exfalso. apply inv_heap0; [discriminate | exact Hnil]. }
      rewrite Hnil in Heq. cbn in Heq. injection Heq as <- _. now rewrite Hheap.
    + destruct (Suites st) as [|su sus] eqn:Hs; [simpl in inv_suiteIndex0; lia|].
      cbn in Heq. injection Heq as <- _.
      rewrite (inv_first0 (Tests su) (map Tests sus) eq_refl).
      specialize (Hext 0%nat ltac:(lia)). rewrite !Nat.sub_0_r in Hext. exact Hext.
  - intros _. destruct (suiteIndex st =? -1) eqn:Hidx.
    + destruct (Suites st); discriminate.
    + apply Z.eqb_neq in Hidx. destruct (Suites st); [simpl in inv_suiteIndex0; lia|discriminate].
  - discriminate.
  - rewrite map_app. cbn. apply tree_more.StronglySorted_app.
    + exact inv_sorted0.
    + repeat constructor.
    + intros x y Hx [<- | []]. now apply (proj1 (List.Forall_forall _ _) Hlt).
  - rewrite map_app. apply Forall_app. split; [exact inv_lines0|].
    constructor; [cbn; lia|constructor].
  - exact inv_lineCount0.
Qed.

Lemma invariant_on_curTest (f : test -> test) st :
  (forall t, Line (f t) = Line t) ->
  invariant st ->
  match on_curTest f st with
  | Returns st' => invariant st' /\ curTest st <> None
  | Panics msg => msg = tree.nil_dereference /\ curTest st = None
  end.
Proof.
  intros Hf H. unfold on_curTest. destruct (curTest st) as [p|] eqn:Hp; [|split; reflexivity].
  split; [|discriminate].
  destruct H. constructor; cbn; rewrite ?length_update_at, ?(map_update_at Line _ _ _ Hf); auto.
  - intros q [= <-]. now apply inv_curTest0.
  - intros Hne. apply inv_heap0. intros Hnil. apply Hne. rewrite Hnil; now destruct p.
Qed.

Lemma invariant_add_PostSetup (g : string -> string) st :
  invariant st ->
  invariant (set_Suites
               (update_at (Z.to_nat (suiteIndex st))
                  (fun su => {| suite_Name := suite_Name su; PostSetup := g (PostSetup su);
                                Tests := Tests su |})
                  (Suites st)) st).
Proof.
  intros H. destruct H.
  constructor; cbn; rewrite ?length_update_at, ?(map_update_at Tests) by reflexivity; auto.
  - intros Hne Hnil. apply (inv_heap0 Hne).
    apply (f_equal (@length suite)) in Hnil. rewrite length_update_at in Hnil.
    now destruct (Suites st).
  - intros Hr Hnil. apply (inv_readingSuite0 Hr).
    apply (f_equal (@length suite)) in Hnil. rewrite length_update_at in Hnil.
    now destruct (Suites st).
Qed.

(** Counting a line keeps the invariant, and puts the tests on lines
    before the current one. *)
Lemma invariant_count_line st :
  invariant st ->
  let st1 := {| Filename := Filename st; Setup := Setup st; Suites := Suites st;
                heap := heap st; curTest := curTest st; readingResult := readingResult st;
                readingSetup := readingSetup st; readingSuite := readingSuite st;
                readingCommentBlock := readingCommentBlock st;
                suiteIndex := suiteIndex st; only := only st;
                lineCount := lineCount st + 1 |} in
  invariant st1 /\ Forall (fun n => n < lineCount st1) (map Line (heap st1)) /\
  1 <= lineCount st1.
Proof.
  intros H st1. destruct H. split; [|split]; cbn.
  - constructor; cbn; auto; [|lia].
    eapply List.Forall_impl; [|exact inv_lines0]. cbn. intros; lia.
  - eapply List.Forall_impl; [|exact inv_lines0]. cbn. intros; lia.
  - lia.
Qed.

Section Step.

Variable TrimSpace : string -> string.

Lemma step_invariant text st :
  invariant st ->
  match step TrimSpace text st with
  | Returns st' => invariant st' /\ lineCount st' = lineCount st + 1
  | Panics msg => msg = tree.nil_dereference /\ curTest st = None
  end.
Proof.
  intros H. destruct (invariant_count_line st H) as (H1 & Hlt & Hone).
  unfold step. cbv zeta.
  set (st1 := {| Filename := Filename st; lineCount := lineCount st + 1 |}) in *.
  assert (Hc : curTest st1 = curTest st) by reflexivity.
  assert (Hl : lineCount st1 = lineCount st + 1) by reflexivity.
  clearbody st1.
  set (line := if negb (readingResult st1) then TrimSpace text else text).
  assert (Hon : forall f, (forall t, Line (f t) = Line t) ->
            match on_curTest f st1 with
            | Returns st' => invariant st' /\ lineCount st' = lineCount st + 1
            | Panics msg => msg = tree.nil_dereference /\ curTest st = None
            end).
  { intros f Hf. pose proof (invariant_on_curTest f st1 Hf H1) as Ho.
    unfold on_curTest in *. destruct (curTest st1); [|now rewrite <- Hc].
    split; [apply Ho | exact Hl]. }
  destruct (String.eqb line ""); [now split|].
  destruct (readingCommentBlock st1 && String.eqb (TrimSpace line) "*/").
  { split; [now apply invariant_set_readingCommentBlock | exact Hl]. }
  destruct (readingCommentBlock st1); [now split|].
  destruct (str_HasPrefix line "-- setup:").
  { split; [now apply invariant_set_readingSetup | exact Hl]. }
  destruct (str_HasPrefix line "-- suite:").
  { split; [now apply invariant_new_suite | exact Hl]. }
  destruct (str_HasPrefix line "-- only:").
  { split; [|exact Hl]. apply invariant_new_test; [now apply invariant_set_only | exact Hlt | exact Hone]. }
  destruct (str_HasPrefix line "-- test:").
  { split; [|exact Hl]. now apply invariant_new_test. }
  destruct (str_HasPrefix line "/* result:" || str_HasPrefix line "/*result:").
  { split; [now apply invariant_set_readingResult | exact Hl]. }
  destruct (str_HasPrefix line "-- error:").
  { destruct (String.eqb (TrimSpace (str_TrimPrefix line "-- error:")) "").
    - specialize (Hon (fun t => {| Name := Name t; Expr := Expr t; Result := Result t;
                                   ErrorMatch := ErrorMatch t; Fails := true;
                                   Line := Line t; Only := Only t |}) (fun _ => eq_refl)).
      destruct (on_curTest _ st1); [|exact Hon].
      split; [apply invariant_set_curTest_None; apply Hon | apply Hon].
    - specialize (Hon (fun t => {| Name := Name t; Expr := Expr t; Result := Result t;
                                   ErrorMatch := TrimSpace (str_TrimPrefix line "-- error:");
                                   Fails := true;
                                   Line := Line t; Only := Only t |}) (fun _ => eq_refl)).
      destruct (on_curTest _ st1); [|exact Hon].
      split; [apply invariant_set_curTest_None; apply Hon | apply Hon]. }
  destruct (str_HasPrefix line "/*").
  { split; [now apply invariant_set_readingCommentBlock | exact Hl]. }
  destruct (str_HasPrefix line "--"); [now split|].
  destruct (negb (readingResult st1) && String.eqb (TrimSpace line) "*/"); [now split|].
  destruct (readingSuite st1) eqn:Hrs.
  { assert (Hin : (0 <=? suiteIndex st1) && (suiteIndex st1 <? Z.of_nat (length (Suites st1)))
                  = true).
    { pose proof (inv_readingSuite _ H1 Hrs) as Hne. pose proof (inv_suiteIndex _ H1) as Hidx.
      apply not_nil_length in Hne. apply andb_true_iff. split; [apply Z.leb_le | apply Z.ltb_lt]; lia. }
    rewrite Hin. split; [|exact Hl].
    apply (invariant_add_PostSetup (fun s => String.append s (String.append line newline)) st1 H1). }
  destruct (readingSetup st1).
  { split; [now apply invariant_set_Setup | exact Hl]. }
  destruct (readingResult st1 && String.eqb (TrimSpace line) "*/").
  { split; [|exact Hl]. apply invariant_set_curTest_None. now apply invariant_set_readingResult. }
  destruct (readingResult st1); apply Hon; reflexivity.
Qed.

Lemma run_invariant lines : forall st,
  invariant st ->
  match run TrimSpace lines st with
  | Returns st' => invariant st' /\ lineCount st' = lineCount st + Z.of_nat (length lines)
  | Panics msg => msg = tree.nil_dereference
  end.
Proof.
  induction lines as [|text rest IH]; intros st H; simpl run.
  - split; [exact H | simpl; lia].
  - pose proof (step_invariant text st H) as Hs.
    destruct (step TrimSpace text st) as [st'|msg]; [|apply Hs].
    destruct Hs as [H' Hl]. specialize (IH st' H').
    destruct (run TrimSpace rest st'); [|exact IH].
    split; [apply IH|]. destruct IH as [_ ->]. rewrite Hl. simpl length. lia.
Qed.

End Step.


Lemma str_HasPrefix_split s p :
  str_HasPrefix s p = true -> s = String.append p (str_drop (String.length p) s).
Proof.
  revert s. induction p as [|a p IH]; intros s; simpl.
  - reflexivity.
  - destruct s as [|b s]; [discriminate|].
    intros H. apply andb_true_iff in H as [Hab Hp].
    apply Ascii.eqb_eq in Hab. subst b. change (String a s = String a (String.append p (str_drop (String.length p) s))). f_equal. now apply IH.
Qed.

Lemma str_HasPrefix_shorter s p q :
  str_HasPrefix s p = false -> str_HasPrefix s (String.append p q) = false.
Proof.
  revert s. induction p as [|a p IH]; intros s; simpl.
  - discriminate.
  - destruct s as [|b s]; [reflexivity|].
    intros H. apply andb_false_iff in H as [H | H].
    + now rewrite H.
    + rewrite (IH _ H). apply andb_false_r.
Qed.

Ltac step_projections :=
  cbn [Filename Setup Suites heap curTest readingResult readingSetup readingSuite
       readingCommentBlock suiteIndex only lineCount].

Section Lines.

Variable TrimSpace : string -> string.

(** What an [-- error:] line does, outside a comment block. *)
Lemma step_error_line text st :
  readingCommentBlock st = false ->
  str_HasPrefix (if negb (readingResult st) then TrimSpace text else text) "-- error:" = true ->
  match curTest st with
  | None => step TrimSpace text st = Panics tree.nil_dereference
  | Some _ => exists st', step TrimSpace text st = Returns st' /\
                          curTest st' = None /\ readingCommentBlock st' = false /\
                          readingResult st' = readingResult st
  end.
Proof.
  intros Hcb Hp. unfold step. cbv zeta. step_projections.
  set (line := if negb (readingResult st) then TrimSpace text else text) in *.
  apply str_HasPrefix_split in Hp.
  set (r := str_drop _ line) in Hp. clearbody r. clearbody line. subst line.
  rewrite Hcb.
  change (String.eqb (String.append "-- error:" r) "") with false.
  change (str_HasPrefix (String.append "-- error:" r) "-- setup:") with false.
  change (str_HasPrefix (String.append "-- error:" r) "-- suite:") with false.
  change (str_HasPrefix (String.append "-- error:" r) "-- only:") with false.
  change (str_HasPrefix (String.append "-- error:" r) "-- test:") with false.
  change (str_HasPrefix (String.append "-- error:" r) "/* result:") with false.
  change (str_HasPrefix (String.append "-- error:" r) "/*result:") with false.
  change (str_HasPrefix (String.append "-- error:" r) "-- error:") with true.
  cbn [andb orb]. unfold on_curTest. step_projections.
  destruct (String.eqb _ ""), (curTest st); try reflexivity;
    (eexists; split; [reflexivity|]; auto).
Qed.

Lemma sorted_bounded_length (l : list Z) (N : Z) :
  StronglySorted Z.lt l ->
  forall lo, Forall (fun n => lo <= n <= N) l -> lo <= N + 1 ->
  Z.of_nat (length l) <= N - lo + 1.
Proof.
  induction 1 as [|x l Hs IH Hx]; intros lo Hb Hlo.
  - simpl. lia.
  - inversion Hb as [|? ? Hbx Hbl]; subst.
    assert (Hl : Forall (fun n => x + 1 <= n <= N) l).
    { apply List.Forall_forall. intros y Hy.
      pose proof (proj1 (List.Forall_forall _ _) Hx y Hy).
      pose proof (proj1 (List.Forall_forall _ _) Hbl y Hy). cbn in *. lia. }
    specialize (IH (x + 1) Hl ltac:(lia)).
    change (length (x :: l)) with (S (length l)). lia.
Qed.

End Lines.


Lemma map_app_nil_id (l : list (list nat)) (n : nat) :
  map (fun ts => ts ++ seq n 0) l = l.
Proof.
  induction l as [|x l IH]; cbn [map]; [reflexivity|].
  rewrite IH. cbn [seq]. now rewrite app_nil_r.
Qed.

Lemma extends_same st st' :
  length (heap st') = length (heap st) ->
  map Line (heap st') = map Line (heap st) ->
  map Tests (Suites st') = map Tests (Suites st) ->
  map suite_Name (Suites st') = map suite_Name (Suites st) ->
  lineCount st <= lineCount st' ->
  extends st st'.
Proof.
  intros Hlen Hlines Htests Hnames Hcount. constructor.
  - lia.
  - exact Hcount.
  - exists []. split; [now rewrite app_nil_r | constructor].
  - exists []. rewrite app_nil_r, Hlen, Nat.sub_diag, map_app_nil_id. exact Htests.
  - exists []. now rewrite app_nil_r.
Qed.

Lemma extends_refl st : extends st st.
Proof. apply extends_same; reflexivity. Qed.

Lemma extends_trans st1 st2 st3 : extends st1 st2 -> extends st2 st3 -> extends st1 st3.
Proof.
  intros [Hh1 Hc1 (nl1 & Hl1 & Hf1) (ns1 & Ht1) (nn1 & Hn1)]
         [Hh2 Hc2 (nl2 & Hl2 & Hf2) (ns2 & Ht2) (nn2 & Hn2)].
  constructor.
  - lia.
  - lia.
  - exists (nl1 ++ nl2). split.
    + now rewrite Hl2, Hl1, app_assoc.
    + apply Forall_app. split; [exact Hf1|].
      eapply List.Forall_impl; [|exact Hf2]. cbn. intros; lia.
  - exists (map (fun ts => ts ++ seq (length (heap st2)) (length (heap st3) - length (heap st2)))
              ns1 ++ ns2).
    rewrite Ht2, Ht1, map_app, map_map, app_assoc. f_equal. f_equal.
    apply map_ext. intros ts. rewrite <- app_assoc. f_equal.
    replace (length (heap st3) - length (heap st1))%nat
      with ((length (heap st2) - length (heap st1)) + (length (heap st3) - length (heap st2)))%nat
      by lia.
    rewrite seq_app. f_equal. f_equal. lia.
  - exists (nn1 ++ nn2). now rewrite Hn2, Hn1, app_assoc.
Qed.

Lemma extends_new_suite line st : extends st (new_suite line st).
Proof.
  constructor; cbn.
  - lia.
  - lia.
  - exists []. split; [now rewrite app_nil_r | constructor].
  - exists [[]]. rewrite map_app, Nat.sub_diag, map_app_nil_id. reflexivity.
  - eexists. rewrite map_app. reflexivity.
Qed.

Lemma extends_new_test line st0 st :
  heap st = heap st0 -> Suites st = Suites st0 -> lineCount st0 < lineCount st ->
  extends st0 (new_test line st).
Proof.
  intros Hheap Hsuites Hcount. constructor; cbn; rewrite ?Hheap, ?Hsuites.
  - rewrite length_app. simpl. lia.
  - lia.
  - exists [lineCount st]. rewrite map_app. split; [reflexivity|].
    constructor; [exact Hcount | constructor].
  - rewrite length_app. simpl length.
    replace (length (heap st0) + 1 - length (heap st0))%nat with 1%nat by lia.
    cbn [seq].
    destruct (suiteIndex st =? -1).
    + exists [[length (heap st0)]]. rewrite !map_app, !map_map. reflexivity.
    + exists []. rewrite app_nil_r, !map_map. reflexivity.
  - destruct (suiteIndex st =? -1).
    + exists ["default"%string]. rewrite !map_map, map_app. reflexivity.
    + exists []. rewrite app_nil_r, !map_map. reflexivity.
Qed.

Lemma extends_on_curTest (f : test -> test) st0 st :
  (forall t, Line (f t) = Line t) ->
  heap st = heap st0 -> Suites st = Suites st0 -> lineCount st0 <= lineCount st ->
  match on_curTest f st with
  | Returns st' => extends st0 st' /\ readingCommentBlock st' = readingCommentBlock st
  | Panics _ => True
  end.
Proof.
  intros Hf Hheap Hsuites Hcount. unfold on_curTest. destruct (curTest st); [|exact I].
  split; [|reflexivity].
  apply extends_same; cbn; rewrite ?length_update_at, ?(map_update_at Line _ _ _ Hf);
    rewrite ?Hheap, ?Hsuites; auto.
Qed.

Section Extends.

Variable TrimSpace : string -> string.

Lemma step_extends text st st' :
  step TrimSpace text st = Returns st' -> extends st st'.
Proof.
  unfold step. cbv zeta.
  set (st1 := {| Filename := Filename st; lineCount := lineCount st + 1 |}) in *.
  assert (Hheap : heap st1 = heap st) by reflexivity.
  assert (Hsuites : Suites st1 = Suites st) by reflexivity.
  assert (Hl : lineCount st < lineCount st1) by (cbn; lia).
  assert (Hsame : forall st2, heap st2 = heap st1 -> Suites st2 = Suites st1 ->
                              lineCount st2 = lineCount st1 -> extends st st2).
  { intros st2 H1 H2 H3. apply extends_same; rewrite ?H1, ?H2, ?H3, ?Hheap, ?Hsuites; auto. lia. }
  assert (Hon : forall f st2, (forall t, Line (f t) = Line t) ->
                 on_curTest f st1 = Returns st2 -> extends st st2).
  { intros f st2 Hf Ho.
    pose proof (extends_on_curTest f st st1 Hf Hheap Hsuites ltac:(lia)) as He.
    rewrite Ho in He. apply He. }
  clearbody st1.
  set (line := if negb (readingResult st1) then TrimSpace text else text).
  destruct (String.eqb line ""); [intros [= <-]; now apply Hsame|].
  destruct (readingCommentBlock st1 && String.eqb (TrimSpace line) "*/");
    [intros [= <-]; now apply Hsame|].
  destruct (readingCommentBlock st1); [intros [= <-]; now apply Hsame|].
  destruct (str_HasPrefix line "-- setup:"); [intros [= <-]; now apply Hsame|].
  destruct (str_HasPrefix line "-- suite:").
  { intros [= <-]. apply (extends_trans st st1); [now apply Hsame | apply extends_new_suite]. }
  destruct (str_HasPrefix line "-- only:").
  { intros [= <-]. now apply extends_new_test. }
  destruct (str_HasPrefix line "-- test:").
  { intros [= <-]. now apply extends_new_test. }
  destruct (str_HasPrefix line "/* result:" || str_HasPrefix line "/*result:");
    [intros [= <-]; now apply Hsame|].
  destruct (str_HasPrefix line "-- error:").
  { destruct (String.eqb (TrimSpace (str_TrimPrefix line "-- error:")) "").
    - destruct (on_curTest _ st1) as [st2|] eqn:Ho; [|discriminate].
      intros [= <-]. apply Hon in Ho; [|reflexivity].
      apply (extends_trans _ _ _ Ho). now apply extends_same.
    - destruct (on_curTest _ st1) as [st2|] eqn:Ho; [|discriminate].
      intros [= <-]. apply Hon in Ho; [|reflexivity].
      apply (extends_trans _ _ _ Ho). now apply extends_same. }
  destruct (str_HasPrefix line "/*"); [intros [= <-]; now apply Hsame|].
  destruct (str_HasPrefix line "--"); [intros [= <-]; now apply Hsame|].
  destruct (negb (readingResult st1) && String.eqb (TrimSpace line) "*/");
    [intros [= <-]; now apply Hsame|].
  destruct (readingSuite st1).
  { destruct ((0 <=? suiteIndex st1) && (suiteIndex st1 <? Z.of_nat (length (Suites st1))));
      [|discriminate].
    intros [= <-]. apply extends_same; cbn;
      rewrite ?(map_update_at Tests), ?(map_update_at suite_Name) by reflexivity;
      rewrite ?Hheap, ?Hsuites; auto. lia. }
  destruct (readingSetup st1); [intros [= <-]; now apply Hsame|].
  destruct (readingResult st1 && String.eqb (TrimSpace line) "*/");
    [intros [= <-]; now apply Hsame|].
  destruct (readingResult st1); intros Ho; apply Hon in Ho; auto.
Qed.

Lemma run_extends lines : forall st st',
  run TrimSpace lines st = Returns st' -> extends st st'.
Proof.
  induction lines as [|text rest IH]; intros st st'; simpl run.
  - intros [= <-]. apply extends_refl.
  - destruct (step TrimSpace text st) as [st1|] eqn:Hs; [|discriminate].
    intros Hr. apply (extends_trans st st1); [exact (step_extends text st st1 Hs) | now apply IH].
Qed.

Lemma run_app l1 l2 st :
  run TrimSpace (l1 ++ l2) st
  = match run TrimSpace l1 st with
    | Returns st' => run TrimSpace l2 st'
    | Panics msg => Panics msg
    end.
Proof.
  revert st. induction l1 as [|text l1 IH]; intros st; simpl; [reflexivity|].
  destruct (step TrimSpace text st); [apply IH | reflexivity].
Qed.

End Extends.

Lemma filter_all (k : Z) (h : list test) :
  Forall (fun n => k < n) (map Line h) -> List.filter (fun t => k <? Line t) h = h.
Proof.
  induction h as [|t h IH]; [reflexivity|].
  cbn [map]. intros Hall. inversion Hall as [|? ? Ht Hh]; subst.
  cbn [List.filter]. destruct (Z.ltb_spec k (Line t)) as [_|Hge]; [|lia].
  f_equal. now apply IH.
Qed.

Lemma filter_later_lines (k : Z) (old new : list Z) : forall (h : list test),
  map Line h = old ++ new ->
  Forall (fun n => n <= k) old ->
  Forall (fun n => k < n) new ->
  List.filter (fun t => k <? Line t) h = skipn (length old) h.
Proof.
  induction old as [|x old IH]; intros h Hmap Hold Hnew.
  - cbn [app] in Hmap. change (skipn (length (@nil Z)) h) with h.
    apply filter_all. now rewrite Hmap.
  - destruct h as [|t h]; [discriminate|]. simpl in Hmap. injection Hmap as Ht Hmap.
    inversion Hold as [|? ? Hx Hold']; subst.
    change (skipn (length (Line t :: old)) (t :: h)) with (skipn (length old) h).
    cbn [List.filter]. destruct (Z.ltb_spec k (Line t)) as [Hlt|_]; [lia|].
    now apply IH.
Qed.

Section Suites.

Variable TrimSpace : string -> string.

(** What a [-- suite:] line does, outside a comment block. *)
Lemma step_suite_line text st :
  readingCommentBlock st = false ->
  str_HasPrefix (if negb (readingResult st) then TrimSpace text else text) "-- suite:" = true ->
  exists st',
    step TrimSpace text st = Returns st' /\
    Suites st' = Suites st ++
                 [{| suite_Name := str_TrimPrefix
                                     (if negb (readingResult st) then TrimSpace text else text)
                                     "-- suite: ";
                     PostSetup := ""; Tests := [] |}] /\
    heap st' = heap st /\
    lineCount st' = lineCount st + 1.
Proof.
  intros Hcb Hp. unfold step. cbv zeta. step_projections.
  set (line := if negb (readingResult st) then TrimSpace text else text) in *.
  pose proof (str_HasPrefix_split _ _ Hp) as Hline.
  set (r := str_drop _ line) in Hline. clearbody r. clearbody line.
  assert (E1 : String.eqb line "" = false) by (rewrite Hline; reflexivity).
  assert (E2 : str_HasPrefix line "-- setup:" = false) by (rewrite Hline; reflexivity).
  rewrite Hcb, Hp, E1, E2. cbn [andb].
  eexists. split; [reflexivity|]. repeat split.
Qed.

(** The suite a [-- suite:] line declares, in the state [parse] returns:
    it stands where the line put it and holds the tests of the later
    lines. *)
Lemma run_declared_suite (before : list string) (text : string) (after : list string)
    (st0 st1 st : state) :
  invariant st0 ->
  run TrimSpace before st0 = Returns st1 ->
  readingCommentBlock st1 = false ->
  str_HasPrefix (if negb (readingResult st1) then TrimSpace text else text) "-- suite:" = true ->
  run TrimSpace (before ++ text :: after) st0 = Returns st ->
  exists su,
    nth_error (Suites st) (length (Suites st1)) = Some su /\
    suite_Name su = str_TrimPrefix (if negb (readingResult st1) then TrimSpace text else text)
                      "-- suite: " /\
    Tests su = seq (length (heap st1)) (length (heap st) - length (heap st1)) /\
    (length (heap st1) <= length (heap st))%nat /\
    List.filter (fun t => lineCount st1 + 1 <? Line t) (heap st)
    = skipn (length (heap st1)) (heap st).
Proof.
  intros Hinv Hbefore Hcb Hp Hrun.
  rewrite run_app, Hbefore in Hrun. simpl run in Hrun.
  destruct (step_suite_line text st1 Hcb Hp) as (st2 & Hstep & Hsuites & Hheap & Hcount).
  rewrite Hstep in Hrun.
  pose proof (run_invariant TrimSpace before st0 Hinv) as H1.
  rewrite Hbefore in H1. destruct H1 as [H1 _].
  destruct (run_extends TrimSpace after st2 st Hrun)
    as [Hh _ (new_lines & Hlines & Hnew) (new_suites & Htests) (new_names & Hnames)].
  rewrite Hheap in *. rewrite Hsuites in Htests, Hnames. rewrite Hcount in Hnew.
  assert (Hnth : nth_error (map Tests (Suites st)) (length (Suites st1))
                 = Some (seq (length (heap st1)) (length (heap st) - length (heap st1)))).
  { rewrite Htests, !map_app, <- app_assoc.
    rewrite nth_error_app2 by (rewrite !length_map; lia).
    rewrite !length_map, Nat.sub_diag. reflexivity. }
  assert (Hnth' : nth_error (map suite_Name (Suites st)) (length (Suites st1))
                  = Some (str_TrimPrefix
                            (if negb (readingResult st1) then TrimSpace text else text)
                            "-- suite: ")).
  { rewrite Hnames, map_app, <- app_assoc.
    rewrite nth_error_app2 by (rewrite !length_map; lia).
    rewrite !length_map, Nat.sub_diag. reflexivity. }
  rewrite nth_error_map in Hnth, Hnth'.
  destruct (nth_error (Suites st) (length (Suites st1))) as [su|]; [|discriminate].
  exists su. injection Hnth as Hnth. injection Hnth' as Hnth'.
  split; [reflexivity|]. split; [exact Hnth'|]. split; [exact Hnth|]. split; [exact Hh|].
  rewrite <- (length_map Line (heap st1)).
  apply (filter_later_lines _ _ new_lines); [exact Hlines | | exact Hnew].
  eapply List.Forall_impl; [|exact (inv_lines _ H1)]. cbn. intros; lia.
Qed.

End Suites.

Section Parsing.

Variable TrimSpace : string -> string.

(** [parse] never indexes [ts.Suites] out of range: the only panic it
    can raise is the nil dereference of [curTest]; when it returns,
    [suiteIndex] is the index of the last suite and [lineCount] the number
    of lines read. *)
Theorem parse_panics_only_on_a_nil_curTest (lines : list string) (filename : string) :
  parse TrimSpace lines filename <> Panics index_out_of_range /\
  match parse TrimSpace lines filename with
  | Returns st => suiteIndex st = Z.of_nat (length (Suites st)) - 1 /\
                  lineCount st = Z.of_nat (length lines)
  | Panics msg => msg = tree.nil_dereference
  end.
Proof.
  pose proof (run_invariant TrimSpace lines _ (invariant_initial filename)) as H.
  unfold parse. destruct (run TrimSpace lines (initial filename)) as [st|msg].
  - split; [discriminate|]. destruct H as [H Hl]. split; [apply H | exact Hl].
  - subst msg. split; [discriminate | reflexivity].
Qed.

(** The suites of a parsed file share the tests.  The suite that a
    [-- suite:] line declares holds the tests declared on the lines after
    it, all of them and in the order of the file, and no test of an
    earlier line; so every suite holds a final part of the tests, the first
    suite holds them all, and a file with a test has a suite. *)
Theorem parse_suites_share_the_tests (lines : list string) (filename : string) (st : state) :
  parse TrimSpace lines filename = Returns st ->
  (forall su, In su (Suites st) ->
     exists n, (n <= length (heap st))%nat /\ tests_of st su = skipn n (heap st)) /\
  (forall su rest, Suites st = su :: rest -> tests_of st su = heap st) /\
  (heap st <> [] -> Suites st <> []) /\
  (forall (before : list string) (text : string) (after : list string) (st1 : state),
     lines = before ++ text :: after ->
     parse TrimSpace before filename = Returns st1 ->
     readingCommentBlock st1 = false ->
     str_HasPrefix (if negb (readingResult st1) then TrimSpace text else text) "-- suite:"
     = true ->
     exists su,
       nth_error (Suites st) (length (Suites st1)) = Some su /\
       suite_Name su = str_TrimPrefix
                         (if negb (readingResult st1) then TrimSpace text else text)
                         "-- suite: " /\
       tests_of st su
       = List.filter (fun t => Z.of_nat (length before) + 1 <? Line t) (heap st) /\
       tests_of st su = skipn (length (heap st1)) (heap st)).
Proof.
  intros Hparse.
  pose proof (run_invariant TrimSpace lines _ (invariant_initial filename)) as H.
  unfold parse in Hparse. rewrite Hparse in H. destruct H as [H _].
  split; [|split; [|split]].
  - intros su Hin.
    pose proof (proj1 (List.Forall_forall _ _) (inv_suites _ H) (Tests su)
                  (in_map Tests _ _ Hin)) as (n & Hn & Hts).
    exists n. split; [exact Hn|]. unfold tests_of. rewrite Hts. now apply nth_seq_skipn.
  - intros su rest Hs. unfold tests_of.
    rewrite (inv_first _ H (Tests su) (map Tests rest)) by now rewrite Hs.
    pose proof (nth_seq_skipn (heap st)) as Hn. specialize (Hn
      {| Name := ""; Expr := ""; Result := ""; ErrorMatch := ""; Fails := false;
         Line := 0; Only := false |} 0%nat ltac:(lia)).
    rewrite Nat.sub_0_r in Hn. exact Hn.
  - exact (inv_heap _ H).
  - intros before text after st1 -> Hbefore Hcb Hp. unfold parse in Hbefore.
    destruct (run_declared_suite TrimSpace before text after _ st1 st (invariant_initial filename)
                Hbefore Hcb Hp Hparse) as (su & Hnth & Hname & Htests & Hle & Hfilter).
    pose proof (run_invariant TrimSpace before _ (invariant_initial filename)) as H1.
    rewrite Hbefore in H1. destruct H1 as [_ Hcount].
    change (lineCount (initial filename)) with 0 in Hcount. rewrite Z.add_0_l in Hcount.
    assert (Hskip : tests_of st su = skipn (length (heap st1)) (heap st)).
    { unfold tests_of. rewrite Htests. now apply nth_seq_skipn. }
    exists su. split; [exact Hnth|]. split; [exact Hname|]. split; [|exact Hskip].
    rewrite Hskip, <- Hfilter, Hcount. reflexivity.
Qed.

(** the tests of a parsed file carry the numbers of the lines that
    declare them: strictly increasing, between 1 and the number of
    lines. *)
Theorem parse_numbers_the_tests (lines : list string) (filename : string) (st : state) :
  parse TrimSpace lines filename = Returns st ->
  StronglySorted Z.lt (map Line (heap st)) /\
  Forall (fun t => 1 <= Line t <= Z.of_nat (length lines)) (heap st) /\
  (length (heap st) <= length lines)%nat.
Proof.
  intros Hparse.
  pose proof (run_invariant TrimSpace lines _ (invariant_initial filename)) as H.
  unfold parse in Hparse. rewrite Hparse in H. destruct H as [H Hl].
  change (lineCount (initial filename)) with 0 in Hl. rewrite Z.add_0_l in Hl.
  pose proof (inv_lines _ H) as Hb. rewrite Hl in Hb.
  split; [exact (inv_sorted _ H)|]. split.
  - apply List.Forall_map in Hb. exact Hb.
  - pose proof (sorted_bounded_length (map Line (heap st)) (Z.of_nat (length lines))
                  (inv_sorted _ H) 1 Hb ltac:(lia)) as Hlen.
    rewrite length_map in Hlen. lia.
Qed.

(** a second [-- error:] line for the same test makes [parse] panic:
    the first one resets [curTest] to nil, which the second one
    dereferences. *)
Theorem second_error_line_panics (text1 text2 : string) (st : state) :
  readingCommentBlock st = false ->
  readingResult st = false ->
  str_HasPrefix (TrimSpace text1) "-- error:" = true ->
  str_HasPrefix (TrimSpace text2) "-- error:" = true ->
  run TrimSpace [text1; text2] st = Panics tree.nil_dereference.
Proof.
  intros Hcb Hrr H1 H2.
  pose proof (step_error_line TrimSpace text1 st Hcb) as Hs.
  rewrite Hrr in Hs. specialize (Hs H1). simpl run.
  destruct (curTest st); [|now rewrite Hs].
  destruct Hs as (st' & -> & Hc & Hcb' & Hrr').
  pose proof (step_error_line TrimSpace text2 st' Hcb') as Hs'.
  rewrite Hrr', Hc in Hs'. now rewrite (Hs' H2).
Qed.

End Parsing.


Section Statements.

Variable TrimSpace : string -> string.

(** a statement or result line met while there is no current test, and
    no setup or suite being read, makes [parse] panic with a nil
    dereference; the lines after it are not read. *)
Theorem statement_outside_a_test_panics (text : string) (rest : list string) (st : state) :
  curTest st = None ->
  readingCommentBlock st = false ->
  readingSuite st = false ->
  readingSetup st = false ->
  (if negb (readingResult st) then TrimSpace text else text) <> ""%string ->
  str_HasPrefix (if negb (readingResult st) then TrimSpace text else text) "--" = false ->
  str_HasPrefix (if negb (readingResult st) then TrimSpace text else text) "/*" = false ->
  TrimSpace (if negb (readingResult st) then TrimSpace text else text) <> "*/"%string ->
  run TrimSpace (text :: rest) st = Panics tree.nil_dereference.
Proof.
  intros Hc Hcb Hsu Hse Hne Hdash Hstar Hend.
  simpl run. unfold step. cbv zeta. step_projections.
  set (line := if negb (readingResult st) then TrimSpace text else text) in *.
  clearbody line.
  apply String.eqb_neq in Hne, Hend.
  pose proof (str_HasPrefix_shorter line "--" " setup:" Hdash) as E1.
  pose proof (str_HasPrefix_shorter line "--" " suite:" Hdash) as E2.
  pose proof (str_HasPrefix_shorter line "--" " only:" Hdash) as E3.
  pose proof (str_HasPrefix_shorter line "--" " test:" Hdash) as E4.
  pose proof (str_HasPrefix_shorter line "--" " error:" Hdash) as E5.
  pose proof (str_HasPrefix_shorter line "/*" " result:" Hstar) as E6.
  pose proof (str_HasPrefix_shorter line "/*" "result:" Hstar) as E7.
  change (String.append "--" " setup:") with "-- setup:"%string in E1.
  change (String.append "--" " suite:") with "-- suite:"%string in E2.
  change (String.append "--" " only:") with "-- only:"%string in E3.
  change (String.append "--" " test:") with "-- test:"%string in E4.
  change (String.append "--" " error:") with "-- error:"%string in E5.
  change (String.append "/*" " result:") with "/* result:"%string in E6.
  change (String.append "/*" "result:") with "/*result:"%string in E7.
  rewrite Hne, Hcb, E1, E2, E3, E4, E5, E6, E7, Hstar, Hdash, Hend, Hsu, Hse.
  rewrite !andb_false_r. cbn [andb orb]. unfold on_curTest. step_projections. rewrite Hc.
  now destruct (readingResult st).
Qed.

(** A test declared by an [-- only:] line keeps the whole line as its
    name, since only the prefix [-- test: ] is cut; it is marked [Only],
    carries the number of its line and becomes the current test, and the
    flag [only] is lowered again. *)
Theorem only_line_names_the_test_by_the_whole_line (text : string) (st : state) :
  readingCommentBlock st = false ->
  str_HasPrefix (if negb (readingResult st) then TrimSpace text else text) "-- only:" = true ->
  exists st' t,
    step TrimSpace text st = Returns st' /\
    heap st' = heap st ++ [t] /\
    Name t = (if negb (readingResult st) then TrimSpace text else text) /\
    Only t = true /\
    Line t = lineCount st + 1 /\
    curTest st' = Some (length (heap st)) /\
    only st' = false.
Proof.
  intros Hcb Hp. unfold step. cbv zeta. step_projections.
  set (line := if negb (readingResult st) then TrimSpace text else text) in *.
  apply str_HasPrefix_split in Hp.
  set (r := str_drop _ line) in Hp. clearbody r. clearbody line. subst line.
  rewrite Hcb.
  change (String.eqb (String.append "-- only:" r) "") with false.
  change (str_HasPrefix (String.append "-- only:" r) "-- setup:") with false.
  change (str_HasPrefix (String.append "-- only:" r) "-- suite:") with false.
  change (str_HasPrefix (String.append "-- only:" r) "-- only:") with true.
  cbn [andb orb]. eexists. eexists. split; [reflexivity|].
  unfold new_test, set_only. cbv zeta. step_projections.
  split; [reflexivity|]. cbn [Name Only Line]. unfold str_TrimPrefix.
  change (str_HasPrefix (String.append "-- only:" r) "-- test: ") with false.
  repeat split.
Qed.

End Statements.

Lemma first_only_spec (tests : list test) :
  match first_only tests with
  | None => Forall (fun t => Only t = false) tests
  | Some t => exists before after,
      tests = before ++ t :: after /\
      Forall (fun t => Only t = false) before /\ Only t = true
  end.
Proof.
  induction tests as [|t tests IH]; simpl.
  - constructor.
  - destruct (Only t) eqn:Ho.
    + exists [], tests. repeat split; [constructor | exact Ho].
    + destruct (first_only tests) as [t'|].
      * destruct IH as (before & after & -> & Hb & Ho').
        exists (t :: before), after. repeat split; [now constructor | exact Ho'].
      * now constructor.
Qed.

(** a suite runs the first of its tests marked [Only] alone; without
    one, it runs them all. *)
Theorem select_tests_runs_the_first_Only_test (tests : list test) :
  (select_tests tests = tests /\ Forall (fun t => Only t = false) tests) \/
  (exists before t after,
     tests = before ++ t :: after /\
     Forall (fun t => Only t = false) before /\
     Only t = true /\
     select_tests tests = [t]).
Proof.
  unfold select_tests. pose proof (first_only_spec tests) as H.
  destruct (first_only tests) as [t|].
  - right. destruct H as (before & after & Heq & Hb & Ho).
    exists before, t, after. repeat split; assumption.
  - left. split; [reflexivity | exact H].
Qed.

Lemma parse_suites_share_the_tests_witness :
  exists st, parse no_trim late_suite_sql "index.sql" = Returns st /\
    map (fun su => (suite_Name su, map Name (tests_of st su))) (Suites st)
    = [("no index", ["insert"; "-- only: select"]); ("with index", ["-- only: select"])]%string /\
    (exists su, nth_error (Suites st) 1 = Some su /\
                suite_Name su = "with index"%string /\
                tests_of st su = List.filter (fun t => 6 <? Line t) (heap st)) /\
    (forall su rest, Suites st = su :: rest -> tests_of st su = heap st).
Proof.
  eexists. split; [vm_compute; reflexivity|]. split; [vm_compute; reflexivity|].
  match goal with
  | |- context [nth_error (Suites ?st)] =>
      destruct (parse_suites_share_the_tests no_trim late_suite_sql "index.sql" st)
        as (_ & Hfirst & _ & Hdeclared); [vm_compute; reflexivity|]
  end.
  split; [|exact Hfirst].
  edestruct (Hdeclared (firstn 5 late_suite_sql) "-- suite: with index"%string
               (skipn 6 late_suite_sql)) as (su & Hnth & Hname & Htests & _);
    [reflexivity | vm_compute; reflexivity | reflexivity | reflexivity |].
  exists su. split; [exact Hnth|]. split; [exact Hname | exact Htests].
Defined.

Lemma parse_numbers_the_tests_witness :
  exists st, parse no_trim pk_sql "UPDATE/pk.sql" = Returns st /\
    map Line (heap st) = [1; 7] /\
    (length (heap st) <= length pk_sql)%nat.
Proof.
  eexists. split; [vm_compute; reflexivity|]. split; [vm_compute; reflexivity|].
  apply (parse_numbers_the_tests no_trim pk_sql "UPDATE/pk.sql").
  vm_compute. reflexivity.
Defined.

Lemma second_error_line_panics_witness :
  run no_trim ["-- error: cannot unset primary key path"; "-- error:"]%string
    (new_test "-- test: unset primary key" (initial "UPDATE/pk.sql"))
  = Panics tree.nil_dereference.
Proof.
  apply second_error_line_panics; vm_compute; reflexivity.
Defined.

Lemma statement_outside_a_test_panics_witness :
  parse no_trim ("UPDATE test UNSET a WHERE a = 1;"%string :: pk_sql) "UPDATE/pk.sql"
  = Panics tree.nil_dereference.
Proof.
  apply (statement_outside_a_test_panics no_trim); try (vm_compute; reflexivity);
    vm_compute; discriminate.
Defined.

Lemma only_line_names_the_test_by_the_whole_line_witness :
  exists st' t,
    step no_trim "-- only: select" (initial "index.sql") = Returns st' /\
    heap st' = [t] /\ Name t = "-- only: select"%string /\ Only t = true /\ Line t = 1.
Proof.
  destruct (only_line_names_the_test_by_the_whole_line no_trim "-- only: select"
              (initial "index.sql")) as (st' & t & Hs & Hh & Hn & Ho & Hl & _);
    [reflexivity | reflexivity |].
  exists st', t. repeat split; assumption.
Defined.

End sqltests_facts.
